(** * sora2-vercel: storyboard timing, polling reconciliation and the API client

    A shallow embedding of the logic of
    - [components/CreatePanel.tsx]  (storyboard segment handlers),
    - [components/GalleryPanel.tsx] (the polling effect),
    - [services/apiService.ts]      (the remote API client),
    - [App.tsx]                     (the task store),
    followed by the properties of the written specification. *)

From Stdlib Require Import ZArith List String Ascii Bool Lia DecimalString.
Import ListNotations.

Local Open Scope Z_scope.
Set Warnings "-register-all".

(* ===================================================================== *)
(** * JavaScript values used by the program                               *)
(* ===================================================================== *)

Module Js.

(** A JavaScript string is a sequence of UTF-16 code units. *)
Definition jsstring := list N.

(** Source literals are written as Rocq strings (UTF-8 bytes) and decoded
    to code units, so that the text of the program can be kept verbatim. *)
Fixpoint utf8_decode (bs : list N) : jsstring :=
  match bs with
  | [] => []
  | b0 :: r =>
    if (b0 <? 128)%N then b0 :: utf8_decode r
    else if (b0 <? 224)%N then
      match r with
      | b1 :: r1 => ((b0 - 192) * 64 + (b1 - 128))%N :: utf8_decode r1
      | _ => [65533%N]
      end
    else if (b0 <? 240)%N then
      match r with
      | b1 :: b2 :: r2 =>
          ((b0 - 224) * 4096 + (b1 - 128) * 64 + (b2 - 128))%N :: utf8_decode r2
      | _ => [65533%N]
      end
    else
      match r with
      | b1 :: b2 :: b3 :: r3 =>
          let cp := ((b0 - 240) * 262144 + (b1 - 128) * 4096
                     + (b2 - 128) * 64 + (b3 - 128))%N in
          let v := (cp - 65536)%N in
          (55296 + v / 1024)%N :: (56320 + v mod 1024)%N :: utf8_decode r3
      | _ => [65533%N]
      end
  end.

Definition lit (s : string) : jsstring :=
  utf8_decode (map N_of_ascii (list_ascii_of_string s)).

(** [a === b] on strings. *)
Fixpoint str_eqb (a b : jsstring) : bool :=
  match a, b with
  | [], [] => true
  | x :: a', y :: b' => (x =? y)%N && str_eqb a' b'
  | _, _ => false
  end.

(** [s.startsWith(p)] *)
Fixpoint startsWith (s p : jsstring) : bool :=
  match p, s with
  | [], _ => true
  | x :: p', y :: s' => (x =? y)%N && startsWith s' p'
  | _ :: _, [] => false
  end.

(** [s.includes(p)] *)
Fixpoint includes (s p : jsstring) : bool :=
  startsWith s p ||
  match s with
  | [] => false
  | _ :: s' => includes s' p
  end.

(** [s.substring(0, n)] *)
Definition substring0 (n : nat) (s : jsstring) : jsstring := firstn n s.

(** [s.split(c)] for a one-character separator: never the empty array. *)
Fixpoint split_on (c : N) (s : jsstring) : list jsstring :=
  match s with
  | [] => [[]]
  | x :: s' =>
    if (x =? c)%N then [] :: split_on c s'
    else match split_on c s' with
         | [] => [[x]]
         | h :: t => (x :: h) :: t
         end
  end.

(** [parts.join(sep)] *)
Fixpoint join (sep : jsstring) (parts : list jsstring) : jsstring :=
  match parts with
  | [] => []
  | [p] => p
  | p :: rest => p ++ sep ++ join sep rest
  end.

(** ECMAScript LineTerminator code points. *)
Definition is_line_terminator (c : N) : bool :=
  ((c =? 10) || (c =? 13) || (c =? 8232) || (c =? 8233))%N.

(** ECMAScript WhiteSpace and LineTerminator code points: what [trim] strips. *)
Definition is_white_space (c : N) : bool :=
  ((c =? 9) || (c =? 11) || (c =? 12) || (c =? 32) || (c =? 160)
   || (c =? 5760) || ((8192 <=? c) && (c <=? 8202)) || (c =? 8239)
   || (c =? 8287) || (c =? 12288) || (c =? 65279))%N
  || is_line_terminator c.

Fixpoint trimStart (s : jsstring) : jsstring :=
  match s with
  | [] => []
  | c :: s' => if is_white_space c then trimStart s' else s
  end.

Definition trimEnd (s : jsstring) : jsstring := rev (trimStart (rev s)).

(** [s.trim()] *)
Definition trim (s : jsstring) : jsstring := trimEnd (trimStart s).

(** A string is truthy when it is not empty. *)
Definition truthy_str (s : jsstring) : bool :=
  match s with [] => false | _ => true end.

(** [n.toString()] and template interpolation of an integral number. *)
Definition num_to_string (z : Z) : jsstring :=
  lit (NilZero.string_of_int (Z.to_int z)).

(** [Math.max] and [Math.min] on integral numbers. *)
Definition Math_max (a b : Z) : Z := Z.max a b.
Definition Math_min (a b : Z) : Z := Z.min a b.

(** ** Exceptions and the console *)

(** A thrown [Error] object: its [name] and [message]. *)
Record JsError := mkError {
  name : jsstring;
  message : jsstring
}.

(** [new Error(msg)] *)
Definition Error (msg : jsstring) : JsError := mkError (lit "Error") msg.

(** The rejection of [fetch] when the network or CORS fails. *)
Definition failed_to_fetch : JsError :=
  mkError (lit "TypeError") (lit "Failed to fetch").

Inductive result (A : Type) : Type :=
| Ok (a : A)
| Throw (e : JsError).

Arguments Ok {A} a.
Arguments Throw {A} e.

(** One [console.error(label, detail)] call. *)
Record LogEntry := mkLog {
  label : jsstring;
  detail : option JsError
}.

(** An [async] function: what it wrote to the console, and whether its
    promise resolved or rejected. *)
Definition io (A : Type) : Type := (list LogEntry * result A)%type.

Definition ret {A} (a : A) : io A := ([], Ok a).
Definition throw {A} (e : JsError) : io A := ([], Throw e).
Definition lift {A} (r : result A) : io A := ([], r).

Definition bind {A B} (m : io A) (k : A -> io B) : io B :=
  match m with
  | (l, Ok a) => let (l', r) := k a in (l ++ l', r)
  | (l, Throw e) => (l, Throw e)
  end.

(** [try { m } catch (e) { handler e }] *)
Definition try_catch {A} (m : io A) (handler : JsError -> io A) : io A :=
  match m with
  | (l, Ok a) => (l, Ok a)
  | (l, Throw e) => let (l', r) := handler e in (l ++ l', r)
  end.

Definition console_error (lbl : jsstring) (d : option JsError) : io unit :=
  ([mkLog lbl d], Ok tt).

Declare Scope io_scope.
Delimit Scope io_scope with io.
Notation "x <- m ;; k" := (bind m (fun x => k))
  (at level 61, m at next level, right associativity) : io_scope.
Notation "m ;; k" := (bind m (fun _ => k))
  (at level 61, right associativity) : io_scope.

End Js.

Import Js.
Local Open Scope io_scope.

(* ===================================================================== *)
(** * Shared types ([types.ts])                                           *)
(* ===================================================================== *)

(** [interface ApiSettings] *)
Record ApiSettings := mkSettings {
  baseUrl : jsstring;
  apiKey : jsstring
}.

(** [enum VideoModel] *)
Inductive VideoModel := SORA_2 | SORA_2_PRO | SORA_2_CHARACTERS.

Inductive VideoSize := small | large.
Inductive VideoOrientation := portrait | landscape.


(* ===================================================================== *)
(** * The storyboard of [CreatePanel]                                      *)
(* ===================================================================== *)

Module Storyboard.

(** [interface StoryboardSegment] *)
Record StoryboardSegment := mkSegment {
  id : jsstring;
  duration : Z;
  description : jsstring
}.

(** [keyof StoryboardSegment], the [field] argument of [updateSegment]. *)
Inductive Field := F_id | F_duration | F_description.

Inductive View := edit | preview.

(** The part of the component state the storyboard handlers read and write.
    [targetDuration] is the component's [duration] state (the video length
    chosen by the user); the name avoids the segment field of the same name. *)
Record State := mkState {
  isStoryboardMode : bool;
  storyboardView : View;
  storyboardSegments : list StoryboardSegment;
  previewPrompt : jsstring;
  targetDuration : Z;
  error : option jsstring
}.

Definition set_segments (segs : list StoryboardSegment) (st : State) : State :=
  mkState (isStoryboardMode st) (storyboardView st) segs (previewPrompt st)
          (targetDuration st) (error st).

Definition set_error (e : option jsstring) (st : State) : State :=
  mkState (isStoryboardMode st) (storyboardView st) (storyboardSegments st)
          (previewPrompt st) (targetDuration st) e.

Definition set_view (v : View) (st : State) : State :=
  mkState (isStoryboardMode st) v (storyboardSegments st) (previewPrompt st)
          (targetDuration st) (error st).

Definition set_preview (p : jsstring) (st : State) : State :=
  mkState (isStoryboardMode st) (storyboardView st) (storyboardSegments st) p
          (targetDuration st) (error st).

Definition set_target (d : Z) (st : State) : State :=
  mkState (isStoryboardMode st) (storyboardView st) (storyboardSegments st)
          (previewPrompt st) d (error st).

Definition set_mode (b : bool) (st : State) : State :=
  mkState b (storyboardView st) (storyboardSegments st) (previewPrompt st)
          (targetDuration st) (error st).

(** [useState] initial values: one segment of five seconds, target 10. *)
Definition initial_segments : list StoryboardSegment :=
  [mkSegment (lit "1") 5 []].

Definition initial_state : State :=
  mkState false edit initial_segments [] 10 None.

(** [segs.reduce((sum, s) => sum + s.duration, 0)] *)
Definition sum_durations (segs : list StoryboardSegment) : Z :=
  fold_left (fun sum s => sum + duration s) segs 0.

(** [totalSegmentDuration]: on numbers [Number(d) || 0] is [d]. *)
Definition totalSegmentDuration (st : State) : Z :=
  sum_durations (storyboardSegments st).

(** ** The duration-clamp effect (lines 108-141) *)

(** The [for ... of] loop with its two locals; [break] ends the recursion. *)
Fixpoint clamp_loop (target accumulatedTime : Z)
    (newSegments prevSegments : list StoryboardSegment)
    : list StoryboardSegment :=
  match prevSegments with
  | [] => newSegments
  | seg :: rest =>
    if accumulatedTime >=? target then newSegments
    else
      let segDuration :=
        if accumulatedTime + duration seg >? target
        then target - accumulatedTime
        else duration seg in
      if segDuration >? 0
      then clamp_loop target (accumulatedTime + segDuration)
             (newSegments ++ [mkSegment (id seg) segDuration (description seg)])
             rest
      else clamp_loop target accumulatedTime newSegments rest
  end.

(** The updater passed to [setStoryboardSegments]; [now] is [Date.now()]. *)
Definition clampSegments (target now : Z) (prevSegments : list StoryboardSegment)
    : list StoryboardSegment :=
  let newSegments := clamp_loop target 0 [] prevSegments in
  match newSegments with
  | [] => [mkSegment (num_to_string now) target []]
  | _ => newSegments
  end.

(** The effect body: it only acts in storyboard mode. *)
Definition clampEffect (now : Z) (st : State) : State :=
  if isStoryboardMode st
  then set_segments (clampSegments (targetDuration st) now (storyboardSegments st)) st
  else st.

(** "Reset storyboard view when mode toggles" (lines 104-106). *)
Definition viewResetEffect (st : State) : State :=
  if isStoryboardMode st then st else set_view edit st.

(** [setDuration(d)] followed by the effects that depend on [duration]. *)
Definition setDuration (d now : Z) (st : State) : State :=
  if d =? targetDuration st then st   (* same value: no render, no effect *)
  else clampEffect now (set_target d st).

(** [setIsStoryboardMode(!isStoryboardMode)] followed by the effects that
    depend on [isStoryboardMode]. *)
Definition toggleStoryboardMode (now : Z) (st : State) : State :=
  clampEffect now (viewResetEffect (set_mode (negb (isStoryboardMode st)) st)).

(** ** Segment handlers (lines 240-274) *)

Definition err_segments_full : jsstring :=
  lit "分镜总时长已达到视频总时长，无法添加更多分镜".

(** [newId] is [Math.random().toString(36).substring(2, 9)]. *)
Definition addSegment (newId : jsstring) (st : State) : State :=
  if totalSegmentDuration st >=? targetDuration st
  then set_error (Some err_segments_full) st
  else
    let remaining := Math_max 1 (targetDuration st - totalSegmentDuration st) in
    let nextDuration := Math_min 5 remaining in
    set_segments (storyboardSegments st ++ [mkSegment newId nextDuration []]) st.

Definition removeSegment (i : jsstring) (st : State) : State :=
  if (1 <? List.length (storyboardSegments st))%nat
  then set_segments
         (filter (fun s => negb (str_eqb (id s) i)) (storyboardSegments st)) st
  else st.

Section UpdateSegment.

(** [parseInt] is the host's; [None] stands for [NaN].  An overflowing
    numeral ([Infinity]) behaves as any number above the target. *)
Variable parseInt : jsstring -> option Z.

(** [parseInt(value) || 0] *)
Definition parseInt_or_0 (value : jsstring) : Z :=
  match parseInt value with
  | Some n => n
  | None => 0
  end.

Definition updateSegment (i : jsstring) (field : Field) (value : jsstring)
    (st : State) : State :=
  let segs := storyboardSegments st in
  match field with
  | F_duration =>
    let numVal := Math_max 0 (parseInt_or_0 value) in
    let otherSegmentsTotal :=
      sum_durations (filter (fun s => negb (str_eqb (id s) i)) segs) in
    let maxAllowed := targetDuration st - otherSegmentsTotal in
    let finalVal := Math_min numVal maxAllowed in
    set_segments
      (map (fun s => if str_eqb (id s) i
                     then mkSegment (id s) finalVal (description s) else s) segs)
      st
  | F_description =>
    set_segments
      (map (fun s => if str_eqb (id s) i
                     then mkSegment (id s) (duration s) value else s) segs)
      st
  | F_id =>
    set_segments
      (map (fun s => if str_eqb (id s) i
                     then mkSegment value (duration s) (description s) else s) segs)
      st
  end.

End UpdateSegment.

(** The updater of [handleOptimize] in edit view (lines 185-188):
    [description: optimizedParts[idx]?.trim() || seg.description]. *)
Fixpoint applyOptimizedParts (optimizedParts : list jsstring)
    (segs : list StoryboardSegment) : list StoryboardSegment :=
  match segs with
  | [] => []
  | seg :: rest =>
    let d := match optimizedParts with
             | p :: _ => if truthy_str (trim p) then trim p else description seg
             | [] => description seg
             end in
    mkSegment (id seg) (duration seg) d :: applyOptimizedParts (tl optimizedParts) rest
  end.

(** ** Preview construction (lines 276-299) *)

Definition err_missing_description : jsstring := lit "请完善所有分镜的场景描述".

Definition err_total_mismatch (total target : Z) : jsstring :=
  lit "分镜总时长 (" ++ num_to_string total ++ lit "s) 必须等于视频总时长 ("
  ++ num_to_string target ++ lit "s)".

(** The [map] callback with its captured [currentTime]. *)
Fixpoint scriptParts (currentTime : Z) (segs : list StoryboardSegment)
    : list jsstring :=
  match segs with
  | [] => []
  | seg :: rest =>
    let start := currentTime in
    let end_ := currentTime + duration seg in
    (lit "[" ++ num_to_string start ++ lit "s-" ++ num_to_string end_
     ++ lit "s] " ++ description seg)
    :: scriptParts end_ rest
  end.

Definition handlePreviewAndOptimize (st : State) : State :=
  if negb (totalSegmentDuration st =? targetDuration st)
  then set_error
         (Some (err_total_mismatch (totalSegmentDuration st) (targetDuration st))) st
  else if existsb (fun s => negb (truthy_str (trim (description s))))
                  (storyboardSegments st)
  then set_error (Some err_missing_description) st
  else
    set_view preview
      (set_error None
         (set_preview (join [10; 10]%N (scriptParts 0 (storyboardSegments st))) st)).

(** ** User events on the storyboard *)

Inductive Event :=
| EvAddSegment (newId : jsstring)
| EvRemoveSegment (i : jsstring)
| EvEditDuration (i : jsstring) (value : jsstring)
| EvEditDescription (i : jsstring) (value : jsstring)
| EvSetDuration (d now : Z)
| EvToggleMode (now : Z)
| EvOptimized (optimizedParts : list jsstring)
| EvPreview.

Section Run.

Variable parseInt : jsstring -> option Z.

Definition step (st : State) (e : Event) : State :=
  match e with
  | EvAddSegment newId => addSegment newId st
  | EvRemoveSegment i => removeSegment i st
  | EvEditDuration i v => updateSegment parseInt i F_duration v st
  | EvEditDescription i v => updateSegment parseInt i F_description v st
  | EvSetDuration d now => setDuration d now st
  | EvToggleMode now => toggleStoryboardMode now st
  | EvOptimized parts =>
      set_segments (applyOptimizedParts parts (storyboardSegments st)) st
  | EvPreview => handlePreviewAndOptimize st
  end.

Definition run (st : State) (events : list Event) : State :=
  fold_left step events st.

End Run.

(** ** Vocabulary of the properties *)

(** The identifiers in use. *)
Definition ids (segs : list StoryboardSegment) : list jsstring := map id segs.

Section Fresh.

Variable parseInt : jsstring -> option Z.

(** Every identifier drawn for a new segment is one not in use at that
    moment. *)
Fixpoint fresh_adds (st : State) (events : list Event) : Prop :=
  match events with
  | [] => True
  | e :: rest =>
    match e with
    | EvAddSegment newId => ~ In newId (ids (storyboardSegments st))
    | _ => True
    end /\ fresh_adds (step parseInt st e) rest
  end.

End Fresh.

(** Events that edit a duration or add a segment. *)
Definition edits_or_adds (e : Event) : Prop :=
  match e with
  | EvAddSegment _ | EvEditDuration _ _ => True
  | _ => False
  end.

(** The invariant behind the sum bound: distinct identifiers, sum within
    the target, target untouched. *)
Definition within (target : Z) (st : State) : Prop :=
  NoDup (ids (storyboardSegments st))
  /\ totalSegmentDuration st <= target
  /\ targetDuration st = target.

(** The invariant behind non-emptiness. *)
Definition keyed_nonempty (st : State) : Prop :=
  NoDup (ids (storyboardSegments st)) /\ storyboardSegments st <> [].

(** Reconciliation as the specification words it: segments are replayed in
    order, a segment that would push the running total past the target is
    truncated, segments are dropped once the running total has reached the
    target, and an empty outcome is replaced by one segment spanning the
    target. *)
Fixpoint replay_spec (target total : Z) (segs : list StoryboardSegment)
    : list StoryboardSegment :=
  match segs with
  | [] => []
  | seg :: rest =>
    if target <=? total then []
    else if target <? total + duration seg
    then mkSegment (id seg) (target - total) (description seg)
         :: replay_spec target target rest
    else seg :: replay_spec target (total + duration seg) rest
  end.

Definition reconcile_spec (target now : Z) (segs : list StoryboardSegment)
    : list StoryboardSegment :=
  match replay_spec target 0 segs with
  | [] => [mkSegment (num_to_string now) target []]
  | replayed => replayed
  end.

(** The [start] and [end] values the preview callback computes. *)
Fixpoint boundaries (currentTime : Z) (segs : list StoryboardSegment)
    : list (Z * Z) :=
  match segs with
  | [] => []
  | seg :: rest =>
    (currentTime, currentTime + duration seg)
    :: boundaries (currentTime + duration seg) rest
  end.

(** Consecutive intervals: each starts where the previous one ended. *)
Fixpoint contiguous (start : Z) (bs : list (Z * Z)) : Prop :=
  match bs with
  | [] => True
  | (s, e) :: rest => s = start /\ contiguous e rest
  end.

(** One line of the preview: [`[${start}s-${end}s] ${description}`]. *)
Definition preview_line (b : Z * Z) (seg : StoryboardSegment) : jsstring :=
  lit "[" ++ num_to_string (fst b) ++ lit "s-" ++ num_to_string (snd b)
  ++ lit "s] " ++ description seg.

(** A numeral reader for the examples: decimal digits with an optional
    minus sign, on which [parseInt] returns the number written. *)
Fixpoint digits_value (acc : Z) (s : jsstring) : option Z :=
  match s with
  | [] => Some acc
  | c :: s' =>
    if ((48 <=? c) && (c <=? 57))%N
    then digits_value (10 * acc + Z.of_N (c - 48)) s'
    else None
  end.

Definition parseInt_decimal (s : jsstring) : option Z :=
  match s with
  | [] => None
  | 45%N :: (_ :: _) as ds => option_map Z.opp (digits_value 0 ds)
  | _ => digits_value 0 s
  end.

(** Every video length chosen is positive, as the three lengths on offer
    are. *)
Definition positive_targets (events : list Event) : Prop :=
  Forall (fun e => match e with
                   | EvSetDuration d _ => 0 < d
                   | _ => True
                   end) events.

(** What holds of the storyboard whatever the user does: distinct
    identifiers and a positive target; and, while storyboard mode is on,
    durations that are not negative and sum to at most the target. *)
Definition storyboard_inv (st : State) : Prop :=
  NoDup (ids (storyboardSegments st))
  /\ 0 < targetDuration st
  /\ (isStoryboardMode st = true ->
      totalSegmentDuration st <= targetDuration st
      /\ Forall (fun s => 0 <= duration s) (storyboardSegments st)).

(** A description that [trim] does not empty. *)
Definition described (s : StoryboardSegment) : Prop :=
  trim (description s) <> [].

(** ** Sample inputs *)

(** The generator hands out the identifier of the first segment again, and
    the user then types 10 into a duration field carrying it. *)
Definition colliding_edit : list Event :=
  [EvAddSegment (lit "1"); EvEditDuration (lit "1") (lit "10")].

(** The generator hands out the identifier of the first segment again, and
    the user then removes a segment carrying it. *)
Definition colliding_removal : list Event :=
  [EvAddSegment (lit "1"); EvRemoveSegment (lit "1")].

(** A session with distinct identifiers. *)
Definition sample_session : list Event :=
  [EvToggleMode 1700000000000;
   EvAddSegment (lit "k3j9x2a");
   EvEditDuration (lit "k3j9x2a") (lit "9");
   EvEditDescription (lit "1") (lit "A");
   EvRemoveSegment (lit "1");
   EvSetDuration 15 1700000000001].

Definition sample_edits : list Event :=
  [EvAddSegment (lit "k3j9x2a"); EvEditDuration (lit "k3j9x2a") (lit "9")].

(** One segment filling the target whose description is a single space. *)
Definition blank_description_state : State :=
  mkState true edit [mkSegment (lit "1") 10 (lit " ")] [] 10 None.

(** Segments of 4 and 6 seconds described "A" and "B", target 10. *)
Definition two_scene_state : State :=
  mkState true edit
    [mkSegment (lit "1") 4 (lit "A"); mkSegment (lit "2") 6 (lit "B")]
    [] 10 None.

End Storyboard.

(* ===================================================================== *)
(** * The remote API client ([services/apiService.ts])                    *)
(* ===================================================================== *)

Module ApiService.

Local Open Scope io_scope.

(** ** Parsed JSON *)

(** A value produced by [JSON.parse]; [number] is the host's number type.
    An object lists its own properties, one entry per key. *)
Inductive json (number : Type) : Type :=
| JNull
| JBool (b : bool)
| JNum (n : number)
| JStr (s : jsstring)
| JArr (items : list (json number))
| JObj (members : list (jsstring * json number)).

Arguments JNull {number}.
Arguments JBool {number} b.
Arguments JNum {number} n.
Arguments JStr {number} s.
Arguments JArr {number} items.
Arguments JObj {number} members.

(** What the program takes from its host (browser and engine). *)
Class Host := {
  number : Type;
  (** a number is truthy unless it is zero *)
  number_truthy : number -> bool;
  (** [String(v)] for a parsed value that is not a string *)
  String_of : json number -> result jsstring;
  (** [JSON.parse]; it throws a [SyntaxError] on malformed text *)
  JSON_parse : jsstring -> result (json number);
  (** [JSON.stringify] *)
  JSON_stringify : json number -> jsstring;
  (** [atob]; it throws on text that is not base64 *)
  atob : jsstring -> result jsstring;
  (** the [TypeError] raised by reading property [k] of [null] *)
  null_access : jsstring -> JsError
}.

Section WithHost.

Context {host : Host}.

Abbreviation jsonv := (json number).

(** A JavaScript value that came out of parsed JSON: [None] is [undefined]. *)
Definition jsval := option jsonv.

Definition truthy (v : jsval) : bool :=
  match v with
  | None => false
  | Some JNull => false
  | Some (JBool b) => b
  | Some (JNum n) => number_truthy n
  | Some (JStr s) => truthy_str s
  | Some (JArr _) => true
  | Some (JObj _) => true
  end.

Fixpoint lookup (k : jsstring) (members : list (jsstring * jsonv)) : jsval :=
  match members with
  | [] => None
  | (k', v) :: rest => if str_eqb k' k then Some v else lookup k rest
  end.

(** [v?.k] for a property name [k] that is neither an index nor [length]:
    only objects have such a property. *)
Definition get_opt (v : jsval) (k : jsstring) : jsval :=
  match v with
  | Some (JObj members) => lookup k members
  | _ => None
  end.

(** [v.k]: reading a property of [null] throws. *)
Definition get (v : jsonv) (k : jsstring) : result jsval :=
  match v with
  | JNull => Throw (null_access k)
  | _ => Ok (get_opt (Some v) k)
  end.

(** [v?.[0]] *)
Definition get_opt_0 (v : jsval) : jsval :=
  match v with
  | Some (JArr items) => nth_error items 0
  | Some (JStr (c :: _)) => Some (JStr [c])
  | Some (JObj members) => lookup (lit "0") members
  | _ => None
  end.

(** [String(v)], the conversion [new Error(v)] applies to its argument. *)
Definition ToString (v : jsonv) : result jsstring :=
  match v with
  | JStr s => Ok s
  | _ => String_of v
  end.

(** ** HTTP *)

(** A [Blob]: its bytes and its [type] attribute. *)
Record Blob := mkBlob {
  bytes : list N;
  blob_type : jsstring
}.

(** ASCII lower case of a code unit. *)
Definition ascii_lower (c : N) : N :=
  if ((65 <=? c) && (c <=? 90))%N then (c + 32)%N else c.

(** The characters U+0020 to U+007E. *)
Definition printable (c : N) : bool := ((32 <=? c) && (c <=? 126))%N.

(** [new Blob([u8arr], { type })]: the constructor keeps the type in ASCII
    lower case, and keeps no type at all when the option holds a character
    outside U+0020 to U+007E. *)
Definition new_Blob (u8arr : list N) (type : jsstring) : Blob :=
  mkBlob u8arr (if forallb printable type then map ascii_lower type else []).

Inductive FormValue :=
| FText (s : jsstring)
| FBlob (b : Blob) (filename : jsstring).

(** [FormData]: the entries in the order of the [append] calls. *)
Definition FormData := list (jsstring * FormValue).

Inductive Body :=
| NoBody
| TextBody (s : jsstring)
| FormBody (f : FormData).

Record Request := mkRequest {
  url : jsstring;
  method : jsstring;
  headers : list (jsstring * jsstring);
  body : Body
}.

Record Response := mkResponse {
  status : Z;
  text : jsstring
}.

(** [response.ok]: the status is in the range 200-299. *)
Definition ok (r : Response) : bool := (200 <=? status r) && (status r <=? 299).

(** [response.json()] *)
Definition response_json (r : Response) : io jsonv := lift (JSON_parse (text r)).

Fixpoint strip_leading_slashes (s : jsstring) : jsstring :=
  match s with
  | c :: s' => if (c =? 47)%N then strip_leading_slashes s' else s
  | [] => []
  end.

Definition buildUrl (base endpoint : jsstring) : jsstring :=
  rev (strip_leading_slashes (rev base)) ++ lit "/" ++ strip_leading_slashes endpoint.

Definition getHeaders (key : jsstring) : list (jsstring * jsstring) :=
  [(lit "Content-Type", lit "application/json; charset=utf-8");
   (lit "Accept", lit "application/json");
   (lit "Authorization", lit "Bearer " ++ key)].

(** ** Unified error handling (lines 18-53) *)

Definition msg_network : jsstring :=
  lit "网络请求失败：请检查网络连接、API地址配置或跨域设置(CORS)".

Definition msg_404 : jsstring :=
  lit "API 路径错误 (404): 请检查 API 地址配置。".

Definition msg_unknown : jsstring := lit "Unknown Error Occurred".

(** [error?.name === 'TypeError' && error?.message === 'Failed to fetch'] *)
Definition is_failed_to_fetch (error : option JsError) : bool :=
  match error with
  | Some e => str_eqb (name e) (lit "TypeError")
              && str_eqb (message e) (lit "Failed to fetch")
  | None => false
  end.

(** [`Request failed: ${response.status}`] *)
Definition request_failed (r : Response) : jsstring :=
  lit "Request failed: " ++ num_to_string (status r).

(** [` - ${errorText.substring(0, 100)}`] *)
Definition excerpt (errorText : jsstring) : jsstring :=
  lit " - " ++ substring0 100 errorText.

(** The [try] block that picks [errorMessage] out of the parsed body. *)
Definition extract_message (r : Response) (errorText : jsstring) : io jsonv :=
  errorJson <- lift (JSON_parse errorText) ;;
  err <- lift (get errorJson (lit "error")) ;;
  if truthy (get_opt err (lit "message"))
  then match get_opt err (lit "message") with
       | Some m => ret m
       | None => ret (JStr [])
       end
  else
    msg <- lift (get errorJson (lit "message")) ;;
    if truthy msg
    then match msg with
         | Some m => ret m
         | None => ret (JStr [])
         end
    else ret (JStr (request_failed r ++ excerpt errorText)).

(** [new Error(errorMessage)] converts its argument to a string. *)
Definition throw_Error {A} (errorMessage : jsonv) : io A :=
  match ToString errorMessage with
  | Ok s => throw (Error s)
  | Throw e => throw e
  end.

Definition handleFetchError (error : option JsError) (response : option Response)
    : io unit :=
  console_error (lit "API Call Error:") error ;;
  if is_failed_to_fetch error
  then throw (Error msg_network)
  else
    let rethrow : io unit :=
      match error with
      | Some e => throw e
      | None => throw (Error msg_unknown)
      end in
    match response with
    | Some r =>
      if negb (ok r)
      then
        if status r =? 404
        then throw (Error msg_404)
        else
          let errorText := text r in
          errorMessage <-
            try_catch (extract_message r errorText)
              (fun _ =>
                 if truthy_str errorText
                 then ret (JStr (request_failed r ++ excerpt errorText))
                 else ret (JStr (request_failed r))) ;;
          throw_Error errorMessage
      else rethrow
    | None => rethrow
    end.

(** ** Data URLs (lines 55-71) *)

Fixpoint until_semicolon (s : jsstring) : option jsstring :=
  match s with
  | [] => None
  | c :: s' =>
    if (c =? 59)%N then Some []
    else if is_line_terminator c then None
    else option_map (cons c) (until_semicolon s')
  end.

(** The first group of [s.match(/:(.*?);/)], if the pattern matches. *)
Fixpoint match_mime (s : jsstring) : option jsstring :=
  match s with
  | [] => None
  | c :: s' =>
    if (c =? 58)%N
    then match until_semicolon s' with
         | Some g => Some g
         | None => match_mime s'
         end
    else match_mime s'
  end.

Definition dataURLtoBlob (dataurl : jsstring) : io (option Blob) :=
  try_catch
    (let arr := split_on 44 dataurl in
     let mimeMatch := match_mime (nth 0 arr []) in
     let mime := match mimeMatch with
                 | Some g => g
                 | None => lit "application/octet-stream"
                 end in
     bstr <- lift (atob (nth 1 arr (lit "undefined"))) ;;
     let u8arr := map (fun c => (c mod 256)%N) bstr in
     ret (Some (new_Blob u8arr mime)))
    (fun e =>
       console_error (lit "Failed to convert data URL to Blob") (Some e) ;;
       ret None).

(** ** Prompt optimisation (lines 76-124) *)

Inductive OptimizeMode := mode_text | mode_segments | mode_script.

Definition systemContent (mode : OptimizeMode) : jsstring :=
  match mode with
  | mode_script =>
    lit "You are an expert film director. Refine the following video storyboard script. You MUST preserve the timestamp format `[start-end]` exactly as is (e.g. `[0s-5s]`) at the beginning of each scene. Improve the scene descriptions to be visually stunning, cinematic, and detailed, ensuring narrative continuity. Output ONLY the fully optimized script text. Do not add conversational filler."
  | mode_segments =>
    lit "Analyze the following sequence of video storyboard scenes (separated by '|||') as a cohesive narrative. Optimize EACH scene's description to be visually stunning, cinematic, and detailed. Ensure logical continuity and consistent artistic style across the sequence. Return exactly the same number of segments, separated by '|||'. Output ONLY the optimized descriptions."
  | mode_text =>
    lit "You are an expert film director and prompt engineer. Reword the user's video description into a highly detailed, visual, and cinematic prompt suitable for AI video generation (like Sora). Focus on lighting, camera angles, texture, and motion. Output ONLY the optimized prompt, no conversational filler. Do NOT include video duration, length, aspect ratio, resolution, or technical camera settings (like 4k, 16:9) in the generated text."
  end.

Definition optimize_request (prompt : jsstring) (settings : ApiSettings)
    (mode : OptimizeMode) : Request :=
  mkRequest
    (buildUrl (baseUrl settings) (lit "v1/chat/completions"))
    (lit "POST")
    (getHeaders (apiKey settings))
    (TextBody
       (JSON_stringify
          (JObj [(lit "model", JStr (lit "gpt-5"));
                 (lit "messages",
                  JArr [JObj [(lit "role", JStr (lit "system"));
                              (lit "content", JStr (systemContent mode))];
                        JObj [(lit "role", JStr (lit "user"));
                              (lit "content", JStr prompt)]]);
                 (lit "stream", JBool false)]))).

Section Calls.

(** The network: what [await fetch(url, init)] gives for a request. *)
Variable fetch : Request -> result Response.

(** The value returned is whatever [content] the service sent when it is
    truthy, hence a parsed value rather than a string. *)
Definition optimizePrompt (prompt : jsstring) (settings : ApiSettings)
    (mode : OptimizeMode) : io jsonv :=
  if negb (truthy_str prompt) then ret (JStr [])
  else
    try_catch
      (response <- lift (fetch (optimize_request prompt settings mode)) ;;
       (if negb (ok response)
        then handleFetchError None (Some response)
        else ret tt) ;;
       data <- response_json response ;;
       choices <- lift (get data (lit "choices")) ;;
       let content :=
         get_opt (get_opt (get_opt_0 choices) (lit "message")) (lit "content") in
       if truthy content
       then match content with
            | Some c => ret c
            | None => ret (JStr prompt)
            end
       else ret (JStr prompt))
      (fun error =>
         handleFetchError (Some error) None ;;
         ret (JStr prompt) (* Fallback *)).

(** ** Video creation (lines 129-189) *)

(** [interface CreateVideoRequest]; [duration] is 10, 15 or 25. *)
Record CreateVideoRequest := mkCreateVideoRequest {
  model : jsstring;
  prompt : jsstring;
  images : list jsstring;
  orientation : VideoOrientation;
  duration : Z;
  size : VideoSize;
  character_url : option jsstring;
  character_timestamps : option jsstring
}.

(** The entries appended before the image is looked at. *)
Definition base_fields (request : CreateVideoRequest) : FormData :=
  [(lit "model", FText (model request));
   (lit "prompt", FText (prompt request));
   (lit "seconds", FText (num_to_string (duration request)));
   (lit "size", FText (match orientation request with
                       | landscape => lit "16x9"
                       | portrait => lit "9x16"
                       end));
   (lit "watermark", FText (lit "false"))].

(** "Handle Image Input" *)
Definition image_fields (request : CreateVideoRequest) : io FormData :=
  match images request with
  | image :: _ =>
    if startsWith image (lit "data:")
    then
      blob <- dataURLtoBlob image ;;
      match blob with
      | Some b => ret [(lit "input_reference", FBlob b (lit "input_image.png"))]
      | None => ret []
      end
    else ret [(lit "input_reference", FText image)]
  | [] => ret []
  end.

(** An optional string is appended when it is present and not empty. *)
Definition optional_field (key : jsstring) (v : option jsstring) : FormData :=
  match v with
  | Some s => if truthy_str s then [(key, FText s)] else []
  | None => []
  end.

Definition character_fields (request : CreateVideoRequest) : FormData :=
  optional_field (lit "character_url") (character_url request)
  ++ optional_field (lit "character_timestamps") (character_timestamps request).

Definition create_request (settings : ApiSettings) (formData : FormData) : Request :=
  mkRequest
    (buildUrl (baseUrl settings) (lit "v1/videos"))
    (lit "POST")
    [(lit "Authorization", lit "Bearer " ++ apiKey settings);
     (lit "Accept", lit "application/json")]
    (FormBody formData).

(** Everything after the form is complete: the request and its outcome. *)
Definition submit (settings : ApiSettings) (formData : FormData) : io jsonv :=
  response <- lift (fetch (create_request settings formData)) ;;
  (if negb (ok response)
   then handleFetchError None (Some response)
   else ret tt) ;;
  response_json response.

Definition createVideoTask (request : CreateVideoRequest) (settings : ApiSettings)
    : io jsonv :=
  try_catch
    (image <- image_fields request ;;
     submit settings (base_fields request ++ image ++ character_fields request))
    (fun error =>
       handleFetchError (Some error) None ;;
       throw error).

(** ** Status query (lines 220-246) *)

Definition query_request (taskId : jsstring) (settings : ApiSettings) : Request :=
  mkRequest
    (buildUrl (baseUrl settings) (lit "v1/videos/" ++ taskId))
    (lit "GET")
    (getHeaders (apiKey settings))
    NoBody.

Definition queryVideoTask (taskId : jsstring) (settings : ApiSettings) : io jsonv :=
  try_catch
    (response <- lift (fetch (query_request taskId settings)) ;;
     (if negb (ok response)
      then handleFetchError None (Some response)
      else ret tt) ;;
     response_json response)
    (fun error =>
       (if includes (message error) (lit "NetworkError")
        then ret tt
        else console_error (lit "Error querying video task:") (Some error)) ;;
       throw error).

(** ** Character creation (lines 194-215) *)

(** [interface CreateCharacterRequest] *)
Record CreateCharacterRequest := mkCreateCharacterRequest {
  source_url : jsstring;
  timestamps : jsstring
}.

Definition character_request (request : CreateCharacterRequest)
    (settings : ApiSettings) : Request :=
  mkRequest
    (buildUrl (baseUrl settings) (lit "sora/v1/characters"))
    (lit "POST")
    (getHeaders (apiKey settings))
    (TextBody
       (JSON_stringify
          (JObj [(lit "url", JStr (source_url request));
                 (lit "timestamps", JStr (timestamps request))]))).

Definition createCharacter (request : CreateCharacterRequest)
    (settings : ApiSettings) : io jsonv :=
  try_catch
    (response <- lift (fetch (character_request request settings)) ;;
     (if negb (ok response)
      then handleFetchError None (Some response)
      else ret tt) ;;
     response_json response)
    (fun error =>
       handleFetchError (Some error) None ;;
       throw error).

End Calls.

End WithHost.

(** ** Vocabulary of the properties *)

Section Vocabulary.

Context {host : Host}.

(** The error message a response body offers: [error.message] when it is
    truthy, then [message] when it is truthy. *)
Definition body_message (errorText : jsstring) : option (json number) :=
  match JSON_parse errorText with
  | Ok JNull => None
  | Ok errorJson =>
    let nested := get_opt (get_opt (Some errorJson) (lit "error")) (lit "message") in
    if truthy nested then nested
    else
      let flat := get_opt (Some errorJson) (lit "message") in
      if truthy flat then flat else None
  | Throw _ => None
  end.

(** What follows the status code in the fallback message: an excerpt of the
    body, unless the body is empty text that does not parse. *)
Definition fallback_tail (errorText : jsstring) : jsstring :=
  match JSON_parse errorText with
  | Ok JNull | Throw _ => if truthy_str errorText then excerpt errorText else []
  | Ok _ => excerpt errorText
  end.

(** The value given to [new Error] for a failed response other than 404. *)
Definition error_message_for (r : Response) : json number :=
  match body_message (text r) with
  | Some m => m
  | None => JStr (request_failed r ++ fallback_tail (text r))
  end.

(** The form the service is sent, as the fields of the request give it:
    the five entries every job has, then the reference image if there is
    one, then the character entries that are present and not empty. *)
Definition job_form (request : CreateVideoRequest) (reference : FormData)
    : FormData :=
  [(lit "model", FText (model request));
   (lit "prompt", FText (prompt request));
   (lit "seconds", FText (num_to_string (duration request)));
   (lit "size", FText (match orientation request with
                       | landscape => lit "16x9"
                       | portrait => lit "9x16"
                       end));
   (lit "watermark", FText (lit "false"))]
  ++ reference
  ++ match character_url request with
     | Some u => match u with
                 | [] => []
                 | _ => [(lit "character_url", FText u)]
                 end
     | None => []
     end
  ++ match character_timestamps request with
     | Some t => match t with
                 | [] => []
                 | _ => [(lit "character_timestamps", FText t)]
                 end
     | None => []
     end.

(** The request that carries a form to the video endpoint. *)
Definition job_request (settings : ApiSettings) (form : FormData) : Request :=
  mkRequest
    (buildUrl (baseUrl settings) (lit "v1/videos"))
    (lit "POST")
    [(lit "Authorization", lit "Bearer " ++ apiKey settings);
     (lit "Accept", lit "application/json")]
    (FormBody form).

(** The same request without any image. *)
Definition without_images (request : CreateVideoRequest) : CreateVideoRequest :=
  mkCreateVideoRequest (model request) (prompt request) [] (orientation request)
    (duration request) (size request) (character_url request)
    (character_timestamps request).

(** The [catch] block of [createVideoTask]. *)
Definition create_catch (error : JsError) : io (json number) :=
  handleFetchError (Some error) None ;; throw error.

(** What a [catch] block that calls [handleFetchError(error)] throws. *)
Definition rethrown (e : JsError) : JsError :=
  if is_failed_to_fetch (Some e) then Error msg_network else e.

(** What [handleFetchError(null, response)] throws for a failed response. *)
Definition rejection_of (r : Response) : JsError :=
  if status r =? 404 then Error msg_404
  else match ToString (error_message_for r) with
       | Ok s => Error s
       | Throw e => e
       end.

(** How a JSON call ends, given what [fetch] gave. *)
Definition outcome_of (fetched : result Response) : result (json number) :=
  match fetched with
  | Throw e => Throw (rethrown e)
  | Ok r =>
    if ok r
    then match JSON_parse (text r) with
         | Ok j => Ok j
         | Throw e => Throw (rethrown e)
         end
    else Throw (rethrown (rejection_of r))
  end.

(** [data.choices?.[0]?.message?.content] *)
Definition completion_content (data : json number) : option (json number) :=
  get_opt (get_opt (get_opt_0 (get_opt (Some data) (lit "choices")))
                   (lit "message"))
          (lit "content").

End Vocabulary.

(** ** A host for the examples *)

(** JSON text written with single quotes in place of double quotes. *)
Definition dq (s : string) : jsstring :=
  map (fun c => if (c =? 39)%N then 34%N else c) (lit s).

Definition syntax_error : JsError :=
  mkError (lit "SyntaxError") (lit "Unexpected token in JSON").

Definition invalid_character : JsError :=
  mkError (lit "InvalidCharacterError")
          (lit "The string to be decoded is not correctly encoded.").

(** [String(v)] on integers, booleans, [null], arrays of these and plain
    objects. *)
Fixpoint sample_String (v : json Z) : jsstring :=
  match v with
  | JNull => lit "null"
  | JBool true => lit "true"
  | JBool false => lit "false"
  | JNum n => num_to_string n
  | JStr s => s
  | JArr items =>
    join (lit ",")
      (map (fun x => match x with JNull => [] | _ => sample_String x end) items)
  | JObj _ => lit "[object Object]"
  end.

(** A parser that knows the bodies of the examples. *)
Definition sample_parse (s : jsstring) : result (json Z) :=
  if str_eqb s (dq "{'error':{'message':'quota exceeded'}}")
  then Ok (JObj [(lit "error", JObj [(lit "message", JStr (lit "quota exceeded"))])])
  else if str_eqb s (dq "{'message':'bad model'}")
  then Ok (JObj [(lit "message", JStr (lit "bad model"))])
  else if str_eqb s (dq "{'id':'video_1','status':'pending'}")
  then Ok (JObj [(lit "id", JStr (lit "video_1"));
                 (lit "status", JStr (lit "pending"))])
  else if str_eqb s (lit "null") then Ok JNull
  else Throw syntax_error.

Definition sample_atob (s : jsstring) : result jsstring :=
  if str_eqb s (lit "aGk=") then Ok (lit "hi") else Throw invalid_character.

#[local] Instance sample_host : Host := {
  number := Z;
  number_truthy := fun n => negb (n =? 0);
  String_of := fun v => Ok (sample_String v);
  JSON_parse := sample_parse;
  JSON_stringify := fun _ => lit "{}";
  atob := sample_atob;
  null_access := fun k =>
    mkError (lit "TypeError")
            (lit "Cannot read properties of null (reading '" ++ k ++ lit "')")
}.

Definition sample_settings : ApiSettings :=
  mkSettings (lit "https://www.vivaapi.cn/") (lit "sk-test").

(** The service answers every request with HTTP 500 and an empty body. *)
Definition always_500 (_ : Request) : result Response :=
  Ok (mkResponse 500 []).

(** The network is down. *)
Definition unreachable (_ : Request) : result Response :=
  Throw failed_to_fetch.

(** The service accepts the job. *)
Definition accepts (_ : Request) : result Response :=
  Ok (mkResponse 200 (dq "{'id':'video_1','status':'pending'}")).

(** A request whose image is a data URL with a payload that is not base64. *)
Definition broken_image_request : CreateVideoRequest :=
  mkCreateVideoRequest (lit "sora-2") (lit "a cat")
    [lit "data:image/png;base64,@@@"] portrait 10 small None None.

Definition url_image_request : CreateVideoRequest :=
  mkCreateVideoRequest (lit "sora-2") (lit "a cat")
    [lit "https://x/cat.png"] landscape 15 small None None.

End ApiService.

(* ===================================================================== *)
(** * The task store ([App.tsx]) and the polling effect of [GalleryPanel]  *)
(* ===================================================================== *)

Module Gallery.

Inductive Status := pending | processing | completed | failed.

(** [interface VideoTask] *)
Record VideoTask := mkTask {
  id : jsstring;
  status : Status;
  prompt : jsstring;
  model : VideoModel;
  orientation : option VideoOrientation;
  createdAt : Z;
  completedAt : option Z;
  videoUrl : option jsstring;
  thumbnailUrl : option jsstring;
  progress : option Z;
  failureReason : option jsstring
}.

(** The [detail] object of [QueryVideoResponse]. *)
Record Detail := mkDetail {
  detail_status : jsstring;
  failure_reason : option jsstring;
  progress_pct : option Z;
  detail_video_url : option jsstring;
  thumbnail_url : option jsstring
}.

(** [interface QueryVideoResponse]; an absent or [null] [video_url] is
    [None]. *)
Record QueryVideoResponse := mkResponse {
  response_id : jsstring;
  response_status : jsstring;
  video_url : option jsstring;
  status_update_time : option Z;
  detail : option Detail
}.

(** ** The store *)

(** [handleTasksCreated]: new tasks are put in front, [pending], without
    completion time; [now] is [Date.now()]. *)
Definition new_task (prompt : jsstring) (model : VideoModel)
    (orientation : VideoOrientation) (now : Z) (i : jsstring) : VideoTask :=
  mkTask i pending prompt model (Some orientation) now None None None None None.

Definition handleTasksCreated (newIds : list jsstring) (prompt : jsstring)
    (model : VideoModel) (orientation : VideoOrientation) (now : Z)
    (tasks : list VideoTask) : list VideoTask :=
  map (new_task prompt model orientation now) newIds ++ tasks.

(** [handleUpdateTask]: replace by identifier. *)
Definition handleUpdateTask (updatedTask : VideoTask) (tasks : list VideoTask)
    : list VideoTask :=
  map (fun t => if str_eqb (id t) (id updatedTask) then updatedTask else t) tasks.

(** ** The body of the polling loop (lines 1126-1169) *)

Definition status_eqb (a b : Status) : bool :=
  match a, b with
  | pending, pending | processing, processing
  | completed, completed | failed, failed => true
  | _, _ => false
  end.

Definition opt_str_eqb (a b : option jsstring) : bool :=
  match a, b with
  | Some x, Some y => str_eqb x y
  | None, None => true
  | _, _ => false
  end.

Definition opt_num_eqb (a b : option Z) : bool :=
  match a, b with
  | Some x, Some y => x =? y
  | None, None => true
  | _, _ => false
  end.

(** [t.status === 'pending' || t.status === 'processing'] *)
Definition is_pending (t : VideoTask) : bool :=
  match status t with
  | pending | processing => true
  | completed | failed => false
  end.

(** [s === 'completed' || s === 'failed'] *)
Definition is_terminal (s : Status) : bool :=
  match s with
  | completed | failed => true
  | pending | processing => false
  end.

(** [a || b] where [a] is a string that may be absent. *)
Definition str_or (a b : option jsstring) : option jsstring :=
  match a with
  | Some s => if truthy_str s then Some s else b
  | None => b
  end.

(** [res.status || res.detail?.status] *)
Definition resStatus (res : QueryVideoResponse) : option jsstring :=
  str_or (Some (response_status res)) (option_map detail_status (detail res)).

(** [res.detail?.failure_reason] and its siblings. *)
Definition resFailureReason (res : QueryVideoResponse) : option jsstring :=
  match detail res with Some d => failure_reason d | None => None end.

Definition resProgress (res : QueryVideoResponse) : option Z :=
  match detail res with Some d => progress_pct d | None => None end.

Definition resVideoUrl (res : QueryVideoResponse) : option jsstring :=
  str_or (video_url res)
         (match detail res with Some d => detail_video_url d | None => None end).

Definition resThumbnailUrl (res : QueryVideoResponse) : option jsstring :=
  match detail res with Some d => thumbnail_url d | None => None end.

Definition updatedStatus (task : VideoTask) (res : QueryVideoResponse) : Status :=
  match resStatus res with
  | Some s =>
    if str_eqb s (lit "completed") then completed
    else if str_eqb s (lit "failed") then failed
    else if str_eqb s (lit "processing") then processing
    else status task
  | None => status task
  end.

(** [!task.completedAt]: absent, or zero. *)
Definition no_completedAt (task : VideoTask) : bool :=
  match completedAt task with
  | Some n => n =? 0
  | None => true
  end.

(** [res.status_update_time || Date.now()] *)
Definition completion_stamp (res : QueryVideoResponse) (now : Z) : Z :=
  match status_update_time res with
  | Some n => if n =? 0 then now else n
  | None => now
  end.

(** The record handed to [onUpdateTask], or [None] when the [if] skips the
    update. *)
Definition merge (task : VideoTask) (res : QueryVideoResponse) (now : Z)
    : option VideoTask :=
  let us := updatedStatus task res in
  if negb (status_eqb us (status task))
     || negb (opt_str_eqb (resVideoUrl res) (videoUrl task))
     || negb (opt_num_eqb (resProgress res) (progress task))
  then
    Some (mkTask (id task) us (prompt task) (model task) (orientation task)
            (createdAt task)
            (if is_terminal us && no_completedAt task
             then Some (completion_stamp res now)
             else completedAt task)
            (str_or (resVideoUrl res) None)
            (str_or (resThumbnailUrl res) None)
            (resProgress res)
            (resFailureReason res))
  else None.

(** ** One tick of the interval *)

(** The remote service and the clock during one tick: what
    [queryVideoTask] gives for the k-th task of the tick, and what
    [Date.now()] reads while that task is merged. *)
Record Env := mkEnv {
  answer : nat -> jsstring -> result QueryVideoResponse;
  clock : nat -> Z
}.

(** What a tick has done so far. *)
Record TickState := mkTick {
  store : list VideoTask;            (* the [tasks] state of [App] *)
  queried : list jsstring;           (* identifiers sent to [queryVideoTask] *)
  console : list LogEntry
}.

(** The [try] block for one task. *)
Definition poll_try (env : Env) (k : nat) (task : VideoTask) (st : TickState)
    : result TickState :=
  let st := mkTick (store st) (queried st ++ [id task]) (console st) in
  match answer env k (id task) with
  | Throw e => Throw e
  | Ok res =>
    match merge task res (clock env k) with
    | Some updated =>
      Ok (mkTick (handleUpdateTask updated (store st)) (queried st) (console st))
    | None => Ok st
    end
  end.

(** [try { ... } catch (e) { console.error(`Failed to poll task ...`, e) }]:
    a query that throws has been sent all the same. *)
Definition poll_task (env : Env) (k : nat) (task : VideoTask) (st : TickState)
    : result TickState :=
  match poll_try env k task st with
  | Ok st' => Ok st'
  | Throw e =>
    Ok (mkTick (store st) (queried st ++ [id task])
          (console st ++ [mkLog (lit "Failed to poll task " ++ id task) (Some e)]))
  end.

(** [for (const task of pendingTasks)] *)
Fixpoint poll_loop (env : Env) (k : nat) (snapshot : list VideoTask)
    (st : TickState) : result TickState :=
  match snapshot with
  | [] => Ok st
  | task :: rest =>
    match poll_task env k task st with
    | Ok st' => poll_loop env (S k) rest st'
    | Throw e => Throw e
    end
  end.

Definition pendingTasks (tasks : list VideoTask) : list VideoTask :=
  filter is_pending tasks.

(** The interval callback when it runs alone: it starts on [tasks], which
    is then what its effect captured, and nothing else changes the store
    before it ends.  Callbacks that overlap are [poll_run] below. *)
Definition tick (env : Env) (tasks : list VideoTask) : result TickState :=
  poll_loop env 0 (pendingTasks tasks) (mkTick tasks [] []).

(** ** Successive ticks, one at a time *)

(** The store a tick that ran alone leaves behind; the next effect captures
    it. *)
Definition store_after (env : Env) (tasks : list VideoTask) : list VideoTask :=
  match tick env tasks with
  | Ok st => store st
  | Throw _ => tasks
  end.

Definition queries_of (env : Env) (tasks : list VideoTask) : list jsstring :=
  match tick env tasks with
  | Ok st => queried st
  | Throw _ => []
  end.

(** The store after the ticks [envs], oldest first, when each has ended
    before the next starts. *)
Definition store_after_ticks (envs : list Env) (tasks : list VideoTask)
    : list VideoTask :=
  fold_left (fun s env => store_after env s) envs tasks.

(** ** Callbacks under way at the same time *)

(** The interval callback is [async]: it is suspended at each
    [await queryVideoTask(...)], and the timer fires again every four
    seconds whether or not an earlier callback has ended; [clearInterval]
    stops the timer, not a callback under way.  A callback works through
    the [pendingTasks] its effect captured and merges each answer into the
    task record it captured, whatever the store holds by then. *)

(** A callback under way: the captured records it has yet to poll (it is
    awaiting the answer for the first) and how many it has polled. *)
Record Callback := mkCallback {
  cb_env : Env;
  cb_k : nat;
  cb_todo : list VideoTask
}.

Record World := mkWorld {
  w_store : list VideoTask;          (* the [tasks] state of [App] *)
  w_sent : list jsstring;            (* status queries sent, oldest first *)
  w_console : list LogEntry;
  w_inflight : list Callback
}.

Definition world_of (tasks : list VideoTask) : World := mkWorld tasks [] [] [].

Inductive PollEvent :=
| Fire (env : Env)      (* the timer fires: a callback starts *)
| Arrive (n : nat).     (* the answer the n-th callback under way awaits *)

(** The timer fires.  Every change of the store runs the effect again, so
    the timer that fires is the one set on the store as it is; with no
    pending task the effect has set none.  The callback sends its first
    query at once. *)
Definition fire (env : Env) (w : World) : World :=
  match pendingTasks (w_store w) with
  | [] => w
  | task :: rest =>
    mkWorld (w_store w) (w_sent w ++ [id task]) (w_console w)
            (w_inflight w ++ [mkCallback env 0 (task :: rest)])
  end.

(** The callbacks under way with the n-th replaced by [put]. *)
Definition put_callback (n : nat) (put : list Callback) (cbs : list Callback)
    : list Callback :=
  firstn n cbs ++ put ++ skipn (S n) cbs.

(** An answer arrives: the callback runs the body of its [try] on the
    record it captured, then sends the query for its next task or ends. *)
Definition arrive (n : nat) (w : World) : World :=
  match nth_error (w_inflight w) n with
  | Some cb =>
    match cb_todo cb with
    | task :: rest =>
      match poll_task (cb_env cb) (cb_k cb) task
              (mkTick (w_store w) [] (w_console w)) with
      | Ok st =>
        mkWorld (store st)
          (w_sent w ++ match rest with
                       | next :: _ => [id next]
                       | [] => []
                       end)
          (console st)
          (put_callback n
             match rest with
             | _ :: _ => [mkCallback (cb_env cb) (S (cb_k cb)) rest]
             | [] => []
             end
             (w_inflight w))
      | Throw _ => w
      end
    | [] => w
    end
  | None => w
  end.

Definition poll_step (w : World) (e : PollEvent) : World :=
  match e with
  | Fire env => fire env w
  | Arrive n => arrive n w
  end.

Definition poll_run (w : World) (events : list PollEvent) : World :=
  fold_left poll_step events w.

(** Ticks that do not overlap: each callback gets its answers before the
    timer fires again; [n] is an upper bound on the tasks of a tick. *)
Definition one_at_a_time (n : nat) (envs : list Env) : list PollEvent :=
  flat_map (fun env => Fire env :: repeat (Arrive 0) n) envs.

(** ** Vocabulary of the properties *)

(** The store a poll of the captured record [task] leaves. *)
Definition poll_store (env : Env) (k : nat) (task : VideoTask)
    (tasks : list VideoTask) : list VideoTask :=
  match answer env k (id task) with
  | Ok res =>
    match merge task res (clock env k) with
    | Some updated => handleUpdateTask updated tasks
    | None => tasks
    end
  | Throw _ => tasks
  end.

(** The store a callback leaves that polls the captured records [todo]
    with nothing else happening in between. *)
Fixpoint poll_stores (env : Env) (k : nat) (todo : list VideoTask)
    (tasks : list VideoTask) : list VideoTask :=
  match todo with
  | [] => tasks
  | task :: rest => poll_stores env (S k) rest (poll_store env k task tasks)
  end.

(** The queries of successive ticks that run one at a time. *)
Fixpoint queries_of_ticks (envs : list Env) (tasks : list VideoTask)
    : list jsstring :=
  match envs with
  | [] => []
  | env :: rest =>
    queries_of env tasks ++ queries_of_ticks rest (store_after env tasks)
  end.

(** The environments of the callbacks an event list starts. *)
Fixpoint fired (events : list PollEvent) : list Env :=
  match events with
  | [] => []
  | Fire env :: rest => env :: fired rest
  | Arrive _ :: rest => fired rest
  end.

(** Every record carrying [i] has a terminal status. *)
Definition settled_in (i : jsstring) (tasks : list VideoTask) : Prop :=
  forall t, In t tasks -> id t = i -> is_pending t = false.

(** What a merge never changes in a record. *)
Definition same_request (t t' : VideoTask) : Prop :=
  id t' = id t /\ prompt t' = prompt t /\ model t' = model t
  /\ orientation t' = orientation t /\ createdAt t' = createdAt t.

(** What ticks that run one at a time leave of a completion time: one that
    is set is kept, none is set while the task is pending, and a task in a
    terminal status is left as it is. *)
Definition stamp_kept (t t' : VideoTask) : Prop :=
  (no_completedAt t = false -> completedAt t' = completedAt t)
  /\ (is_pending t' = true -> completedAt t' = completedAt t)
  /\ (is_pending t = false -> t' = t).

(** What one tick that runs alone does to one record that shares its
    identifier with no other, and what successive such ticks do: the
    record is polled while it is pending, and the answer is merged into
    the record as the store holds it. *)
Definition observe (task : VideoTask) (input : result QueryVideoResponse * Z)
    : VideoTask :=
  if is_pending task
  then match fst input with
       | Ok res =>
         match merge task res (snd input) with
         | Some updated => updated
         | None => task
         end
       | Throw _ => task
       end
  else task.

(** A tick seen record by record: the k-th pending record of the list is
    observed with the k-th answer and clock reading of the tick. *)
Fixpoint observe_each (env : Env) (k : nat) (tasks : list VideoTask)
    : list VideoTask :=
  match tasks with
  | [] => []
  | t :: rest =>
    if is_pending t
    then observe t (answer env k (id t), clock env k)
         :: observe_each env (S k) rest
    else t :: observe_each env k rest
  end.

Definition observe_all (task : VideoTask)
    (inputs : list (result QueryVideoResponse * Z)) : VideoTask :=
  fold_left observe inputs task.

(** In a store with distinct identifiers: how many pending records a tick
    polls before it reaches the record carrying [i], and so which answer
    and clock reading of the tick that record gets. *)
Fixpoint rank_of (i : jsstring) (tasks : list VideoTask) : nat :=
  match tasks with
  | [] => 0
  | t :: rest =>
    if str_eqb (id t) i then 0
    else (if is_pending t then 1 else 0) + rank_of i rest
  end.

Definition input_at (env : Env) (i : jsstring) (tasks : list VideoTask)
    : result QueryVideoResponse * Z :=
  (answer env (rank_of i tasks) i, clock env (rank_of i tasks)).

(** What successive ticks that run one at a time hold for the record
    carrying [i]. *)
Fixpoint inputs_for (i : jsstring) (envs : list Env) (tasks : list VideoTask)
    : list (result QueryVideoResponse * Z) :=
  match envs with
  | [] => []
  | env :: rest =>
    input_at env i tasks :: inputs_for i rest (store_after env tasks)
  end.

(** The response announces a terminal status. *)
Definition announces_terminal (res : QueryVideoResponse) : bool :=
  match resStatus res with
  | Some s => str_eqb s (lit "completed") || str_eqb s (lit "failed")
  | None => false
  end.

(** The first answer of a sequence that announces a terminal status. *)
Fixpoint first_terminal (inputs : list (result QueryVideoResponse * Z))
    : option (QueryVideoResponse * Z) :=
  match inputs with
  | [] => None
  | (Ok res, now) :: rest =>
    if announces_terminal res then Some (res, now) else first_terminal rest
  | (Throw _, _) :: rest => first_terminal rest
  end.

(** The environment of a one-record store fed with [input]. *)
Definition env_of (input : result QueryVideoResponse * Z) : Env :=
  mkEnv (fun _ _ => fst input) (fun _ => snd input).

(** No answer for [i] in this tick announces a terminal status. *)
Definition never_terminal (env : Env) (i : jsstring) : Prop :=
  forall k, match answer env k i with
            | Ok res => announces_terminal res = false
            | Throw _ => True
            end.

(** Some record of the store carries [i] and is pending. *)
Definition pending_in (i : jsstring) (tasks : list VideoTask) : Prop :=
  exists t, In t tasks /\ id t = i /\ is_pending t = true.

(** ** Sample inputs *)

(** [{id, status: "completed", video_url}], without [status_update_time]. *)
Definition completed_unstamped : QueryVideoResponse :=
  mkResponse (lit "video_1") (lit "completed") (Some (lit "https://x/y.mp4"))
             None None.

(** Two tasks waiting. *)
Definition two_pending : list VideoTask :=
  [new_task (lit "a cat") SORA_2 portrait 1700000000000 (lit "video_1");
   new_task (lit "a cat") SORA_2 portrait 1700000000000 (lit "video_2")].

(** Two callbacks under way for two tasks: the timer fires twice before
    the first answer has come; the second callback gets both its answers,
    then the first callback gets its first answer and goes on to its
    second task. *)
Definition overtaken_tick (res : QueryVideoResponse) : list PollEvent :=
  [Fire (mkEnv (fun _ _ => Ok res) (fun _ => 1700000209000));
   Fire (mkEnv (fun _ _ => Ok res) (fun _ => 1700000208000));
   Arrive 1;
   Arrive 1;
   Arrive 0].

(** Two callbacks under way for the same task: the timer fires twice
    before the first answer has come; the second callback is answered
    first, the first a second later. *)
Definition overlapping_ticks (res : QueryVideoResponse) : list PollEvent :=
  [Fire (mkEnv (fun _ _ => Ok res) (fun _ => 1700000209000));
   Fire (mkEnv (fun _ _ => Ok res) (fun _ => 1700000208000));
   Arrive 1;
   Arrive 0].

Definition sample_task : VideoTask :=
  new_task (lit "a cat") SORA_2 portrait 1700000000000 (lit "video_1").

(** [{id, status: "completed", video_url, status_update_time: 0}] *)
Definition completed_at_zero : QueryVideoResponse :=
  mkResponse (lit "video_1") (lit "completed") (Some (lit "https://x/y.mp4"))
             (Some 0) None.

(** [{id, status: "completed", video_url, status_update_time: 1700000100}] *)
Definition completed_response : QueryVideoResponse :=
  mkResponse (lit "video_1") (lit "completed") (Some (lit "https://x/y.mp4"))
             (Some 1700000100) None.

(** [{id, status: "processing", detail: {status: "processing", progress_pct: 40}}] *)
Definition processing_response : QueryVideoResponse :=
  mkResponse (lit "video_1") (lit "processing") None None
             (Some (mkDetail (lit "processing") None (Some 40) None None)).

Definition network_error : JsError :=
  mkError (lit "TypeError") (lit "NetworkError when attempting to fetch resource.").

(** The service cannot be reached. *)
Definition offline : Env :=
  mkEnv (fun _ _ => Throw network_error) (fun _ => 1700000200000).

(** The service answers that the job is still being processed. *)
Definition busy : Env :=
  mkEnv (fun _ _ => Ok processing_response) (fun _ => 1700000204000).

Definition sample_answers : list (result QueryVideoResponse * Z) :=
  [(Throw network_error, 1700000200000);
   (Ok processing_response, 1700000204000);
   (Ok completed_response, 1700000208000);
   (Ok completed_at_zero, 1700000212000)].

End Gallery.
(* ===================================================================== *)
(** * The rest of [App.tsx] and of [GalleryPanel]                         *)
(* ===================================================================== *)

Module App.

Import Gallery.

(** [ids.includes(x)] *)
Definition ids_include (ids : list jsstring) (x : jsstring) : bool :=
  existsb (fun i => str_eqb i x) ids.

(** [handleDeleteTasks] *)
Definition handleDeleteTasks (ids : list jsstring) (tasks : list VideoTask)
    : list VideoTask :=
  filter (fun t => negb (ids_include ids (id t))) tasks.

(** [interface CreateCharacterResponse] *)
Record Character := mkCharacter {
  character_id : jsstring;
  username : jsstring;
  permalink : jsstring;
  profile_picture_url : jsstring;
  profile_desc : option jsstring
}.

(** [handleSaveCharacter] *)
Definition handleSaveCharacter (char : Character) (prev : list Character)
    : list Character :=
  if existsb (fun c => str_eqb (character_id c) (character_id char)) prev
  then prev
  else char :: prev.

(** ** The card of a task ([VideoCard], lines 1323-1326) *)

(** A number is truthy unless it is zero. *)
Definition truthy_num (n : Z) : bool := negb (n =? 0).

(** [generationDuration]: [None] is [null].  On integers
    [Math.floor(x / 1000)] is the floor division. *)
Definition generationDuration (task : VideoTask) : option Z :=
  match completedAt task with
  | Some c =>
    if truthy_num c && truthy_num (createdAt task)
    then Some (Math_max 0 ((c - createdAt task) / 1000))
    else None
  | None => None
  end.

(** ** Selection in the gallery (lines 1174-1212) *)

(** A [Set<string>]: its elements in insertion order, without repetition. *)
Definition StringSet := list jsstring.

Definition set_has (s : StringSet) (x : jsstring) : bool :=
  existsb (fun y => str_eqb y x) s.

Definition set_add (s : StringSet) (x : jsstring) : StringSet :=
  if set_has s x then s else s ++ [x].

Definition set_delete (s : StringSet) (x : jsstring) : StringSet :=
  filter (fun y => negb (str_eqb y x)) s.

(** [new Set(xs)] *)
Definition set_of (xs : list jsstring) : StringSet :=
  fold_left set_add xs [].

(** The gallery: the task list it is given and its own selection state. *)
Record GalleryState := mkGallery {
  tasks : list VideoTask;
  selectedIds : StringSet;
  isSelectionMode : bool
}.

Definition handleToggleSelect (i : jsstring) (g : GalleryState) : GalleryState :=
  let newSelected :=
    if set_has (selectedIds g) i
    then set_delete (selectedIds g) i
    else set_add (selectedIds g) i in
  mkGallery (tasks g) newSelected
    (if (0 <? List.length newSelected)%nat && negb (isSelectionMode g) then true
     else if (List.length newSelected =? 0)%nat then false
     else isSelectionMode g).

Definition handleSelectAll (g : GalleryState) : GalleryState :=
  if (List.length (selectedIds g) =? List.length (tasks g))%nat
  then mkGallery (tasks g) [] false
  else mkGallery (tasks g) (set_of (map id (tasks g))) true.

Definition handleDeleteSelected (g : GalleryState) : GalleryState :=
  mkGallery (handleDeleteTasks (selectedIds g) (tasks g)) [] false.

Definition handleDeleteSingle (i : jsstring) (g : GalleryState) : GalleryState :=
  mkGallery (handleDeleteTasks [i] (tasks g))
    (if set_has (selectedIds g) i
     then set_delete (selectedIds g) i
     else selectedIds g)
    (isSelectionMode g).

(** What happens to the gallery: the user's clicks on a card that is
    shown, new tasks from the create panel, and polling ticks. *)
Inductive GalleryEvent :=
| EvToggle (i : jsstring)
| EvSelectAll
| EvDeleteSelected
| EvDeleteSingle (i : jsstring)
| EvCreated (newIds : list jsstring) (prompt : jsstring) (model : VideoModel)
            (orientation : VideoOrientation) (now : Z)
| EvTick (env : Env).

Definition gallery_step (g : GalleryState) (e : GalleryEvent) : GalleryState :=
  match e with
  | EvToggle i => handleToggleSelect i g
  | EvSelectAll => handleSelectAll g
  | EvDeleteSelected => handleDeleteSelected g
  | EvDeleteSingle i => handleDeleteSingle i g
  | EvCreated newIds p m o now =>
      mkGallery (handleTasksCreated newIds p m o now (tasks g))
                (selectedIds g) (isSelectionMode g)
  | EvTick env =>
      mkGallery (store_after env (tasks g)) (selectedIds g) (isSelectionMode g)
  end.

(** A card can only be clicked while its task is in the list. *)
Fixpoint clicks_on_cards (g : GalleryState) (events : list GalleryEvent) : Prop :=
  match events with
  | [] => True
  | e :: rest =>
    match e with
    | EvToggle i | EvDeleteSingle i => In i (map id (tasks g))
    | _ => True
    end /\ clicks_on_cards (gallery_step g e) rest
  end.

Definition gallery_run (g : GalleryState) (events : list GalleryEvent)
    : GalleryState :=
  fold_left gallery_step events g.

Definition empty_gallery : GalleryState := mkGallery [] [] false.

(** ** Vocabulary of the properties *)

(** Every selected identifier is the identifier of a task on show, and no
    identifier is selected twice. *)
Definition selection_shown (g : GalleryState) : Prop :=
  (forall x, In x (selectedIds g) -> In x (map id (tasks g)))
  /\ NoDup (selectedIds g).

(** What polling leaves of a record [t] in the record [t'] that takes its
    place: who it is and what was asked for; and all of it once the task
    has reached a terminal status. *)
Definition kept (t t' : VideoTask) : Prop :=
  id t' = id t /\ prompt t' = prompt t /\ model t' = model t
  /\ orientation t' = orientation t /\ createdAt t' = createdAt t
  /\ (is_pending t = false -> t' = t).

(** ** Sample inputs *)

Definition sample_gallery_session : list GalleryEvent :=
  [EvCreated [lit "video_1"; lit "video_2"] (lit "a cat") SORA_2 portrait
             1700000000000;
   EvToggle (lit "video_2");
   EvTick busy;
   EvDeleteSingle (lit "video_2");
   EvSelectAll].

Definition finished_task : VideoTask :=
  mkTask (lit "video_1") completed (lit "a cat") SORA_2 (Some portrait)
         1700000000000 (Some 1700000042500) (Some (lit "https://x/y.mp4"))
         None (Some 100) None.

(** A finished task and a new one in front of it. *)
Definition two_tasks : list VideoTask :=
  handleTasksCreated [lit "video_2"] (lit "a dog") SORA_2 landscape
    1700000300000 [finished_task].

Definition sample_character : Character :=
  mkCharacter (lit "ch_1") (lit "tabby") (lit "https://x/ch_1")
    (lit "https://x/ch_1.png") None.

(** The same identifier with another user name. *)
Definition renamed_character : Character :=
  mkCharacter (lit "ch_1") (lit "tiger") (lit "https://x/ch_1")
    (lit "https://x/ch_1.png") None.

End App.

(* ===================================================================== *)
(** * The rest of [CreatePanel]: parameters, characters, generation       *)
(* ===================================================================== *)

Module CreatePanel.

Import Storyboard.

(** ** Model constraints (lines 87-101) and the parameter buttons *)

(** The [model], [duration] and [size] states. *)
Record Params := mkParams {
  p_model : VideoModel;
  p_duration : Z;
  p_size : VideoSize
}.

(** One run of the "Model constraints logic" effect: the tests read the
    values of the render, the setters take effect afterwards. *)
Definition modelConstraintsEffect (p : Params) : Params :=
  match p_model p with
  | SORA_2 | SORA_2_CHARACTERS =>
    mkParams (p_model p)
             (if p_duration p =? 25 then 15 else p_duration p)
             small
  | SORA_2_PRO =>
    mkParams (p_model p)
             (if p_duration p =? 10 then 15 else p_duration p)
             (if p_duration p =? 25 then small
              else if p_duration p =? 15 then large
              else p_size p)
  end.

(** The effect depends on [model] and [duration]: it runs again when its
    own [setDuration] changed the duration. *)
Definition settleConstraints (p : Params) : Params :=
  let p1 := modelConstraintsEffect p in
  if p_duration p1 =? p_duration p then p1 else modelConstraintsEffect p1.

(** [isDisabled] of a duration button (lines 946-948). *)
Definition duration_disabled (m : VideoModel) (d : Z) : bool :=
  match m with
  | SORA_2 => d =? 25
  | SORA_2_PRO => d =? 10
  | SORA_2_CHARACTERS => false
  end.

(** [isDisabled] of a size button (lines 972-975). *)
Definition size_disabled (m : VideoModel) (duration : Z) (s : VideoSize) : bool :=
  match m, s with
  | SORA_2, large => true
  | SORA_2_PRO, large => duration =? 25
  | SORA_2_PRO, small => duration =? 15
  | _, _ => false
  end.

Inductive ParamEvent :=
| SelectModel (m : VideoModel)
| SelectDuration (d : Z)
| SelectSize (s : VideoSize).

Definition model_eqb (a b : VideoModel) : bool :=
  match a, b with
  | SORA_2, SORA_2 | SORA_2_PRO, SORA_2_PRO
  | SORA_2_CHARACTERS, SORA_2_CHARACTERS => true
  | _, _ => false
  end.

(** A setter called with the value the state has already causes no render
    and so no effect. *)
Definition param_step (p : Params) (e : ParamEvent) : Params :=
  match e with
  | SelectModel m =>
    if model_eqb m (p_model p) then p
    else settleConstraints (mkParams m (p_duration p) (p_size p))
  | SelectDuration d =>
    if d =? p_duration p then p
    else settleConstraints (mkParams (p_model p) d (p_size p))
  | SelectSize s => mkParams (p_model p) (p_duration p) s
  end.

(** The duration buttons are 10, 15 and 25; a disabled button cannot be
    clicked, and the parameter grid is hidden for character creation. *)
Definition clickable (p : Params) (e : ParamEvent) : Prop :=
  match e with
  | SelectModel _ => True
  | SelectDuration d =>
      (d = 10 \/ d = 15 \/ d = 25)
      /\ duration_disabled (p_model p) d = false
      /\ p_model p <> SORA_2_CHARACTERS
  | SelectSize s =>
      size_disabled (p_model p) (p_duration p) s = false
      /\ p_model p <> SORA_2_CHARACTERS
  end.

Fixpoint clickable_all (p : Params) (events : list ParamEvent) : Prop :=
  match events with
  | [] => True
  | e :: rest => clickable p e /\ clickable_all (param_step p e) rest
  end.

Definition param_run (p : Params) (events : list ParamEvent) : Params :=
  fold_left param_step events p.

(** [useState] initial values. *)
Definition initial_params : Params := mkParams SORA_2 10 small.

(** ** The clip of a character video (lines 45-46, 150-155, 880-905) *)

Record Clip := mkClip {
  startTime : Z;
  endTime : Z
}.

Definition initial_clip : Clip := mkClip 1 3.

(** "Update endTime when startTime changes to maintain valid range" *)
Definition endTimeEffect (c : Clip) : Clip :=
  if (endTime c <=? startTime c) || (endTime c >? startTime c + 3)
  then mkClip (startTime c) (startTime c + 1)
  else c.

Inductive ClipEvent :=
| SelectStart (s : Z)
| SelectEnd (e : Z).

Definition clip_step (c : Clip) (e : ClipEvent) : Clip :=
  match e with
  | SelectStart s =>
    if s =? startTime c then c else endTimeEffect (mkClip s (endTime c))
  | SelectEnd e => mkClip (startTime c) e
  end.

(** The start-time menu offers 0 to 7, the end-time menu start + 1,
    start + 2 and start + 3. *)
Definition offered (c : Clip) (e : ClipEvent) : Prop :=
  match e with
  | SelectStart s => 0 <= s <= 7
  | SelectEnd e =>
      e = startTime c + 1 \/ e = startTime c + 2 \/ e = startTime c + 3
  end.

Fixpoint offered_all (c : Clip) (events : list ClipEvent) : Prop :=
  match events with
  | [] => True
  | e :: rest => offered c e /\ offered_all (clip_step c e) rest
  end.

Definition clip_run (c : Clip) (events : list ClipEvent) : Clip :=
  fold_left clip_step events c.

(** ** The batch count input (line 1016) *)

Section BatchCount.

Variable parseInt : jsstring -> option Z.

(** [Math.min(10, Math.max(1, parseInt(value) || 1))] *)
Definition batchCountOf (value : jsstring) : Z :=
  Math_min 10
    (Math_max 1 (match parseInt value with
                 | Some n => if n =? 0 then 1 else n
                 | None => 1
                 end)).

End BatchCount.

(** ** The panel state read by [handleUseCharacter] and [handleGenerate] *)

Inductive GenerationMode := gen_text | gen_image.

Record Panel := mkPanel {
  settings : ApiSettings;
  isGenerating : bool;
  mode : GenerationMode;
  model : VideoModel;
  prompt : jsstring;
  initialPrompt : option jsstring;     (* [initialState?.prompt] *)
  characterUrl : jsstring;
  imageUrl : jsstring;
  clip : Clip;
  size : VideoSize;
  orientation : VideoOrientation;
  batchCount : Z;
  storyboard : State                   (* with [duration] and [error] *)
}.

Definition with_prompt (s : jsstring) (p : Panel) : Panel :=
  mkPanel (settings p) (isGenerating p) (mode p) (model p) s (initialPrompt p)
    (characterUrl p) (imageUrl p) (clip p) (size p) (orientation p)
    (batchCount p) (storyboard p).

Definition with_model (m : VideoModel) (p : Panel) : Panel :=
  mkPanel (settings p) (isGenerating p) (mode p) m (prompt p) (initialPrompt p)
    (characterUrl p) (imageUrl p) (clip p) (size p) (orientation p)
    (batchCount p) (storyboard p).

Definition with_storyboard (st : State) (p : Panel) : Panel :=
  mkPanel (settings p) (isGenerating p) (mode p) (model p) (prompt p)
    (initialPrompt p) (characterUrl p) (imageUrl p) (clip p) (size p)
    (orientation p) (batchCount p) st.

(** ** Using a saved character (lines 213-237) *)

(** [` @${char.username} `] *)
Definition mention (username : jsstring) : jsstring :=
  lit " @" ++ username ++ lit " ".

(** The updater given to [setPrompt]. *)
Definition appendMention (username prev : jsstring) : jsstring :=
  let suffix := mention username in
  if negb (includes prev (trim suffix)) then prev ++ suffix else prev.

Section UseCharacter.

Variable parseInt : jsstring -> option Z.

(** [None]: the handler throws, reading the last segment of an empty
    list. *)
Definition handleUseCharacter (username : jsstring) (p : Panel) : option Panel :=
  let p1 := match model p with
            | SORA_2_CHARACTERS => with_model SORA_2 p
            | _ => p
            end in
  let st := storyboard p1 in
  if isStoryboardMode st
  then
    match storyboardView st with
    | preview =>
      Some (with_storyboard
              (set_preview (previewPrompt st ++ mention username) st) p1)
    | edit =>
      match nth_error (storyboardSegments st)
                      (List.length (storyboardSegments st) - 1) with
      | Some last =>
        Some (with_storyboard
                (updateSegment parseInt (id last) F_description
                   (description last ++ mention username) st) p1)
      | None => None
      end
    end
  else Some (with_prompt (appendMention username (prompt p1)) p1).

End UseCharacter.

(** ** Generation (lines 301-413) *)

(** [s.replace(/\n\n/g, '; ')] *)
Fixpoint replace_blank_lines (s : jsstring) : jsstring :=
  match s with
  | c1 :: ((c2 :: r) as t) =>
    if ((c1 =? 10) && (c2 =? 10))%N
    then lit "; " ++ replace_blank_lines r
    else c1 :: replace_blank_lines t
  | _ => s
  end.

(** [s.replace(/\n/g, ' ')] *)
Definition replace_newlines (s : jsstring) : jsstring :=
  map (fun c => if (c =? 10)%N then 32%N else c) s.

(** The [map] callback of the edit-view fallback, with its colon. *)
Fixpoint promptParts (currentTime : Z) (segs : list StoryboardSegment)
    : list jsstring :=
  match segs with
  | [] => []
  | seg :: rest =>
    let start := currentTime in
    let end_ := currentTime + duration seg in
    (lit "[" ++ num_to_string start ++ lit "s-" ++ num_to_string end_
     ++ lit "s]: " ++ description seg)
    :: promptParts end_ rest
  end.

(** The value of a [VideoModel] member. *)
Definition model_name (m : VideoModel) : jsstring :=
  match m with
  | SORA_2 => lit "sora-2"
  | SORA_2_PRO => lit "sora-2-pro"
  | SORA_2_CHARACTERS => lit "sora-2-characters"
  end.

Definition is_characters (m : VideoModel) : bool :=
  match m with SORA_2_CHARACTERS => true | _ => false end.

Definition is_image (m : GenerationMode) : bool :=
  match m with gen_image => true | gen_text => false end.

(** What the first half of [handleGenerate] decides. *)
Inductive Decision :=
| OpenSettings
| Ignored
| Rejected (msg : jsstring)
| SubmitCharacter (payload : ApiService.CreateCharacterRequest)
| SubmitVideos (request : ApiService.CreateVideoRequest) (currentPrompt : jsstring).

(** [prompt || (isAuto && initialState?.prompt ? initialState.prompt : '')] *)
Definition startingPrompt (isAuto : bool) (p : Panel) : jsstring :=
  if truthy_str (prompt p) then prompt p
  else match initialPrompt p with
       | Some ip => if isAuto && truthy_str ip then ip else []
       | None => []
       end.

(** The prompt of a video request, or the message of [setError]. *)
Definition videoPrompt (isAuto : bool) (p : Panel) : jsstring + jsstring :=
  let st := storyboard p in
  if isStoryboardMode st
  then
    match storyboardView st with
    | preview =>
      if negb (truthy_str (trim (previewPrompt st)))
      then inl (lit "分镜内容不能为空")
      else inr (replace_newlines (replace_blank_lines (previewPrompt st)))
    | edit =>
      if negb (totalSegmentDuration st =? targetDuration st)
      then inl (err_total_mismatch (totalSegmentDuration st) (targetDuration st))
      else if existsb (fun s => negb (truthy_str (trim (description s))))
                      (storyboardSegments st)
      then inl err_missing_description
      else inr (join (lit "; ") (promptParts 0 (storyboardSegments st)))
    end
  else
    if negb (truthy_str (trim (startingPrompt isAuto p)))
    then inl (lit "请输入提示词")
    else inr (startingPrompt isAuto p).

Definition decide (isAuto : bool) (p : Panel) : Decision :=
  if negb (truthy_str (apiKey (settings p))) then OpenSettings
  else if isGenerating p then Ignored
  else if is_characters (model p)
  then
    if negb (truthy_str (characterUrl p))
    then Rejected (lit "请输入角色视频 URL")
    else SubmitCharacter
           (ApiService.mkCreateCharacterRequest
              (trim (characterUrl p))
              (num_to_string (startTime (clip p)) ++ lit ","
               ++ num_to_string (endTime (clip p))))
  else
    match videoPrompt isAuto p with
    | inl msg => Rejected msg
    | inr currentPrompt =>
      if is_image (mode p) && negb (truthy_str (imageUrl p))
      then Rejected (lit "请上传参考图片")
      else
        SubmitVideos
          (ApiService.mkCreateVideoRequest
             (model_name (model p))
             (trim currentPrompt)
             (if is_image (mode p) && truthy_str (imageUrl p)
              then [imageUrl p] else [])
             (orientation p)
             (targetDuration (storyboard p))
             (size p)
             None None)
          currentPrompt
    end.

Section Run.

Context {host : ApiService.Host}.

(** The network during one action: what the k-th [fetch] gives. *)
Variable fetch : nat -> ApiService.Request -> result ApiService.Response.

(** The sequential batch loop; [i] counts the submissions made. *)
Fixpoint submit_batch (request : ApiService.CreateVideoRequest)
    (s : ApiSettings) (i remaining : nat)
    (taskIds : list (@ApiService.jsval host))
    : io (list (@ApiService.jsval host)) :=
  match remaining with
  | O => ret taskIds
  | S remaining' =>
    res <- ApiService.createVideoTask (fetch i) request s ;;
    i_d <- lift (ApiService.get res (lit "id")) ;;
    submit_batch request s (S i) remaining' (taskIds ++ [i_d])
  end.

(** What [handleGenerate] leaves behind. *)
Inductive Outcome :=
| SettingsOpened
| NothingDone
| ErrorSet (msg : jsstring)
| CharacterCreated (response : ApiService.json ApiService.number)
| TasksCreated (taskIds : list (@ApiService.jsval host)) (prompt : jsstring)
               (m : VideoModel) (o : VideoOrientation).

(** [err.message || fallback] *)
Definition error_text (err : JsError) (fallback : jsstring) : jsstring :=
  if truthy_str (message err) then message err else fallback.

Definition handleGenerate (isAuto : bool) (p : Panel) : io Outcome :=
  match decide isAuto p with
  | OpenSettings => ret SettingsOpened
  | Ignored => ret NothingDone
  | Rejected msg => ret (ErrorSet msg)
  | SubmitCharacter payload =>
    try_catch
      (response <- ApiService.createCharacter (fetch 0) payload (settings p) ;;
       ret (CharacterCreated response))
      (fun err =>
         console_error [] (Some err) ;;
         ret (ErrorSet (error_text err (lit "创建角色失败"))))
  | SubmitVideos request currentPrompt =>
    try_catch
      (taskIds <- submit_batch request (settings p) 0
                    (Z.to_nat (batchCount p)) [] ;;
       ret (TasksCreated taskIds currentPrompt (model p) (orientation p)))
      (fun err =>
         console_error [] (Some err) ;;
         ret (ErrorSet (error_text err (lit "生成视频失败"))))
  end.

End Run.

(** ** Vocabulary of the properties *)

(** No line feed in the text. *)
Definition single_line (s : jsstring) : Prop := ~ In 10%N s.

(** The parameters show no disabled option as selected. *)
Definition selectable (p : Params) : Prop :=
  (p_duration p = 10 \/ p_duration p = 15 \/ p_duration p = 25)
  /\ duration_disabled (p_model p) (p_duration p) = false
  /\ size_disabled (p_model p) (p_duration p) (p_size p) = false.

(** The clip starts within the first eight seconds and lasts one to
    three seconds. *)
Definition clip_ok (c : Clip) : Prop :=
  0 <= startTime c <= 7 /\ startTime c < endTime c <= startTime c + 3.

(** ** Sample inputs *)

Definition sample_param_events : list ParamEvent :=
  [SelectDuration 15; SelectModel SORA_2_PRO; SelectDuration 25;
   SelectModel SORA_2; SelectSize small].

Definition sample_clip_events : list ClipEvent :=
  [SelectStart 5; SelectEnd 8; SelectStart 7; SelectStart 0].

Definition sample_panel : Panel :=
  mkPanel (mkSettings (lit "https://www.vivaapi.cn") (lit "sk-test")) false
    gen_text SORA_2 (lit "a cat") None [] [] initial_clip small portrait 3
    initial_state.

(** The first submission is accepted, the second is answered with HTTP
    500. *)
Definition second_fails (k : nat) (_ : ApiService.Request)
    : result ApiService.Response :=
  match k with
  | O => Ok (ApiService.mkResponse 200
               (ApiService.dq "{'id':'video_1','status':'pending'}"))
  | _ => Ok (ApiService.mkResponse 500 [])
  end.

End CreatePanel.

(* ===================================================================== *)
(** * Properties                                                          *)
(* ===================================================================== *)

Module JsProps.

(** ** The string helpers on concrete inputs *)

Example lit_ascii : lit "[0s-4s] A" = [91; 48; 115; 45; 52; 115; 93; 32; 65]%N.
Proof. reflexivity. Qed.

Example lit_bmp : lit "请" = [35831%N].
Proof. reflexivity. Qed.

Example trim_blank : trim (lit "  ") = [] /\ trim (lit " a b ") = lit "a b".
Proof. split; reflexivity. Qed.

Example split_two : split_on 44 (lit "a,b,") = [lit "a"; lit "b"; []].
Proof. reflexivity. Qed.

Example split_none : split_on 44 (lit "ab") = [lit "ab"].
Proof. reflexivity. Qed.

Example join_lines : join [10; 10]%N [lit "a"; lit "b"] = [97; 10; 10; 98]%N.
Proof. reflexivity. Qed.

Example numerals :
  num_to_string 0 = lit "0" /\ num_to_string 404 = lit "404"
  /\ num_to_string (-3) = lit "-3".
Proof. repeat split. Qed.

Example includes_network :
  includes (lit "NetworkError when attempting to fetch resource.")
           (lit "NetworkError") = true
  /\ includes (lit "Failed to fetch") (lit "NetworkError") = false.
Proof. split; reflexivity. Qed.

Example decimal_numerals :
  Storyboard.parseInt_decimal (lit "10") = Some 10
  /\ Storyboard.parseInt_decimal (lit "-5") = Some (-5)
  /\ Storyboard.parseInt_decimal [] = None.
Proof. repeat split. Qed.

Example url_joined :
  ApiService.buildUrl (lit "https://www.vivaapi.cn//") (lit "/v1/videos")
  = lit "https://www.vivaapi.cn/v1/videos".
Proof. reflexivity. Qed.

Example mime_of_data_url :
  ApiService.match_mime (lit "data:image/png;base64") = Some (lit "image/png")
  /\ ApiService.match_mime (lit "data") = None.
Proof. split; reflexivity. Qed.

End JsProps.

Module StoryboardProps.

Import Storyboard.

(** ** Strings *)

Lemma str_eqb_refl (a : jsstring) : str_eqb a a = true.
Proof.
  induction a as [|x a IH]; simpl; [reflexivity|].
  now rewrite N.eqb_refl, IH.
Qed.

Lemma str_eqb_eq (a b : jsstring) : str_eqb a b = true <-> a = b.
Proof.
  split.
  - revert b. induction a as [|x a IH]; intros [|y b]; simpl; try discriminate; auto.
    intros H. apply andb_true_iff in H as [Hxy Hab].
    apply N.eqb_eq in Hxy. subst. f_equal. auto.
  - intros ->. apply str_eqb_refl.
Qed.

Lemma str_eqb_neq (a b : jsstring) : str_eqb a b = false <-> a <> b.
Proof.
  rewrite <- str_eqb_eq. destruct (str_eqb a b); split; congruence.
Qed.

(** ** Sums of durations *)

Lemma fold_sum_shift (segs : list StoryboardSegment) (a : Z) :
  fold_left (fun sum s => sum + duration s) segs a
  = a + fold_left (fun sum s => sum + duration s) segs 0.
Proof.
  revert a. induction segs as [|s segs IH]; intros a; simpl; [lia|].
  rewrite IH. rewrite (IH (duration s)). lia.
Qed.

Lemma sum_nil : sum_durations [] = 0.
Proof. reflexivity. Qed.

Lemma sum_cons (s : StoryboardSegment) (segs : list StoryboardSegment) :
  sum_durations (s :: segs) = duration s + sum_durations segs.
Proof.
  unfold sum_durations. simpl. rewrite fold_sum_shift. lia.
Qed.

Lemma sum_app (l1 l2 : list StoryboardSegment) :
  sum_durations (l1 ++ l2) = sum_durations l1 + sum_durations l2.
Proof.
  induction l1 as [|s l1 IH].
  - now rewrite sum_nil.
  - rewrite <- app_comm_cons, !sum_cons, IH. lia.
Qed.

(** Splitting a sum by identifier. *)
Lemma sum_split_by_id (i : jsstring) (segs : list StoryboardSegment) :
  sum_durations segs
  = sum_durations (filter (fun s => str_eqb (id s) i) segs)
    + sum_durations (filter (fun s => negb (str_eqb (id s) i)) segs).
Proof.
  induction segs as [|s segs IH]; simpl; [reflexivity|].
  destruct (str_eqb (id s) i); simpl; rewrite !sum_cons, IH; lia.
Qed.

(** ** Identifiers *)

Lemma filter_absent (i : jsstring) (segs : list StoryboardSegment) :
  ~ In i (ids segs) ->
  filter (fun s => str_eqb (id s) i) segs = [].
Proof.
  induction segs as [|s segs IH]; simpl; [reflexivity|].
  intros Hn. destruct (str_eqb (id s) i) eqn:E.
  - apply str_eqb_eq in E. tauto.
  - apply IH. tauto.
Qed.

(** With pairwise distinct identifiers at most one segment carries [i]. *)
Lemma filter_unique (i : jsstring) (segs : list StoryboardSegment) :
  NoDup (ids segs) ->
  (List.length (filter (fun s => str_eqb (id s) i) segs) <= 1)%nat.
Proof.
  induction segs as [|s segs IH]; simpl; intros Hnd; [lia|].
  inversion Hnd as [|? ? Hnotin Hnd']; subst.
  destruct (str_eqb (id s) i) eqn:E.
  - apply str_eqb_eq in E. subst i.
    rewrite filter_absent by assumption. simpl. lia.
  - auto.
Qed.

Lemma filter_length_split (i : jsstring) (segs : list StoryboardSegment) :
  (List.length segs
   = List.length (filter (fun s => str_eqb (id s) i) segs)
     + List.length (filter (fun s => negb (str_eqb (id s) i)) segs))%nat.
Proof.
  induction segs as [|s segs IH]; simpl; [reflexivity|].
  destruct (str_eqb (id s) i); simpl; lia.
Qed.

Lemma ids_filter_incl (f : StoryboardSegment -> bool) (segs : list StoryboardSegment) (i : jsstring) :
  In i (ids (filter f segs)) -> In i (ids segs).
Proof.
  unfold ids. rewrite !in_map_iff. intros [s [Hs Hin]].
  apply filter_In in Hin as [Hin _]. eauto.
Qed.

Lemma NoDup_ids_filter (f : StoryboardSegment -> bool) (segs : list StoryboardSegment) :
  NoDup (ids segs) -> NoDup (ids (filter f segs)).
Proof.
  induction segs as [|s segs IH]; simpl; intros Hnd; [constructor|].
  inversion Hnd as [|? ? Hnotin Hnd']; subst.
  destruct (f s); simpl; auto.
  constructor; auto.
  intros Hin. apply Hnotin. eapply ids_filter_incl; eauto.
Qed.

(** A [map] that rewrites only durations or descriptions keeps the ids. *)
Lemma ids_map_keep (g : StoryboardSegment -> StoryboardSegment) (segs : list StoryboardSegment) :
  (forall s, id (g s) = id s) -> ids (map g segs) = ids segs.
Proof.
  intros Hg. unfold ids. rewrite map_map. apply map_ext. exact Hg.
Qed.

(** ** Reconciliation after a change of the target duration *)

Lemma segment_eta (s : StoryboardSegment) :
  mkSegment (id s) (duration s) (description s) = s.
Proof. now destruct s. Qed.

(** The accumulator of the loop is a prefix of its result. *)
Lemma clamp_loop_acc (target : Z) (prev : list StoryboardSegment) :
  forall acc newSegments,
    clamp_loop target acc newSegments prev
    = newSegments ++ clamp_loop target acc [] prev.
Proof.
  induction prev as [|seg rest IH]; intros acc newSegments; simpl.
  - now rewrite app_nil_r.
  - destruct (acc >=? target); [now rewrite app_nil_r|].
    destruct (_ >? 0).
    + rewrite IH. rewrite (IH _ [_]). now rewrite app_assoc.
    + apply IH.
Qed.

Lemma replay_spec_reached (target total : Z) (segs : list StoryboardSegment) :
  target <= total -> replay_spec target total segs = [].
Proof.
  intros H. destruct segs as [|seg rest]; simpl; [reflexivity|].
  destruct (Z.leb_spec target total); [reflexivity | lia].
Qed.

(** The loop is the replay of the specification on the segments of positive
    duration. *)
Lemma clamp_loop_replay (target : Z) (prev : list StoryboardSegment) :
  forall acc,
    clamp_loop target acc [] prev
    = replay_spec target acc (filter (fun s => 0 <? duration s) prev).
Proof.
  induction prev as [|seg rest IH]; intros acc; [reflexivity|].
  cbn [clamp_loop filter].
  destruct (Z.geb_spec acc target) as [Hfull|Hroom].
  - symmetry. apply replay_spec_reached. lia.
  - destruct (Z.ltb_spec 0 (duration seg)) as [Hpos|Hnonpos].
    + cbn [replay_spec].
      destruct (Z.leb_spec target acc); [lia|].
      destruct (Z.gtb_spec (acc + duration seg) target) as [Hover|Hfits].
      * destruct (Z.gtb_spec (target - acc) 0); [|lia].
        destruct (Z.ltb_spec target (acc + duration seg)); [|lia].
        rewrite clamp_loop_acc, IH. simpl.
        rewrite !replay_spec_reached by lia. reflexivity.
      * destruct (Z.gtb_spec (duration seg) 0); [|lia].
        destruct (Z.ltb_spec target (acc + duration seg)); [lia|].
        rewrite clamp_loop_acc, IH. simpl. now rewrite segment_eta.
    + destruct (Z.gtb_spec (acc + duration seg) target); [lia|].
      destruct (Z.gtb_spec (duration seg) 0); [lia|].
      apply IH.
Qed.

Lemma replay_spec_sum (target : Z) (segs : list StoryboardSegment) :
  forall total,
    total <= target ->
    total + sum_durations (replay_spec target total segs) <= target.
Proof.
  induction segs as [|seg rest IH]; intros total Hle; simpl.
  - rewrite sum_nil. lia.
  - destruct (Z.leb_spec target total); [rewrite sum_nil; lia|].
    destruct (Z.ltb_spec target (total + duration seg)).
    + rewrite sum_cons. simpl. rewrite replay_spec_reached by lia.
      rewrite sum_nil. lia.
    + rewrite sum_cons. specialize (IH (total + duration seg)). lia.
Qed.

Lemma clampSegments_spec (target now : Z) (prev : list StoryboardSegment) :
  clampSegments target now prev
  = reconcile_spec target now (filter (fun s => 0 <? duration s) prev).
Proof.
  unfold clampSegments, reconcile_spec. rewrite clamp_loop_replay.
  now destruct (replay_spec target 0 _).
Qed.

Lemma clampSegments_sum (target now : Z) (prev : list StoryboardSegment) :
  sum_durations (clampSegments target now prev) <= target.
Proof.
  rewrite clampSegments_spec. unfold reconcile_spec.
  destruct (replay_spec target 0 _) as [|s r] eqn:E.
  - rewrite sum_cons, sum_nil. simpl. lia.
  - destruct (Z.le_gt_cases 0 target) as [Hnn|Hneg].
    + pose proof (replay_spec_sum target
                    (filter (fun s => 0 <? duration s) prev) 0 Hnn) as H.
      rewrite E in H. lia.
    + rewrite replay_spec_reached in E by lia. discriminate.
Qed.

Lemma clampSegments_nonempty (target now : Z) (prev : list StoryboardSegment) :
  clampSegments target now prev <> [].
Proof.
  unfold clampSegments. destruct (clamp_loop target 0 [] prev); discriminate.
Qed.

(** C4, as amended. When the target duration changes, the segments of
    positive duration (a segment of no length is left out, also where the
    replay has not reached the target) are replayed in order, the one that would push the running total past
    the new target is truncated, every segment after the total has reached
    the target is dropped, and an empty outcome is replaced by a single
    segment spanning the new target.  Hence the result sums to at most the
    new target and is never empty; three segments of 5, 5 and 5 seconds
    under a new target of 10 become the first two, unchanged. *)
Theorem clamp_reconciles_segments :
  forall (target now : Z) (prev : list StoryboardSegment),
    clampSegments target now prev
    = reconcile_spec target now (filter (fun s => 0 <? duration s) prev)
    /\ sum_durations (clampSegments target now prev) <= target
    /\ clampSegments target now prev <> []
    /\ (forall i1 i2 i3 d1 d2 d3,
          clampSegments 10 now
            [mkSegment i1 5 d1; mkSegment i2 5 d2; mkSegment i3 5 d3]
          = [mkSegment i1 5 d1; mkSegment i2 5 d2]).
Proof.
  intros target now prev. repeat split.
  - apply clampSegments_spec.
  - apply clampSegments_sum.
  - apply clampSegments_nonempty.
Qed.

(** ** Editing a duration and adding a segment *)

Section Handlers.

Variable parseInt : jsstring -> option Z.

Local Abbreviation others i segs := (filter (fun s => negb (str_eqb (id s) i)) segs).
Local Abbreviation same i segs := (filter (fun s => str_eqb (id s) i) segs).

(** The sum after [updateSegment(i, 'duration', _)]: the untouched segments
    plus one clamped value per segment carrying [i]. *)
Lemma sum_after_edit (i : jsstring) (v : Z) (segs : list StoryboardSegment) :
  sum_durations
    (map (fun s => if str_eqb (id s) i
                   then mkSegment (id s) v (description s) else s) segs)
  = sum_durations (others i segs) + v * Z.of_nat (List.length (same i segs)).
Proof.
  induction segs as [|s segs IH]; [rewrite Z.mul_0_r; reflexivity|].
  cbn [map filter]. destruct (str_eqb (id s) i); cbn [negb List.length];
    rewrite !sum_cons, IH; cbn [duration]; lia.
Qed.

Lemma updateSegment_duration_bound (i value : jsstring) (st : State) :
  NoDup (ids (storyboardSegments st)) ->
  totalSegmentDuration st <= targetDuration st ->
  totalSegmentDuration (updateSegment parseInt i F_duration value st)
  <= targetDuration st.
Proof.
  intros Hnd Hle. unfold totalSegmentDuration, updateSegment in *.
  cbn [storyboardSegments set_segments targetDuration].
  rewrite sum_after_edit.
  pose proof (filter_unique i _ Hnd) as Hu.
  pose proof (sum_split_by_id i (storyboardSegments st)) as Hs.
  unfold Math_min, Math_max.
  destruct (same i (storyboardSegments st)) as [|s0 [|s1 r]] eqn:E;
    cbn [List.length] in *; [| |lia].
  - rewrite sum_nil in Hs. lia.
  - lia.
Qed.

Lemma updateSegment_ids (i value : jsstring) (field : Field) (st : State) :
  field <> F_id ->
  ids (storyboardSegments (updateSegment parseInt i field value st))
  = ids (storyboardSegments st).
Proof.
  intros Hf. destruct field; [congruence| |]; cbn;
    apply ids_map_keep; intros s; now destruct (str_eqb (id s) i).
Qed.

Lemma updateSegment_length (i value : jsstring) (field : Field) (st : State) :
  List.length (storyboardSegments (updateSegment parseInt i field value st))
  = List.length (storyboardSegments st).
Proof. destruct field; cbn; apply length_map. Qed.

Lemma updateSegment_target (i value : jsstring) (field : Field) (st : State) :
  targetDuration (updateSegment parseInt i field value st) = targetDuration st.
Proof. now destruct field. Qed.

(** What a duration edit writes into the segment it addresses. *)
Lemma updateSegment_clamps (i value : jsstring) (st : State) (s' : StoryboardSegment) :
  In s' (storyboardSegments (updateSegment parseInt i F_duration value st)) ->
  id s' = i ->
  duration s'
  = Z.min (Z.max 0 (parseInt_or_0 parseInt value))
          (targetDuration st - sum_durations (others i (storyboardSegments st))).
Proof.
  cbn. rewrite in_map_iff. intros [s [Hs Hin]] Hid.
  destruct (str_eqb (id s) i) eqn:E.
  - now subst s'.
  - subst s'. apply str_eqb_neq in E. contradiction.
Qed.

Lemma addSegment_full (newId : jsstring) (st : State) :
  targetDuration st <= totalSegmentDuration st ->
  addSegment newId st = set_error (Some err_segments_full) st.
Proof.
  intros H. unfold addSegment.
  destruct (Z.geb_spec (totalSegmentDuration st) (targetDuration st)); [reflexivity|lia].
Qed.

Lemma addSegment_room (newId : jsstring) (st : State) :
  totalSegmentDuration st < targetDuration st ->
  addSegment newId st
  = set_segments
      (storyboardSegments st
       ++ [mkSegment newId
             (Z.min 5 (targetDuration st - totalSegmentDuration st)) []]) st.
Proof.
  intros H. unfold addSegment, Math_min, Math_max.
  destruct (Z.geb_spec (totalSegmentDuration st) (targetDuration st)); [lia|].
  now rewrite (Z.max_r 1) by lia.
Qed.

Lemma addSegment_bound (newId : jsstring) (st : State) :
  totalSegmentDuration st <= targetDuration st ->
  totalSegmentDuration (addSegment newId st) <= targetDuration st.
Proof.
  intros Hle. destruct (Z.lt_ge_cases (totalSegmentDuration st) (targetDuration st)).
  - rewrite addSegment_room by assumption. unfold totalSegmentDuration in *.
    cbn [storyboardSegments set_segments targetDuration].
    rewrite sum_app, sum_cons, sum_nil. cbn [duration]. lia.
  - now rewrite addSegment_full by assumption.
Qed.

Lemma addSegment_target (newId : jsstring) (st : State) :
  targetDuration (addSegment newId st) = targetDuration st.
Proof. unfold addSegment. now destruct (_ >=? _). Qed.

Lemma NoDup_snoc (l : list jsstring) (x : jsstring) :
  NoDup l -> ~ In x l -> NoDup (l ++ [x]).
Proof.
  intros Hl Hx. apply NoDup_app; [assumption|repeat constructor; auto|].
  intros a Ha [<-|[]]. contradiction.
Qed.

Lemma addSegment_ids (newId : jsstring) (st : State) :
  NoDup (ids (storyboardSegments st)) ->
  ~ In newId (ids (storyboardSegments st)) ->
  NoDup (ids (storyboardSegments (addSegment newId st))).
Proof.
  intros Hnd Hfresh. unfold addSegment. destruct (_ >=? _); [assumption|].
  cbn. unfold ids. rewrite map_app. now apply NoDup_snoc.
Qed.

Lemma step_within (target : Z) (st : State) (e : Event) :
  within target st ->
  edits_or_adds e ->
  match e with
  | EvAddSegment newId => ~ In newId (ids (storyboardSegments st))
  | _ => True
  end ->
  within target (step parseInt st e).
Proof.
  intros (Hnd & Hle & Ht) He Hfresh. subst target.
  destruct e; try contradiction; cbn [step].
  - repeat split.
    + now apply addSegment_ids.
    + now apply addSegment_bound.
    + apply addSegment_target.
  - repeat split.
    + rewrite updateSegment_ids; [assumption|discriminate].
    + now apply updateSegment_duration_bound.
Qed.

Lemma run_within (target : Z) (events : list Event) :
  forall st k,
    within target st ->
    Forall edits_or_adds events ->
    fresh_adds parseInt st events ->
    within target (run parseInt st (firstn k events)).
Proof.
  induction events as [|e events IH]; intros st k Hin Hall Hfresh.
  - now rewrite firstn_nil.
  - destruct k as [|k]; [assumption|].
    cbn [firstn run fold_left]. inversion Hall; subst.
    destruct Hfresh as [Hf Hrest].
    apply IH; auto. now apply step_within.
Qed.

End Handlers.

(** C3, as amended.  Take a storyboard whose segment identifiers are pairwise
    distinct and whose durations sum to at most the target, and any sequence
    of duration edits and segment additions in which every new segment gets
    an identifier not in use.  Then after every prefix of the sequence the
    durations sum to at most the target.  A duration edit writes
    min(max(0, typed), target - sum of the other segments) into the
    addressed segment; an addition is rejected when the running total has
    reached the target, and otherwise appends a segment of duration
    min(5, target - running total). *)
Theorem segment_sum_within_target :
  forall (parseInt : jsstring -> option Z) (st : State) (events : list Event),
    NoDup (ids (storyboardSegments st)) ->
    totalSegmentDuration st <= targetDuration st ->
    Forall edits_or_adds events ->
    fresh_adds parseInt st events ->
    (forall k,
        totalSegmentDuration (run parseInt st (firstn k events))
        <= targetDuration st)
    /\ (forall i value s',
          In s' (storyboardSegments (updateSegment parseInt i F_duration value st)) ->
          id s' = i ->
          duration s'
          = Z.min (Z.max 0 (parseInt_or_0 parseInt value))
                  (targetDuration st
                   - sum_durations
                       (filter (fun s => negb (str_eqb (id s) i))
                               (storyboardSegments st)))
          /\ duration s'
             <= targetDuration st
                - sum_durations
                    (filter (fun s => negb (str_eqb (id s) i))
                            (storyboardSegments st)))
    /\ (forall newId,
          totalSegmentDuration st = targetDuration st ->
          addSegment newId st = set_error (Some err_segments_full) st)
    /\ (forall newId,
          totalSegmentDuration st < targetDuration st ->
          addSegment newId st
          = set_segments
              (storyboardSegments st
               ++ [mkSegment newId
                     (Z.min 5 (targetDuration st - totalSegmentDuration st)) []])
              st).
Proof.
  intros parseInt st events Hnd Hle Hall Hfresh. repeat apply conj.
  - intros k.
    destruct (run_within parseInt (targetDuration st) events st k) as (_ & H & _);
      auto.
    repeat split; auto.
  - intros i value s' Hin Hid.
    pose proof (updateSegment_clamps parseInt i value st s' Hin Hid) as H.
    split; [exact H|]. rewrite H. apply Z.le_min_r.
  - intros newId H. apply addSegment_full. lia.
  - intros newId H. now apply addSegment_room.
Qed.

(** ** The segment list is never emptied *)

Lemma removeSegment_single (i : jsstring) (st : State) :
  List.length (storyboardSegments st) = 1%nat -> removeSegment i st = st.
Proof. intros H. unfold removeSegment. now rewrite H. Qed.

Lemma removeSegment_keyed (i : jsstring) (st : State) :
  keyed_nonempty st -> keyed_nonempty (removeSegment i st).
Proof.
  intros [Hnd Hne]. unfold removeSegment.
  destruct (Nat.ltb_spec 1 (List.length (storyboardSegments st))) as [Hlen|];
    [|now split].
  split; cbn [storyboardSegments set_segments].
  - now apply NoDup_ids_filter.
  - pose proof (filter_unique i _ Hnd) as Hu.
    pose proof (filter_length_split i (storyboardSegments st)) as Hs.
    intros E. rewrite E in Hs. cbn [List.length] in Hs. lia.
Qed.

Lemma replay_spec_ids (target : Z) (segs : list StoryboardSegment) :
  forall total i,
    In i (ids (replay_spec target total segs)) -> In i (ids segs).
Proof.
  induction segs as [|seg rest IH]; intros total i; cbn [replay_spec]; [auto|].
  destruct (target <=? total); [intros []|].
  destruct (target <? total + duration seg); cbn; intros [H|H]; eauto.
Qed.

Lemma replay_spec_NoDup (target : Z) (segs : list StoryboardSegment) :
  forall total,
    NoDup (ids segs) -> NoDup (ids (replay_spec target total segs)).
Proof.
  induction segs as [|seg rest IH]; intros total Hnd; cbn [replay_spec];
    [constructor|].
  inversion Hnd as [|? ? Hnotin Hnd']; subst.
  destruct (target <=? total); [constructor|].
  destruct (target <? total + duration seg); cbn; constructor; auto;
    intros Hin; apply Hnotin; eapply replay_spec_ids; eauto.
Qed.

Lemma clampSegments_NoDup (target now : Z) (prev : list StoryboardSegment) :
  NoDup (ids prev) -> NoDup (ids (clampSegments target now prev)).
Proof.
  intros Hnd. rewrite clampSegments_spec. unfold reconcile_spec.
  pose proof (replay_spec_NoDup target _ 0
                (NoDup_ids_filter (fun s => 0 <? duration s) prev Hnd)) as H.
  destruct (replay_spec target 0 _); [repeat constructor; auto|exact H].
Qed.

Lemma clampEffect_keyed (now : Z) (st : State) :
  keyed_nonempty st -> keyed_nonempty (clampEffect now st).
Proof.
  intros [Hnd Hne]. unfold clampEffect.
  destruct (isStoryboardMode st); [|now split].
  split; cbn [storyboardSegments set_segments].
  - now apply clampSegments_NoDup.
  - apply clampSegments_nonempty.
Qed.

Lemma applyOptimizedParts_ids (segs : list StoryboardSegment) :
  forall parts, ids (applyOptimizedParts parts segs) = ids segs.
Proof.
  induction segs as [|seg rest IH]; intros parts; cbn; [reflexivity|].
  f_equal. apply IH.
Qed.

Lemma handlePreviewAndOptimize_segments (st : State) :
  storyboardSegments (handlePreviewAndOptimize st) = storyboardSegments st.
Proof.
  unfold handlePreviewAndOptimize.
  destruct (negb _); [reflexivity|]. now destruct (existsb _ _).
Qed.

Lemma ids_nonempty (segs : list StoryboardSegment) :
  segs <> [] <-> ids segs <> [].
Proof. destruct segs; cbn; split; congruence. Qed.

Lemma step_keyed (parseInt : jsstring -> option Z) (st : State) (e : Event) :
  keyed_nonempty st ->
  match e with
  | EvAddSegment newId => ~ In newId (ids (storyboardSegments st))
  | _ => True
  end ->
  keyed_nonempty (step parseInt st e).
Proof.
  intros Hk Hfresh. pose proof Hk as [Hnd Hne].
  destruct e; cbn [step].
  - split; [now apply addSegment_ids|].
    unfold addSegment. destruct (_ >=? _); [assumption|].
    cbn. now destruct (storyboardSegments st).
  - now apply removeSegment_keyed.
  - split; [rewrite updateSegment_ids; [assumption|discriminate]|].
    apply ids_nonempty. rewrite updateSegment_ids by discriminate.
    now apply ids_nonempty.
  - split; [rewrite updateSegment_ids; [assumption|discriminate]|].
    apply ids_nonempty. rewrite updateSegment_ids by discriminate.
    now apply ids_nonempty.
  - unfold setDuration. destruct (_ =? _); [assumption|].
    now apply clampEffect_keyed.
  - unfold toggleStoryboardMode. apply clampEffect_keyed.
    unfold viewResetEffect. cbn. now destruct (negb (isStoryboardMode st)).
  - split; cbn [storyboardSegments set_segments].
    + now rewrite applyOptimizedParts_ids.
    + apply ids_nonempty. rewrite applyOptimizedParts_ids.
      now apply ids_nonempty.
  - unfold keyed_nonempty. now rewrite handlePreviewAndOptimize_segments.
Qed.

Lemma run_keyed (parseInt : jsstring -> option Z) (events : list Event) :
  forall st,
    keyed_nonempty st ->
    fresh_adds parseInt st events ->
    keyed_nonempty (run parseInt st events).
Proof.
  induction events as [|e events IH]; intros st Hk Hfresh; [assumption|].
  destruct Hfresh as [Hf Hrest]. cbn [run fold_left].
  apply IH; [|assumption]. now apply step_keyed.
Qed.

Lemma initial_keyed : keyed_nonempty initial_state.
Proof.
  split; cbn; [|discriminate]. repeat constructor. intros [].
Qed.

(** C9, as amended.  From the initial storyboard, through every sequence of
    additions, removals, edits, target changes, mode toggles, optimisations
    and previews in which each added segment gets an identifier not in use,
    the segment list is never empty.  The list starts with one segment;
    [removeSegment] changes nothing when one segment remains; [addSegment]
    only appends; [updateSegment] keeps the length; the reconciliation puts
    one segment spanning the target in place of an empty outcome. *)
Theorem storyboard_never_empty :
  forall (parseInt : jsstring -> option Z) (events : list Event),
    fresh_adds parseInt initial_state events ->
    storyboardSegments (run parseInt initial_state events) <> []
    /\ List.length (storyboardSegments initial_state) = 1%nat
    /\ (forall i st,
          List.length (storyboardSegments st) = 1%nat -> removeSegment i st = st)
    /\ (forall newId st,
          exists added,
            storyboardSegments (addSegment newId st)
            = storyboardSegments st ++ added)
    /\ (forall i field value st,
          List.length (storyboardSegments (updateSegment parseInt i field value st))
          = List.length (storyboardSegments st))
    /\ (forall target now prev,
          clamp_loop target 0 [] prev = [] ->
          clampSegments target now prev
          = [mkSegment (num_to_string now) target []]).
Proof.
  intros parseInt events Hfresh. repeat apply conj.
  - apply (run_keyed parseInt events initial_state initial_keyed Hfresh).
  - reflexivity.
  - apply removeSegment_single.
  - intros newId st. unfold addSegment. destruct (_ >=? _).
    + exists []. cbn. now rewrite app_nil_r.
    + eexists. reflexivity.
  - intros. apply updateSegment_length.
  - intros target now prev H. unfold clampSegments. now rewrite H.
Qed.

(** ** From the edit view to the preview *)

Lemma scriptParts_lines (segs : list StoryboardSegment) :
  forall currentTime,
    scriptParts currentTime segs
    = map (fun p => preview_line (fst p) (snd p))
          (combine (boundaries currentTime segs) segs).
Proof.
  induction segs as [|seg rest IH]; intros cur; cbn; [reflexivity|].
  now rewrite IH.
Qed.

Lemma boundaries_length (segs : list StoryboardSegment) :
  forall cur, List.length (boundaries cur segs) = List.length segs.
Proof. induction segs; intros; cbn; auto. Qed.

Lemma boundaries_contiguous (segs : list StoryboardSegment) :
  forall cur, contiguous cur (boundaries cur segs).
Proof. induction segs; intros; cbn; auto. Qed.

(** The k-th interval runs from the sum of the first k durations to the sum
    of the first k+1 durations. *)
Lemma boundaries_nth (segs : list StoryboardSegment) :
  forall cur k,
    (k < List.length segs)%nat ->
    nth k (boundaries cur segs) (0, 0)
    = (cur + sum_durations (firstn k segs),
       cur + sum_durations (firstn (S k) segs)).
Proof.
  induction segs as [|seg rest IH]; intros cur k Hk; cbn in Hk; [lia|].
  destruct k as [|k].
  - cbn [boundaries nth firstn]. rewrite sum_nil, sum_cons, sum_nil.
    f_equal; lia.
  - cbn [boundaries nth]. rewrite IH by lia.
    rewrite (firstn_cons (S k)), (firstn_cons k), !sum_cons. f_equal; lia.
Qed.

Lemma truthy_str_nonempty (s : jsstring) : truthy_str s = true <-> s <> [].
Proof. destruct s; cbn; split; congruence. Qed.

Lemma no_blank_description (segs : list StoryboardSegment) :
  existsb (fun s => negb (truthy_str (trim (description s)))) segs = false
  <-> Forall (fun s => trim (description s) <> []) segs.
Proof.
  induction segs as [|seg rest IH]; cbn.
  - split; auto.
  - rewrite orb_false_iff, negb_false_iff, truthy_str_nonempty, IH.
    split.
    + intros [H1 H2]. now constructor.
    + intros H. now inversion H.
Qed.

Lemma preview_success (st : State) :
  totalSegmentDuration st = targetDuration st ->
  Forall (fun s => trim (description s) <> []) (storyboardSegments st) ->
  handlePreviewAndOptimize st
  = set_view preview
      (set_error None
         (set_preview
            (join [10; 10]%N (scriptParts 0 (storyboardSegments st))) st)).
Proof.
  intros Hsum Hdesc. unfold handlePreviewAndOptimize.
  rewrite Hsum, Z.eqb_refl. cbn [negb].
  apply no_blank_description in Hdesc. now rewrite Hdesc.
Qed.

Lemma preview_failure (st : State) :
  ~ (totalSegmentDuration st = targetDuration st
     /\ Forall (fun s => trim (description s) <> []) (storyboardSegments st)) ->
  exists msg, handlePreviewAndOptimize st = set_error (Some msg) st.
Proof.
  intros Hno. unfold handlePreviewAndOptimize.
  destruct (Z.eqb_spec (totalSegmentDuration st) (targetDuration st)) as [Hsum|Hsum];
    cbn [negb]; [|eauto].
  destruct (existsb _ _) eqn:E; [eauto|].
  apply no_blank_description in E. tauto.
Qed.

(** C5, as amended.  From the edit view the preview is entered exactly when
    the durations sum to the target and every description is non-empty
    after trimming white space; otherwise an error is set and nothing else
    changes.  On success the preview text is the lines
    "[start s-end s] description", one per segment in order, separated by a
    blank line, and the error is cleared.  The intervals are
    [0,d1], [d1,d1+d2], ...: each starts where the previous one ended.
    Segments (4,"A") and (6,"B") under target 10 give "[0s-4s] A" followed
    by "[4s-10s] B". *)
Theorem preview_transition :
  forall st : State,
    storyboardView st = edit ->
    (storyboardView (handlePreviewAndOptimize st) = preview
     <-> totalSegmentDuration st = targetDuration st
         /\ Forall (fun s => trim (description s) <> []) (storyboardSegments st))
    /\ (storyboardView (handlePreviewAndOptimize st) = preview ->
        previewPrompt (handlePreviewAndOptimize st)
        = join [10; 10]%N
            (map (fun p => preview_line (fst p) (snd p))
                 (combine (boundaries 0 (storyboardSegments st))
                          (storyboardSegments st)))
        /\ error (handlePreviewAndOptimize st) = None)
    /\ (storyboardView (handlePreviewAndOptimize st) <> preview ->
        exists msg, handlePreviewAndOptimize st = set_error (Some msg) st)
    /\ contiguous 0 (boundaries 0 (storyboardSegments st))
    /\ (forall k,
          (k < List.length (storyboardSegments st))%nat ->
          nth k (boundaries 0 (storyboardSegments st)) (0, 0)
          = (sum_durations (firstn k (storyboardSegments st)),
             sum_durations (firstn (S k) (storyboardSegments st))))
    /\ (forall i1 i2 mode shown err,
          previewPrompt
            (handlePreviewAndOptimize
               (mkState mode edit
                  [mkSegment i1 4 (lit "A"); mkSegment i2 6 (lit "B")]
                  shown 10 err))
          = lit "[0s-4s] A" ++ [10; 10]%N ++ lit "[4s-10s] B").
Proof.
  intros st Hedit.
  assert (Hiff : storyboardView (handlePreviewAndOptimize st) = preview
     <-> totalSegmentDuration st = targetDuration st
         /\ Forall (fun s => trim (description s) <> []) (storyboardSegments st)).
  { split.
    - intros Hv.
      destruct (Z.eq_dec (totalSegmentDuration st) (targetDuration st)) as [Hs|Hs].
      + split; [assumption|]. apply no_blank_description.
        destruct (existsb _ (storyboardSegments st)) eqn:E; [|reflexivity].
        unfold handlePreviewAndOptimize in Hv.
        rewrite Hs, Z.eqb_refl, E in Hv. cbn in Hv. congruence.
      + unfold handlePreviewAndOptimize in Hv.
        apply Z.eqb_neq in Hs. rewrite Hs in Hv. cbn in Hv. congruence.
    - intros [Hs Hd]. now rewrite preview_success. }
  repeat apply conj.
  - apply Hiff.
  - apply Hiff.
  - intros Hv. apply Hiff in Hv as [Hs Hd].
    rewrite preview_success by assumption. cbn.
    now rewrite scriptParts_lines.
  - intros Hv. apply preview_failure. intros H. apply Hv. now apply Hiff.
  - apply boundaries_contiguous.
  - intros k Hk. now rewrite boundaries_nth.
  - reflexivity.
Qed.

(** ** Concrete runs *)

(** C3 as stated fails once two segments carry one identifier: from the
    initial storyboard (sum 5, target 10) an addition that draws the
    identifier "1" again and a duration edit to 10 leave a sum of 20. *)
Lemma colliding_identifier_exceeds_target :
  totalSegmentDuration initial_state <= targetDuration initial_state
  /\ Forall edits_or_adds colliding_edit
  /\ totalSegmentDuration (run parseInt_decimal initial_state colliding_edit) = 20
  /\ targetDuration (run parseInt_decimal initial_state colliding_edit) = 10.
Proof.
  repeat split; try (cbn; lia); repeat constructor.
Qed.

Lemma segment_sum_within_target_witness :
  NoDup (ids (storyboardSegments initial_state))
  /\ totalSegmentDuration initial_state <= targetDuration initial_state
  /\ Forall edits_or_adds sample_edits
  /\ fresh_adds parseInt_decimal initial_state sample_edits
  /\ totalSegmentDuration (run parseInt_decimal initial_state sample_edits)
     <= targetDuration initial_state.
Proof.
  assert (H1 : NoDup (ids (storyboardSegments initial_state))).
  { repeat constructor. intros []. }
  assert (H2 : totalSegmentDuration initial_state <= targetDuration initial_state).
  { cbn. lia. }
  assert (H3 : Forall edits_or_adds sample_edits).
  { repeat constructor. }
  assert (H4 : fresh_adds parseInt_decimal initial_state sample_edits).
  { cbn. repeat split. intros [H|[]]. discriminate H. }
  refine (conj H1 (conj H2 (conj H3 (conj H4 _)))).
  exact (proj1 (segment_sum_within_target parseInt_decimal initial_state
                  sample_edits H1 H2 H3 H4) 2%nat).
Defined.

(** C9 as stated fails once two segments carry one identifier: an addition
    that draws the identifier "1" again followed by the removal of "1"
    leaves no segment. *)
Lemma colliding_identifier_empties_storyboard :
  storyboardSegments (run parseInt_decimal initial_state colliding_removal) = [].
Proof. reflexivity. Qed.

Lemma storyboard_never_empty_witness :
  fresh_adds parseInt_decimal initial_state sample_session
  /\ storyboardSegments (run parseInt_decimal initial_state sample_session) <> [].
Proof.
  assert (H : fresh_adds parseInt_decimal initial_state sample_session).
  { cbn. repeat split. intros [H|[]]. discriminate H. }
  split; [exact H|].
  exact (proj1 (storyboard_never_empty parseInt_decimal sample_session H)).
Defined.

(** C5 as stated fails on a description made of white space: the durations
    sum to the target and no description is the empty string, yet the view
    stays in edit and an error is set. *)
Lemma blank_description_blocks_preview :
  storyboardView blank_description_state = edit
  /\ totalSegmentDuration blank_description_state
     = targetDuration blank_description_state
  /\ Forall (fun s => description s <> [])
            (storyboardSegments blank_description_state)
  /\ storyboardView (handlePreviewAndOptimize blank_description_state) = edit
  /\ error (handlePreviewAndOptimize blank_description_state)
     = Some err_missing_description.
Proof.
  repeat split. repeat constructor. discriminate.
Qed.

Lemma preview_transition_witness :
  storyboardView two_scene_state = edit
  /\ storyboardView (handlePreviewAndOptimize two_scene_state) = preview
  /\ previewPrompt (handlePreviewAndOptimize two_scene_state)
     = lit "[0s-4s] A" ++ [10; 10]%N ++ lit "[4s-10s] B".
Proof.
  assert (H : storyboardView two_scene_state = edit) by reflexivity.
  pose proof (preview_transition two_scene_state H) as (Hiff & Htext & _).
  assert (Hv : storyboardView (handlePreviewAndOptimize two_scene_state) = preview).
  { apply Hiff. split; [reflexivity|]. repeat constructor; discriminate. }
  refine (conj H (conj Hv _)).
  rewrite (proj1 (Htext Hv)). reflexivity.
Defined.

(** C4 as stated fails on a segment of no length, which the user gets by
    typing 0 into a duration field: replayed as the claim says, the
    segments 7, 0 and 7 under a target of 10 become 7, 0 and 3, and a single
    described segment of no length stays as it is; the code leaves the
    segment of no length out, and in the second case puts a blank segment
    spanning the target in its place. *)
Lemma zero_length_segment_is_left_out :
  replay_spec 10 0
    [mkSegment (lit "1") 7 (lit "A"); mkSegment (lit "2") 0 (lit "B");
     mkSegment (lit "3") 7 (lit "C")]
  = [mkSegment (lit "1") 7 (lit "A"); mkSegment (lit "2") 0 (lit "B");
     mkSegment (lit "3") 3 (lit "C")]
  /\ clampSegments 10 99
       [mkSegment (lit "1") 7 (lit "A"); mkSegment (lit "2") 0 (lit "B");
        mkSegment (lit "3") 7 (lit "C")]
     = [mkSegment (lit "1") 7 (lit "A"); mkSegment (lit "3") 3 (lit "C")]
  /\ reconcile_spec 10 99 [mkSegment (lit "1") 0 (lit "A")]
     = [mkSegment (lit "1") 0 (lit "A")]
  /\ clampSegments 10 99 [mkSegment (lit "1") 0 (lit "A")]
     = [mkSegment (lit "99") 10 []].
Proof. repeat split. Qed.

End StoryboardProps.
Module GalleryProps.

Import Gallery.

Lemma str_eqb_true (a b : jsstring) : str_eqb a b = true -> a = b.
Proof. apply StoryboardProps.str_eqb_eq. Qed.

(** ** The merge *)

Lemma merge_id (task updated : VideoTask) (res : QueryVideoResponse) (now : Z) :
  merge task res now = Some updated -> id updated = id task.
Proof.
  unfold merge. destruct (_ || _); [|discriminate].
  intros H. injection H as <-. reflexivity.
Qed.

Lemma merge_status (task updated : VideoTask) (res : QueryVideoResponse) (now : Z) :
  merge task res now = Some updated -> status updated = updatedStatus task res.
Proof.
  unfold merge. destruct (_ || _); [|discriminate].
  intros H. injection H as <-. reflexivity.
Qed.

Lemma merge_completedAt (task updated : VideoTask) (res : QueryVideoResponse) (now : Z) :
  merge task res now = Some updated ->
  completedAt updated
  = if is_terminal (updatedStatus task res) && no_completedAt task
    then Some (completion_stamp res now)
    else completedAt task.
Proof.
  unfold merge. destruct (_ || _); [|discriminate].
  intros H. injection H as <-. reflexivity.
Qed.

(** Without an announcement of completion or failure the status stays
    what it was, or becomes [processing]. *)
Lemma updatedStatus_quiet (task : VideoTask) (res : QueryVideoResponse) :
  announces_terminal res = false ->
  updatedStatus task res = status task \/ updatedStatus task res = processing.
Proof.
  unfold announces_terminal, updatedStatus. destruct (resStatus res) as [s|]; [|auto].
  intros H. apply orb_false_iff in H as [H1 H2]. rewrite H1, H2.
  destruct (str_eqb s (lit "processing")); auto.
Qed.

Lemma updatedStatus_terminal (task : VideoTask) (res : QueryVideoResponse) :
  announces_terminal res = true ->
  is_terminal (updatedStatus task res) = true.
Proof.
  unfold announces_terminal, updatedStatus. destruct (resStatus res) as [s|];
    [|discriminate].
  destruct (str_eqb s (lit "completed")); [reflexivity|].
  destruct (str_eqb s (lit "failed")); [reflexivity|discriminate].
Qed.

Lemma pending_not_terminal (t : VideoTask) :
  is_pending t = negb (is_terminal (status t)).
Proof. unfold is_pending. now destruct (status t). Qed.

Lemma merge_quiet_pending (task updated : VideoTask) (res : QueryVideoResponse) (now : Z) :
  is_pending task = true ->
  announces_terminal res = false ->
  merge task res now = Some updated ->
  is_pending updated = true /\ completedAt updated = completedAt task.
Proof.
  intros Hp Hq Hm.
  pose proof (merge_status _ _ _ _ Hm) as Hs.
  pose proof (merge_completedAt _ _ _ _ Hm) as Hc.
  rewrite pending_not_terminal in *.
  destruct (updatedStatus_quiet task res Hq) as [E|E]; rewrite E in *.
  - rewrite Hs. split; [assumption|].
    apply negb_true_iff in Hp. now rewrite Hp in Hc.
  - rewrite Hs. split; [reflexivity|]. exact Hc.
Qed.

(** An announcement of completion or failure always reaches a pending
    record, and stamps it when it has no completion time yet. *)
Lemma merge_terminal (task : VideoTask) (res : QueryVideoResponse) (now : Z) :
  is_pending task = true ->
  announces_terminal res = true ->
  exists updated,
    merge task res now = Some updated
    /\ is_pending updated = false
    /\ completedAt updated
       = if no_completedAt task then Some (completion_stamp res now)
         else completedAt task.
Proof.
  intros Hp Ht.
  pose proof (updatedStatus_terminal task res Ht) as Hu.
  assert (Hne : status_eqb (updatedStatus task res) (status task) = false).
  { rewrite pending_not_terminal in Hp.
    destruct (updatedStatus task res), (status task); try reflexivity;
      discriminate. }
  unfold merge. rewrite Hne. cbn [negb orb].
  eexists. split; [reflexivity|]. cbn [completedAt]. rewrite Hu. split.
  - rewrite pending_not_terminal. cbn [status]. now rewrite Hu.
  - reflexivity.
Qed.

(** ** One record through successive ticks *)

Lemma observe_settled (task : VideoTask) (input : result QueryVideoResponse * Z) :
  is_pending task = false -> observe task input = task.
Proof. intros H. unfold observe. now rewrite H. Qed.

Lemma observe_all_settled (inputs : list (result QueryVideoResponse * Z)) :
  forall task, is_pending task = false -> observe_all task inputs = task.
Proof.
  induction inputs as [|input rest IH]; intros task H; [reflexivity|].
  cbn [observe_all fold_left]. rewrite observe_settled by assumption.
  now apply IH.
Qed.

Lemma observe_answer (task : VideoTask) (res : QueryVideoResponse) (now : Z) :
  is_pending task = true ->
  observe task (Ok res, now)
  = match merge task res now with Some updated => updated | None => task end.
Proof. intros H. unfold observe. now rewrite H. Qed.

Lemma observe_throw (task : VideoTask) (e : JsError) (now : Z) :
  observe task (Throw e, now) = task.
Proof. unfold observe. now destruct (is_pending task). Qed.

Lemma first_terminal_app (inputs more : list (result QueryVideoResponse * Z)) :
  first_terminal inputs <> None ->
  first_terminal (inputs ++ more) = first_terminal inputs.
Proof.
  induction inputs as [|[[res|e] now] rest IH]; cbn; intros H.
  - congruence.
  - destruct (announces_terminal res); auto.
  - auto.
Qed.

(** ** The tick *)

Lemma poll_task_total (env : Env) (k : nat) (task : VideoTask) (st : TickState) :
  exists st', poll_task env k task st = Ok st'
              /\ queried st' = queried st ++ [id task].
Proof.
  unfold poll_task, poll_try.
  destruct (answer env k (id task)) as [res|e]; [|eauto].
  destruct (merge task res (clock env k)); eauto.
Qed.

Lemma poll_loop_total (env : Env) (snapshot : list VideoTask) :
  forall k st,
    exists st', poll_loop env k snapshot st = Ok st'
                /\ queried st' = queried st ++ map id snapshot.
Proof.
  induction snapshot as [|task rest IH]; intros k st; cbn [poll_loop map].
  - exists st. now rewrite app_nil_r.
  - destruct (poll_task_total env k task st) as (st1 & H1 & Q1). rewrite H1.
    destruct (IH (S k) st1) as (st2 & H2 & Q2).
    exists st2. split; [assumption|]. rewrite Q2, Q1. now rewrite <- app_assoc.
Qed.

Lemma tick_total (env : Env) (tasks : list VideoTask) :
  exists st, tick env tasks = Ok st.
Proof.
  destruct (poll_loop_total env (pendingTasks tasks) 0 (mkTick tasks [] []))
    as (st & H & _).
  now exists st.
Qed.

Lemma queries_of_pending (env : Env) (tasks : list VideoTask) :
  queries_of env tasks = map id (filter is_pending tasks).
Proof.
  unfold queries_of, tick.
  destruct (poll_loop_total env (pendingTasks tasks) 0 (mkTick tasks [] []))
    as (st & H & Q).
  now rewrite H, Q.
Qed.

Lemma poll_task_throw (env : Env) (k : nat) (task : VideoTask) (st : TickState)
    (e : JsError) :
  answer env k (id task) = Throw e ->
  poll_task env k task st
  = Ok (mkTick (store st) (queried st ++ [id task])
          (console st ++ [mkLog (lit "Failed to poll task " ++ id task) (Some e)])).
Proof. intros H. unfold poll_task, poll_try. now rewrite H. Qed.

(** C7.  When the status query of a task throws, the tick leaves the store
    as it was, writes one line to the console, and goes on with the
    remaining tasks of the tick; every task of the tick is queried, and the
    tick itself never throws. *)
Theorem throwing_query_is_contained :
  forall (env : Env) (k : nat) (task : VideoTask) (rest : list VideoTask)
         (st : TickState) (e : JsError),
    answer env k (id task) = Throw e ->
    let st' := mkTick (store st) (queried st ++ [id task])
                 (console st
                  ++ [mkLog (lit "Failed to poll task " ++ id task) (Some e)]) in
    poll_task env k task st = Ok st'
    /\ poll_loop env k (task :: rest) st = poll_loop env (S k) rest st'
    /\ (exists final,
          poll_loop env k (task :: rest) st = Ok final
          /\ queried final = queried st ++ map id (task :: rest))
    /\ (forall tasks, exists final, tick env tasks = Ok final).
Proof.
  intros env k task rest st e H st'.
  pose proof (poll_task_throw env k task st e H) as Hp.
  repeat apply conj.
  - exact Hp.
  - cbn [poll_loop]. now rewrite Hp.
  - apply poll_loop_total.
  - intros tasks. apply tick_total.
Qed.

(** ** Records that stay pending *)

Lemma handleUpdateTask_pending (i : jsstring) (updated : VideoTask)
    (tasks : list VideoTask) :
  (id updated = i -> is_pending updated = true) ->
  pending_in i tasks ->
  pending_in i (handleUpdateTask updated tasks).
Proof.
  intros Hu (t & Hin & Hid & Hp). unfold handleUpdateTask.
  destruct (str_eqb (id t) (id updated)) eqn:E.
  - apply str_eqb_true in E. exists updated. repeat split.
    + apply in_map_iff. exists t. now rewrite E, StoryboardProps.str_eqb_refl.
    + congruence.
    + apply Hu. congruence.
  - exists t. repeat split; try assumption.
    apply in_map_iff. exists t. now rewrite E.
Qed.

Lemma poll_task_pending (env : Env) (i : jsstring) (k : nat) (task : VideoTask)
    (st st' : TickState) :
  never_terminal env i ->
  is_pending task = true ->
  pending_in i (store st) ->
  poll_task env k task st = Ok st' ->
  pending_in i (store st').
Proof.
  intros Hnever Hp Hin. unfold poll_task, poll_try.
  destruct (answer env k (id task)) as [res|e] eqn:Ha.
  - destruct (merge task res (clock env k)) as [u|] eqn:Hm;
      intros H; injection H as <-; cbn [store]; [|assumption].
    apply handleUpdateTask_pending; [|assumption].
    intros Hid. rewrite (merge_id _ _ _ _ Hm) in Hid. subst i.
    specialize (Hnever k). rewrite Ha in Hnever.
    now destruct (merge_quiet_pending task u res _ Hp Hnever Hm).
  - intros H. injection H as <-. assumption.
Qed.

Lemma poll_loop_pending (env : Env) (i : jsstring) (snapshot : list VideoTask) :
  never_terminal env i ->
  forall k st st',
    Forall (fun t => is_pending t = true) snapshot ->
    pending_in i (store st) ->
    poll_loop env k snapshot st = Ok st' ->
    pending_in i (store st').
Proof.
  intros Hnever. induction snapshot as [|task rest IH]; intros k st st' Hall Hin;
    cbn [poll_loop].
  - intros H. injection H as <-. assumption.
  - inversion Hall as [|? ? Hp Hall']; subst.
    destruct (poll_task env k task st) as [st1|e] eqn:Hstep; [|discriminate].
    apply IH; [assumption|].
    eapply poll_task_pending; eauto.
Qed.

Lemma pendingTasks_pending (tasks : list VideoTask) :
  Forall (fun t => is_pending t = true) (pendingTasks tasks).
Proof.
  apply Forall_forall. intros t Hin. now apply filter_In in Hin.
Qed.

Lemma store_after_pending (env : Env) (i : jsstring) (tasks : list VideoTask) :
  never_terminal env i ->
  pending_in i tasks ->
  pending_in i (store_after env tasks).
Proof.
  intros Hnever Hin. unfold store_after.
  destruct (tick env tasks) as [st|e] eqn:Ht; [|assumption].
  unfold tick in Ht.
  eapply poll_loop_pending in Ht; eauto using pendingTasks_pending.
Qed.

Lemma store_after_ticks_pending (i : jsstring) (envs : list Env) :
  forall tasks,
    (forall env, In env envs -> never_terminal env i) ->
    pending_in i tasks ->
    pending_in i (store_after_ticks envs tasks).
Proof.
  induction envs as [|env envs IH]; intros tasks Hnever Hin; [assumption|].
  cbn [store_after_ticks fold_left]. apply IH.
  - intros env' H. apply Hnever. now right.
  - apply store_after_pending; [|assumption]. apply Hnever. now left.
Qed.

Lemma pending_in_queried (env : Env) (i : jsstring) (tasks : list VideoTask) :
  pending_in i tasks -> In i (queries_of env tasks).
Proof.
  intros (t & Hin & Hid & Hp). rewrite queries_of_pending.
  apply in_map_iff. exists t. split; [assumption|]. now apply filter_In.
Qed.

(** ** One-record stores *)

Lemma tick_single (task : VideoTask) (input : result QueryVideoResponse * Z) :
  store_after (env_of input) [task] = [observe task input].
Proof.
  unfold store_after, tick, pendingTasks, observe. cbn [filter].
  destruct (is_pending task); [|reflexivity].
  cbn [poll_loop]. unfold poll_task, poll_try. cbn [answer clock env_of store].
  destruct (fst input) as [res|e]; [|reflexivity].
  destruct (merge task res (snd input)) as [u|] eqn:Hm; [|reflexivity].
  cbn. now rewrite (merge_id _ _ _ _ Hm), StoryboardProps.str_eqb_refl.
Qed.

Lemma ticks_single (inputs : list (result QueryVideoResponse * Z)) :
  forall task,
    store_after_ticks (map env_of inputs) [task] = [observe_all task inputs].
Proof.
  induction inputs as [|input rest IH]; intros task; [reflexivity|].
  cbn [map store_after_ticks fold_left]. rewrite tick_single.
  apply IH.
Qed.

(** ** Stores with distinct identifiers *)

Lemma handleUpdateTask_other (updated : VideoTask) (tasks : list VideoTask) :
  ~ In (id updated) (map id tasks) -> handleUpdateTask updated tasks = tasks.
Proof.
  induction tasks as [|t tasks IH]; cbn; intros Hn; [reflexivity|].
  destruct (str_eqb (id t) (id updated)) eqn:E.
  - apply str_eqb_true in E. tauto.
  - f_equal. apply IH. tauto.
Qed.

Lemma handleUpdateTask_app (updated : VideoTask) (a b : list VideoTask) :
  handleUpdateTask updated (a ++ b)
  = handleUpdateTask updated a ++ handleUpdateTask updated b.
Proof. apply map_app. Qed.

Lemma handleUpdateTask_cons (updated t : VideoTask) (rest : list VideoTask) :
  handleUpdateTask updated (t :: rest)
  = (if str_eqb (id t) (id updated) then updated else t)
    :: handleUpdateTask updated rest.
Proof. reflexivity. Qed.

(** Replacing by identifier touches the one record that carries it. *)
Lemma handleUpdateTask_unique (updated t : VideoTask)
    (done rest : list VideoTask) :
  NoDup (map id (done ++ t :: rest)) ->
  id updated = id t ->
  handleUpdateTask updated (done ++ t :: rest) = done ++ updated :: rest.
Proof.
  intros Hnd Hid. rewrite map_app in Hnd. cbn [map] in Hnd.
  pose proof (NoDup_remove_2 _ _ _ Hnd) as Hnot.
  rewrite handleUpdateTask_app, handleUpdateTask_cons.
  replace (str_eqb (id t) (id updated)) with true
    by (now rewrite Hid, StoryboardProps.str_eqb_refl).
  rewrite !handleUpdateTask_other; [reflexivity| |];
    rewrite Hid; intros H; apply Hnot; apply in_or_app; auto.
Qed.

Lemma poll_loop_each (env : Env) (todo : list VideoTask) :
  forall (done : list VideoTask) (k : nat) (q : list jsstring)
         (c : list LogEntry) (final : TickState),
    NoDup (map id (done ++ todo)) ->
    poll_loop env k (filter is_pending todo) (mkTick (done ++ todo) q c)
    = Ok final ->
    store final = done ++ observe_each env k todo.
Proof.
  induction todo as [|t rest IH]; intros done k q c final Hnd Hrun.
  - cbn in Hrun. injection Hrun as <-. reflexivity.
  - cbn [filter observe_each] in *.
    assert (Hsplit : forall x, done ++ x :: rest = (done ++ [x]) ++ rest)
      by (intros x; now rewrite <- app_assoc).
    destruct (is_pending t) eqn:Hp.
    + cbn [poll_loop] in Hrun. unfold poll_task, poll_try in Hrun.
      cbn [store queried console] in Hrun.
      destruct (answer env k (id t)) as [res|e] eqn:Ha.
      * rewrite observe_answer by assumption.
        destruct (merge t res (clock env k)) as [u|] eqn:Hm.
        -- rewrite (handleUpdateTask_unique u t done rest Hnd
                      (merge_id _ _ _ _ Hm)) in Hrun.
           rewrite Hsplit in Hrun. apply IH in Hrun.
           ++ rewrite Hrun. now rewrite <- app_assoc.
           ++ rewrite <- Hsplit. rewrite map_app in *. cbn [map] in *.
              now rewrite (merge_id _ _ _ _ Hm).
        -- rewrite Hsplit in Hrun. apply IH in Hrun.
           ++ rewrite Hrun. now rewrite <- app_assoc.
           ++ now rewrite <- Hsplit.
      * rewrite observe_throw. rewrite Hsplit in Hrun. apply IH in Hrun.
        -- rewrite Hrun. now rewrite <- app_assoc.
        -- now rewrite <- Hsplit.
    + rewrite Hsplit in Hrun. apply IH in Hrun.
      * rewrite Hrun. now rewrite <- app_assoc.
      * now rewrite <- Hsplit.
Qed.

Lemma store_after_each (env : Env) (tasks : list VideoTask) :
  NoDup (map id tasks) ->
  store_after env tasks = observe_each env 0 tasks.
Proof.
  intros Hnd. unfold store_after.
  destruct (tick_total env tasks) as [final Hf]. rewrite Hf.
  unfold tick, pendingTasks in Hf.
  exact (poll_loop_each env tasks [] 0 [] [] final Hnd Hf).
Qed.

(** ** Identifiers in the store *)

Lemma handleUpdateTask_ids (updated : VideoTask) (tasks : list VideoTask) :
  map id (handleUpdateTask updated tasks) = map id tasks.
Proof.
  unfold handleUpdateTask. rewrite map_map. apply map_ext. intros t.
  destruct (str_eqb (id t) (id updated)) eqn:E; [|reflexivity].
  apply str_eqb_true in E. now symmetry.
Qed.

Lemma poll_task_ids (env : Env) (k : nat) (task : VideoTask)
    (st st' : TickState) :
  poll_task env k task st = Ok st' -> map id (store st') = map id (store st).
Proof.
  unfold poll_task, poll_try. destruct (answer env k (id task)) as [res|e].
  - destruct (merge task res (clock env k)) as [u|]; intros H;
      injection H as <-; cbn [store]; [apply handleUpdateTask_ids|reflexivity].
  - intros H. injection H as <-. reflexivity.
Qed.

Lemma poll_loop_ids (env : Env) (snapshot : list VideoTask) :
  forall k st st',
    poll_loop env k snapshot st = Ok st' ->
    map id (store st') = map id (store st).
Proof.
  induction snapshot as [|task rest IH]; intros k st st'; cbn [poll_loop].
  - intros H. now injection H as <-.
  - destruct (poll_task env k task st) as [st1|e] eqn:E; [|discriminate].
    intros H. rewrite (IH _ _ _ H). eapply poll_task_ids; eauto.
Qed.

Lemma store_after_ids (env : Env) (tasks : list VideoTask) :
  map id (store_after env tasks) = map id tasks.
Proof.
  unfold store_after, tick.
  destruct (poll_loop env 0 (pendingTasks tasks) (mkTick tasks [] []))
    as [st|e] eqn:E; [|reflexivity].
  now rewrite (poll_loop_ids _ _ _ _ _ E).
Qed.

Lemma store_after_ticks_ids (envs : list Env) :
  forall tasks, map id (store_after_ticks envs tasks) = map id tasks.
Proof.
  induction envs as [|env envs IH]; intros tasks; [reflexivity|].
  cbn [store_after_ticks fold_left].
  change (map id (store_after_ticks envs (store_after env tasks))
          = map id tasks).
  now rewrite IH, store_after_ids.
Qed.

(** ** A callback that runs alone *)

Lemma poll_task_store (env : Env) (k : nat) (task : VideoTask)
    (s : list VideoTask) (q : list jsstring) (c : list LogEntry) :
  exists c',
    poll_task env k task (mkTick s q c)
    = Ok (mkTick (poll_store env k task s) (q ++ [id task]) c').
Proof.
  unfold poll_task, poll_try, poll_store. cbn [store queried console].
  destruct (answer env k (id task)) as [res|e]; [|eauto].
  destruct (merge task res (clock env k)); eauto.
Qed.

Lemma poll_loop_stores (env : Env) (todo : list VideoTask) :
  forall k s q c,
    exists c',
      poll_loop env k todo (mkTick s q c)
      = Ok (mkTick (poll_stores env k todo s) (q ++ map id todo) c').
Proof.
  induction todo as [|task rest IH]; intros k s q c;
    cbn [poll_loop poll_stores map].
  - exists c. now rewrite app_nil_r.
  - destruct (poll_task_store env k task s q c) as [c1 ->].
    destruct (IH (S k) (poll_store env k task s) (q ++ [id task]) c1)
      as [c2 ->].
    exists c2. now rewrite <- app_assoc.
Qed.

Lemma store_after_stores (env : Env) (tasks : list VideoTask) :
  store_after env tasks = poll_stores env 0 (pendingTasks tasks) tasks.
Proof.
  unfold store_after, tick.
  now destruct (poll_loop_stores env (pendingTasks tasks) 0 tasks [] [])
    as [c ->].
Qed.

Lemma poll_run_app (w : World) (a b : list PollEvent) :
  poll_run w (a ++ b) = poll_run (poll_run w a) b.
Proof. apply fold_left_app. Qed.

Lemma arrive_idle (n : nat) (w : World) :
  w_inflight w = [] -> poll_run w (repeat (Arrive 0) n) = w.
Proof.
  intros H. induction n as [|n IH]; [reflexivity|].
  cbn [repeat poll_run fold_left poll_step]. unfold arrive at 1.
  rewrite H. cbn [nth_error]. exact IH.
Qed.

Lemma arrive_alone (env : Env) (todo : list VideoTask) :
  forall k s sent c n,
    todo <> [] ->
    (List.length todo <= n)%nat ->
    exists c',
      poll_run (mkWorld s sent c [mkCallback env k todo])
               (repeat (Arrive 0) n)
      = mkWorld (poll_stores env k todo s) (sent ++ map id (tl todo)) c' [].
Proof.
  induction todo as [|task rest IH]; intros k s sent c n Hne Hlen;
    [congruence|].
  destruct n as [|n]; [cbn in Hlen; lia|].
  cbn [repeat poll_run fold_left poll_step]. unfold arrive at 1.
  cbn [w_inflight nth_error cb_todo cb_env cb_k w_store w_console w_sent].
  destruct (poll_task_store env k task s [] c) as [c1 ->].
  cbn [store console poll_stores tl]. unfold put_callback.
  destruct rest as [|next rest]; cbn [firstn skipn app].
  - exists c1. change (fold_left poll_step (repeat (Arrive 0) n) ?w)
      with (poll_run w (repeat (Arrive 0) n)).
    now rewrite arrive_idle by reflexivity.
  - cbn [List.length] in Hlen.
    destruct (IH (S k) (poll_store env k task s) (sent ++ [id next]) c1 n)
      as [c2 H]; [discriminate|cbn [List.length]; lia|].
    exists c2. unfold poll_run in H. rewrite H. cbn [tl map].
    now rewrite <- app_assoc.
Qed.

Lemma pendingTasks_length (tasks : list VideoTask) :
  (List.length (pendingTasks tasks) <= List.length tasks)%nat.
Proof.
  unfold pendingTasks. induction tasks as [|t tasks IH]; [apply le_n|].
  cbn [filter]. destruct (is_pending t); cbn [List.length]; lia.
Qed.

(** A tick that gets all its answers before anything else happens is
    [tick]. *)
Lemma fire_alone (env : Env) (n : nat) (s : list VideoTask)
    (sent : list jsstring) (c : list LogEntry) :
  (List.length s <= n)%nat ->
  exists c',
    poll_run (mkWorld s sent c []) (Fire env :: repeat (Arrive 0) n)
    = mkWorld (store_after env s) (sent ++ queries_of env s) c' [].
Proof.
  intros Hlen. rewrite store_after_stores, queries_of_pending.
  pose proof (pendingTasks_length s) as Hp.
  cbn [poll_run fold_left poll_step]. unfold fire.
  cbn [w_store w_sent w_console w_inflight]. fold (pendingTasks s).
  destruct (pendingTasks s) as [|task rest] eqn:E.
  - exists c. change (fold_left poll_step ?l ?w) with (poll_run w l).
    rewrite arrive_idle by reflexivity. cbn [poll_stores map].
    now rewrite app_nil_r.
  - cbn [app].
    destruct (arrive_alone env (task :: rest) 0 s (sent ++ [id task]) c n)
      as [c' H]; [discriminate|lia|].
    exists c'. unfold poll_run in H. rewrite H. cbn [tl map].
    now rewrite <- app_assoc.
Qed.

Lemma store_after_length (env : Env) (tasks : list VideoTask) :
  List.length (store_after env tasks) = List.length tasks.
Proof.
  rewrite <- (length_map id (store_after env tasks)), store_after_ids.
  apply length_map.
Qed.

(** Ticks that run one at a time are [store_after_ticks]. *)
Lemma one_at_a_time_run (n : nat) (envs : list Env) :
  forall s sent c,
    (List.length s <= n)%nat ->
    exists c',
      poll_run (mkWorld s sent c []) (one_at_a_time n envs)
      = mkWorld (store_after_ticks envs s) (sent ++ queries_of_ticks envs s)
                c' [].
Proof.
  induction envs as [|env envs IH]; intros s sent c Hlen.
  - exists c. cbn. now rewrite app_nil_r.
  - unfold one_at_a_time. cbn [flat_map].
    change (flat_map _ envs) with (one_at_a_time n envs).
    rewrite poll_run_app.
    destruct (fire_alone env n s sent c Hlen) as [c1 ->].
    destruct (IH (store_after env s) (sent ++ queries_of env s) c1)
      as [c2 ->]; [now rewrite store_after_length|].
    exists c2. cbn [store_after_ticks fold_left queries_of_ticks].
    now rewrite <- app_assoc.
Qed.

(** ** Callbacks that overlap *)

Lemma put_callback_In (n : nat) (put cbs : list Callback) (cb : Callback) :
  In cb (put_callback n put cbs) -> In cb put \/ In cb cbs.
Proof.
  unfold put_callback. rewrite !in_app_iff. intros [H|[H|H]].
  - right. rewrite <- (firstn_skipn n cbs). apply in_or_app. now left.
  - now left.
  - right. rewrite <- (firstn_skipn (S n) cbs). apply in_or_app. now right.
Qed.

(** What one event does, case by case. *)
Lemma fire_cases (env : Env) (w : World) :
  fire env w = w
  \/ exists task rest,
       pendingTasks (w_store w) = task :: rest
       /\ fire env w
          = mkWorld (w_store w) (w_sent w ++ [id task]) (w_console w)
                    (w_inflight w ++ [mkCallback env 0 (task :: rest)]).
Proof.
  unfold fire. destruct (pendingTasks (w_store w)) as [|task rest];
    [now left|right; eauto].
Qed.

Lemma arrive_cases (n : nat) (w : World) :
  arrive n w = w
  \/ exists cb task rest c,
       In cb (w_inflight w)
       /\ cb_todo cb = task :: rest
       /\ arrive n w
          = mkWorld (poll_store (cb_env cb) (cb_k cb) task (w_store w))
              (w_sent w ++ match rest with
                           | next :: _ => [id next]
                           | [] => []
                           end)
              c
              (put_callback n
                 match rest with
                 | _ :: _ => [mkCallback (cb_env cb) (S (cb_k cb)) rest]
                 | [] => []
                 end
                 (w_inflight w)).
Proof.
  unfold arrive. destruct (nth_error (w_inflight w) n) as [cb|] eqn:E;
    [|now left].
  destruct (cb_todo cb) as [|task rest] eqn:Ht; [now left|].
  destruct (poll_task_store (cb_env cb) (cb_k cb) task (w_store w) []
              (w_console w)) as [c ->].
  right. exists cb, task, rest, c. cbn [store console].
  repeat split; [|assumption]. eapply nth_error_In; eauto.
Qed.

Lemma poll_store_ids (env : Env) (k : nat) (task : VideoTask)
    (tasks : list VideoTask) :
  map id (poll_store env k task tasks) = map id tasks.
Proof.
  unfold poll_store. destruct (answer env k (id task)); [|reflexivity].
  destruct (merge _ _ _); [apply handleUpdateTask_ids|reflexivity].
Qed.

Lemma poll_step_ids (w : World) (e : PollEvent) :
  map id (w_store (poll_step w e)) = map id (w_store w).
Proof.
  destruct e as [env|n]; cbn [poll_step].
  - destruct (fire_cases env w) as [->|(task & rest & _ & ->)]; reflexivity.
  - destruct (arrive_cases n w) as [->|(cb & task & rest & c & _ & _ & ->)];
      [reflexivity|]. cbn [w_store]. apply poll_store_ids.
Qed.

Lemma poll_run_ids (events : list PollEvent) :
  forall w, map id (w_store (poll_run w events)) = map id (w_store w).
Proof.
  induction events as [|e events IH]; intros w; [reflexivity|].
  cbn [poll_run fold_left]. change (fold_left poll_step events ?x)
    with (poll_run x events).
  now rewrite IH, poll_step_ids.
Qed.

(** *** A task that is not answered with a terminal status stays pending *)

Lemma poll_store_pending (env : Env) (i : jsstring) (k : nat)
    (task : VideoTask) (tasks : list VideoTask) :
  never_terminal env i ->
  is_pending task = true ->
  pending_in i tasks ->
  pending_in i (poll_store env k task tasks).
Proof.
  intros Hnever Hp Hin.
  destruct (poll_task_store env k task tasks [] []) as [c H].
  exact (poll_task_pending env i k task (mkTick tasks [] []) _ Hnever Hp
           Hin H).
Qed.

(** The callbacks under way hold pending records, and their answers for
    [i] never announce a terminal status. *)
Local Abbreviation quiet i w :=
  (forall cb, In cb (w_inflight w) ->
              never_terminal (cb_env cb) i
              /\ Forall (fun t => is_pending t = true) (cb_todo cb)).

Lemma poll_step_pending (i : jsstring) (w : World) (e : PollEvent) :
  quiet i w ->
  pending_in i (w_store w) ->
  (forall env, e = Fire env -> never_terminal env i) ->
  quiet i (poll_step w e) /\ pending_in i (w_store (poll_step w e)).
Proof.
  intros Hq Hin He. destruct e as [env|n]; cbn [poll_step].
  - destruct (fire_cases env w) as [->|(task & rest & Hp & ->)];
      [now split|].
    cbn [w_store w_inflight]. split; [|assumption].
    intros cb Hcb. apply in_app_or in Hcb. destruct Hcb as [Hcb|[<-|[]]].
    + now apply Hq.
    + cbn [cb_env cb_todo]. split; [now apply He|].
      rewrite <- Hp. apply pendingTasks_pending.
  - destruct (arrive_cases n w)
      as [->|(cb & task & rest & c & Hcb & Htodo & ->)]; [now split|].
    destruct (Hq cb Hcb) as [Hnever Hall]. rewrite Htodo in Hall.
    inversion Hall as [|? ? Htask Hrest]; subst.
    cbn [w_store w_inflight]. split.
    + intros cb' Hcb'. apply put_callback_In in Hcb'.
      destruct Hcb' as [Hcb'|Hcb']; [|now apply Hq].
      destruct rest as [|next rest]; [contradiction|].
      destruct Hcb' as [<-|[]]. cbn [cb_env cb_todo]. now split.
    + now apply poll_store_pending.
Qed.

Lemma fired_In (events : list PollEvent) (env : Env) :
  In (Fire env) events <-> In env (fired events).
Proof.
  induction events as [|[env'|n] events IH]; cbn [fired In].
  - tauto.
  - rewrite <- IH. split; intros [H|H]; auto; left; congruence.
  - rewrite <- IH. split; [intros [H|H]; [discriminate|assumption]|auto].
Qed.

Lemma poll_run_pending (i : jsstring) (events : list PollEvent) :
  forall w,
    quiet i w ->
    pending_in i (w_store w) ->
    (forall env, In env (fired events) -> never_terminal env i) ->
    pending_in i (w_store (poll_run w events)).
Proof.
  induction events as [|e events IH]; intros w Hq Hin Hnever; [assumption|].
  cbn [poll_run fold_left]. change (fold_left poll_step events ?x)
    with (poll_run x events).
  destruct (poll_step_pending i w e Hq Hin) as [Hq' Hin'].
  { intros env ->. apply Hnever. now left. }
  apply IH; try assumption.
  intros env H. apply Hnever. destruct e; [now right|assumption].
Qed.

Lemma fired_firstn (n : nat) (events : list PollEvent) (env : Env) :
  In env (fired (firstn n events)) -> In env (fired events).
Proof.
  rewrite <- !fired_In. intros H.
  rewrite <- (firstn_skipn n events). apply in_or_app. now left.
Qed.

(** *** Every query is for a task that was pending when its callback
    started *)

(** A query for [j] has been sent or is still to be sent. *)
Local Abbreviation due j w :=
  (In j (w_sent w)
   \/ exists cb, In cb (w_inflight w) /\ In j (map id (cb_todo cb))).

Lemma pendingTasks_pending_in (j : jsstring) (tasks : list VideoTask) :
  In j (map id (pendingTasks tasks)) -> pending_in j tasks.
Proof.
  rewrite in_map_iff. intros (t & Hid & Ht). apply filter_In in Ht.
  exists t. tauto.
Qed.

Lemma poll_step_due (j : jsstring) (w : World) (e : PollEvent) :
  due j (poll_step w e) -> due j w \/ pending_in j (w_store w).
Proof.
  destruct e as [env|n]; cbn [poll_step].
  - destruct (fire_cases env w) as [->|(task & rest & Hp & ->)]; [now left|].
    cbn [w_sent w_inflight].
    assert (Hnew : In j (map id (task :: rest)) -> pending_in j (w_store w)).
    { rewrite <- Hp. apply pendingTasks_pending_in. }
    intros [H|(cb & Hcb & Hj)].
    + apply in_app_or in H. destruct H as [H|[<-|[]]]; [now left; left|].
      right. apply Hnew. now left.
    + apply in_app_or in Hcb. destruct Hcb as [Hcb|[<-|[]]].
      * left. right. eauto.
      * right. now apply Hnew.
  - destruct (arrive_cases n w)
      as [->|(cb & task & rest & c & Hcb & Htodo & ->)]; [now left|].
    cbn [w_sent w_inflight].
    assert (Hrest : forall x, In x (map id rest) ->
                              In x (map id (cb_todo cb))).
    { intros x Hx. rewrite Htodo. now right. }
    intros [H|(cb' & Hcb' & Hj)]; left.
    + apply in_app_or in H. destruct H as [H|H]; [now left|].
      right. exists cb. split; [assumption|]. apply Hrest.
      destruct rest as [|next rest]; [contradiction|].
      destruct H as [<-|[]]. now left.
    + apply put_callback_In in Hcb'. destruct Hcb' as [Hcb'|Hcb'].
      * destruct rest as [|next rest]; [contradiction|].
        destruct Hcb' as [<-|[]]. right. exists cb. split; [assumption|].
        now apply Hrest.
      * right. eauto.
Qed.

Lemma poll_run_due (j : jsstring) (events : list PollEvent) :
  forall w,
    due j (poll_run w events) ->
    due j w
    \/ exists n, pending_in j (w_store (poll_run w (firstn n events))).
Proof.
  induction events as [|e events IH]; intros w H; [now left|].
  cbn [poll_run fold_left] in H. change (fold_left poll_step events ?x)
    with (poll_run x events) in H.
  destruct (IH _ H) as [Hd|[n Hn]].
  - destruct (poll_step_due j w e Hd) as [Hw|Hp]; [now left|].
    right. now exists 0%nat.
  - right. now exists (S n).
Qed.

(** *** A task in a terminal status and ticks that run one at a time *)

Lemma poll_store_settled (env : Env) (j : jsstring) (k : nat)
    (task : VideoTask) (tasks : list VideoTask) :
  id task <> j ->
  settled_in j tasks ->
  settled_in j (poll_store env k task tasks).
Proof.
  intros Hid Hs. unfold poll_store.
  destruct (answer env k (id task)) as [res|e]; [|assumption].
  destruct (merge task res (clock env k)) as [u|] eqn:Hm; [|assumption].
  intros t Ht Htj. unfold handleUpdateTask in Ht. apply in_map_iff in Ht.
  destruct Ht as (t0 & E & Ht0).
  destruct (str_eqb (id t0) (id u)).
  - subst t. rewrite (merge_id _ _ _ _ Hm) in Htj. contradiction.
  - subst t. now apply Hs.
Qed.

Lemma poll_stores_settled (env : Env) (j : jsstring) (todo : list VideoTask) :
  forall k tasks,
    Forall (fun t => id t <> j) todo ->
    settled_in j tasks ->
    settled_in j (poll_stores env k todo tasks).
Proof.
  induction todo as [|task rest IH]; intros k tasks Hall Hs; [assumption|].
  inversion Hall; subst. cbn [poll_stores].
  apply IH; [assumption|]. now apply poll_store_settled.
Qed.

Lemma settled_not_pending (j : jsstring) (tasks : list VideoTask) :
  settled_in j tasks -> Forall (fun t => id t <> j) (pendingTasks tasks).
Proof.
  intros Hs. apply Forall_forall. intros t Ht E. apply filter_In in Ht.
  destruct Ht as [Hin Hp]. rewrite (Hs t Hin E) in Hp. discriminate.
Qed.

Lemma store_after_settled (env : Env) (j : jsstring) (tasks : list VideoTask) :
  settled_in j tasks -> settled_in j (store_after env tasks).
Proof.
  intros Hs. rewrite store_after_stores.
  apply poll_stores_settled; [now apply settled_not_pending|assumption].
Qed.

Lemma queries_of_ticks_settled (j : jsstring) (envs : list Env) :
  forall tasks, settled_in j tasks -> ~ In j (queries_of_ticks envs tasks).
Proof.
  induction envs as [|env envs IH]; intros tasks Hs; [intros []|].
  cbn [queries_of_ticks]. rewrite in_app_iff. intros [H|H].
  - rewrite queries_of_pending in H. apply in_map_iff in H.
    destruct H as (t & E & Ht).
    pose proof (settled_not_pending j tasks Hs) as Hall.
    rewrite Forall_forall in Hall. now apply (Hall t Ht).
  - apply (IH (store_after env tasks)); [|assumption].
    now apply store_after_settled.
Qed.


(** ** The completion time *)

Lemma observe_all_stamped (inputs : list (result QueryVideoResponse * Z)) :
  forall task,
    is_pending task = true ->
    completedAt (observe_all task inputs)
    = match first_terminal inputs with
      | Some p => if no_completedAt task
                  then Some (completion_stamp (fst p) (snd p))
                  else completedAt task
      | None => completedAt task
      end
    /\ is_pending (observe_all task inputs)
       = match first_terminal inputs with Some _ => false | None => true end.
Proof.
  induction inputs as [|[[res|e] now] rest IH]; intros task Hp.
  - now split.
  - cbn [observe_all fold_left first_terminal].
    rewrite observe_answer by assumption.
    destruct (announces_terminal res) eqn:Ht.
    + destruct (merge_terminal task res now Hp Ht) as (u & Hm & Hu & Hcu).
      rewrite Hm. fold (observe_all u rest).
      rewrite observe_all_settled by assumption. cbn [fst snd].
      now split.
    + destruct (merge task res now) as [u|] eqn:Hm.
      * destruct (merge_quiet_pending task u res now Hp Ht Hm) as [Hpu Hcu].
        fold (observe_all u rest). destruct (IH u Hpu) as [H1 H2].
        rewrite H1, H2. unfold no_completedAt. rewrite Hcu. now split.
      * now apply IH.
  - cbn [observe_all fold_left first_terminal].
    rewrite observe_throw. now apply IH.
Qed.

Lemma observe_stamp_kept (t : VideoTask)
    (input : result QueryVideoResponse * Z) :
  stamp_kept t (observe t input).
Proof.
  unfold stamp_kept. destruct (is_pending t) eqn:Hp;
    [|rewrite observe_settled by assumption; repeat split; congruence].
  destruct input as [[res|e] now];
    [|rewrite observe_throw; repeat split; congruence].
  rewrite observe_answer by assumption.
  destruct (merge t res now) as [u|] eqn:Hm; [|repeat split; congruence].
  pose proof (merge_completedAt _ _ _ _ Hm) as Hc.
  pose proof (merge_status _ _ _ _ Hm) as Hs.
  repeat split.
  - intros Hset. rewrite Hc, Hset. now rewrite andb_false_r.
  - intros Hu. rewrite pending_not_terminal, Hs in Hu.
    apply negb_true_iff in Hu. now rewrite Hc, Hu.
  - discriminate.
Qed.

Lemma stamp_kept_trans (a b c : VideoTask) :
  stamp_kept a b -> stamp_kept b c -> stamp_kept a c.
Proof.
  intros (A1 & A2 & A3) (B1 & B2 & B3). repeat split.
  - intros H. rewrite <- (A1 H). apply B1.
    unfold no_completedAt in *. now rewrite (A1 H).
  - intros H. destruct (is_pending b) eqn:Hb.
    + now rewrite (B2 H), (A2 eq_refl).
    + rewrite (B3 eq_refl) in H. congruence.
  - intros H. rewrite (A3 H) in *. now apply B3.
Qed.

Lemma observe_each_stamp_kept (env : Env) (tasks : list VideoTask) :
  forall k, Forall2 stamp_kept tasks (observe_each env k tasks).
Proof.
  induction tasks as [|t rest IH]; intros k; cbn [observe_each];
    [constructor|].
  destruct (is_pending t) eqn:Hp; constructor; auto.
  - apply observe_stamp_kept.
  - rewrite <- (observe_settled t (Throw (mkError [] []), 0)) at 2
      by assumption.
    apply observe_stamp_kept.
Qed.

Lemma Forall2_stamp_kept_trans (a b c : list VideoTask) :
  Forall2 stamp_kept a b -> Forall2 stamp_kept b c -> Forall2 stamp_kept a c.
Proof.
  intros Hab. revert c. induction Hab as [|x y a b Hxy _ IH]; intros c Hbc.
  - inversion Hbc. constructor.
  - inversion Hbc as [|? z ? c' Hyz Hrest]; subst.
    constructor; [eapply stamp_kept_trans; eauto|now apply IH].
Qed.

Lemma store_after_ticks_stamp_kept (envs : list Env) :
  forall tasks,
    NoDup (map id tasks) ->
    Forall2 stamp_kept tasks (store_after_ticks envs tasks).
Proof.
  induction envs as [|env envs IH]; intros tasks Hnd.
  - cbn. induction tasks as [|t tasks IHt]; constructor.
    + rewrite <- (observe_throw t (mkError [] []) 0) at 2.
      apply observe_stamp_kept.
    + apply IHt. now inversion Hnd.
  - cbn [store_after_ticks fold_left].
    change (fold_left _ envs ?s) with (store_after_ticks envs s).
    apply (Forall2_stamp_kept_trans _ (store_after env tasks)).
    + rewrite store_after_each by assumption. apply observe_each_stamp_kept.
    + apply IH. now rewrite store_after_ids.
Qed.

Lemma observe_id (t : VideoTask) (input : result QueryVideoResponse * Z) :
  id (observe t input) = id t.
Proof.
  unfold observe. destruct (is_pending t); [|reflexivity].
  destruct (fst input) as [res|e]; [|reflexivity].
  destruct (merge t res (snd input)) as [u|] eqn:Hm; [|reflexivity].
  exact (merge_id _ _ _ _ Hm).
Qed.

Lemma observe_each_nth (env : Env) (tasks : list VideoTask) :
  forall k p t,
    NoDup (map id tasks) ->
    nth_error tasks p = Some t ->
    nth_error (observe_each env k tasks) p
    = Some (observe t (answer env (k + rank_of (id t) tasks) (id t),
                       clock env (k + rank_of (id t) tasks))).
Proof.
  induction tasks as [|t0 rest IH]; intros k p t Hnd Hp;
    [now destruct p|].
  cbn [map] in Hnd. inversion Hnd as [|? ? Hnot Hnd']; subst.
  destruct p as [|p]; cbn [nth_error] in Hp.
  - injection Hp as <-. cbn [rank_of observe_each].
    rewrite StoryboardProps.str_eqb_refl, Nat.add_0_r.
    destruct (is_pending t0) eqn:E; cbn [nth_error]; [reflexivity|].
    now rewrite observe_settled.
  - assert (Hne : str_eqb (id t0) (id t) = false).
    { apply StoryboardProps.str_eqb_neq. intros E. apply Hnot. rewrite E.
      apply in_map. eapply nth_error_In; eauto. }
    cbn [rank_of observe_each]. rewrite Hne.
    destruct (is_pending t0); cbn [nth_error].
    + rewrite (IH (S k) p t Hnd' Hp).
      now replace (S k + rank_of (id t) rest)%nat
        with (k + (1 + rank_of (id t) rest))%nat by lia.
    + rewrite (IH k p t Hnd' Hp). reflexivity.
Qed.

Lemma store_after_ticks_nth (envs : list Env) :
  forall tasks p t,
    NoDup (map id tasks) ->
    nth_error tasks p = Some t ->
    nth_error (store_after_ticks envs tasks) p
    = Some (observe_all t (inputs_for (id t) envs tasks)).
Proof.
  induction envs as [|env envs IH]; intros tasks p t Hnd Hp; [assumption|].
  cbn [store_after_ticks fold_left inputs_for observe_all].
  change (fold_left (fun s env0 => store_after env0 s) envs ?s)
    with (store_after_ticks envs s).
  change (fold_left observe ?l ?x) with (observe_all x l).
  assert (Hnd' : NoDup (map id (store_after env tasks)))
    by now rewrite store_after_ids.
  assert (Hp' : nth_error (store_after env tasks) p
                = Some (observe t (input_at env (id t) tasks))).
  { rewrite store_after_each by assumption.
    now rewrite (observe_each_nth env tasks 0 p t Hnd Hp). }
  rewrite (IH _ p _ Hnd' Hp'). now rewrite observe_id.
Qed.


(** ** Concrete runs *)

Lemma throwing_query_is_contained_witness :
  answer offline 0 (id sample_task) = Throw network_error
  /\ poll_task offline 0 sample_task (mkTick [sample_task] [] [])
     = Ok (mkTick [sample_task] [lit "video_1"]
             [mkLog (lit "Failed to poll task video_1") (Some network_error)]).
Proof.
  assert (H : answer offline 0 (id sample_task) = Throw network_error)
    by reflexivity.
  split; [exact H|].
  exact (proj1 (throwing_query_is_contained offline 0 sample_task []
                  (mkTick [sample_task] [] []) network_error H)).
Defined.





End GalleryProps.
Module ApiServiceProps.

Import ApiService.

Ltac io_step :=
  cbn [bind ret throw lift try_catch console_error fst snd app].

Section WithHost.

Context {host : Host}.

(** ** The error translator *)

Lemma get_not_null (j : json number) (k : jsstring) :
  j <> JNull -> get j k = Ok (get_opt (Some j) k).
Proof. destruct j; cbn; congruence. Qed.

Lemma truthy_some (v : jsval) : truthy v = true -> exists m, v = Some m.
Proof. destruct v; [eauto|discriminate]. Qed.

(** The inner [try]/[catch] always yields a value for [new Error]. *)
Lemma extract_message_value (r : Response) :
  try_catch (extract_message r (text r))
    (fun _ =>
       if truthy_str (text r)
       then ret (JStr (request_failed r ++ excerpt (text r)))
       else ret (JStr (request_failed r)))
  = ([], Ok (error_message_for r)).
Proof.
  unfold extract_message, error_message_for, body_message, fallback_tail.
  destruct (JSON_parse (text r)) as [j|e]; io_step.
  - destruct j; cbn [get get_opt]; io_step;
      try (cbn [truthy]; io_step; reflexivity).
    + (* null *)
      destruct (truthy_str (text r)); [reflexivity|].
      now rewrite app_nil_r.
    + (* object *)
      destruct (truthy (get_opt (lookup (lit "error") members) (lit "message")))
        eqn:E1.
      * destruct (truthy_some _ E1) as [m ->]. reflexivity.
      * io_step.
        destruct (truthy (lookup (lit "message") members)) eqn:E2.
        -- destruct (truthy_some _ E2) as [m ->]. reflexivity.
        -- reflexivity.
  - destruct (truthy_str (text r)); [reflexivity|].
    now rewrite app_nil_r.
Qed.

Lemma throw_Error_spec {A} (m : json number) :
  @throw_Error host A m
  = ([], match ToString m with
         | Ok s => Throw (Error s)
         | Throw e => Throw e
         end).
Proof. unfold throw_Error. now destruct (ToString m). Qed.

(** What [handleFetchError] does with a failed response when the error is
    not a network failure. *)
Lemma handleFetchError_failed (error : option JsError) (r : Response) :
  is_failed_to_fetch error = false ->
  ok r = false ->
  handleFetchError error (Some r)
  = ([mkLog (lit "API Call Error:") error],
     if status r =? 404 then Throw (Error msg_404)
     else match ToString (error_message_for r) with
          | Ok s => Throw (Error s)
          | Throw e => Throw e
          end).
Proof.
  intros Hnet Hok. unfold handleFetchError.
  rewrite Hnet, Hok. cbn [negb]. io_step.
  destruct (status r =? 404); [reflexivity|].
  rewrite extract_message_value. io_step. rewrite throw_Error_spec. reflexivity.
Qed.

(** What [handleFetchError(null, response)] does with a failed response. *)
Lemma handleFetchError_response (r : Response) :
  ok r = false ->
  handleFetchError None (Some r)
  = ([mkLog (lit "API Call Error:") None],
     if status r =? 404 then Throw (Error msg_404)
     else match ToString (error_message_for r) with
          | Ok s => Throw (Error s)
          | Throw e => Throw e
          end).
Proof. intros Hok. now apply handleFetchError_failed. Qed.

Lemma handleFetchError_network (e : JsError) (response : option Response) :
  is_failed_to_fetch (Some e) = true ->
  handleFetchError (Some e) response
  = ([mkLog (lit "API Call Error:") (Some e)], Throw (Error msg_network)).
Proof. intros H. unfold handleFetchError. now rewrite H. Qed.

(** What [handleFetchError(error)] does in a [catch] block. *)
Lemma handleFetchError_caught (e : JsError) :
  handleFetchError (Some e) None
  = ([mkLog (lit "API Call Error:") (Some e)],
     Throw (if is_failed_to_fetch (Some e) then Error msg_network else e)).
Proof. unfold handleFetchError. now destruct (is_failed_to_fetch (Some e)). Qed.

(** The translator never returns. *)
Lemma handleFetchError_throws (error : option JsError) (response : option Response) :
  exists l e, handleFetchError error response = (l, Throw e).
Proof.
  destruct error as [e|].
  - destruct (is_failed_to_fetch (Some e)) eqn:E.
    + rewrite handleFetchError_network by assumption. eauto.
    + destruct response as [r|].
      * destruct (ok r) eqn:Hok.
        -- unfold handleFetchError. rewrite E, Hok. cbn. eauto.
        -- rewrite handleFetchError_failed by assumption.
           destruct (status r =? 404); [eauto|]. destruct (ToString _); eauto.
      * rewrite handleFetchError_caught, E. eauto.
  - destruct response as [r|].
    + destruct (ok r) eqn:Hok.
      * unfold handleFetchError. cbn [is_failed_to_fetch]. rewrite Hok.
        cbn. eauto.
      * rewrite handleFetchError_response by assumption.
        destruct (status r =? 404); [eauto|]. destruct (ToString _); eauto.
    + unfold handleFetchError. cbn. eauto.
Qed.


(** ** Prompt optimisation *)

Lemma snd_bind_ok {A B} (m : io A) (k : A -> io B) (l : list LogEntry) (a : A) :
  m = (l, Ok a) -> snd (bind m k) = snd (k a).
Proof. intros ->. cbn [bind]. now destruct (k a). Qed.

Lemma snd_bind_throw {A B} (m : io A) (k : A -> io B) (e : JsError) :
  snd m = Throw e -> snd (bind m k) = Throw e.
Proof.
  destruct m as [l [a|e']]; cbn; intros H; [discriminate|].
  now injection H as ->.
Qed.

Lemma snd_try_catch {A} (m1 m2 : io A) (h : JsError -> io A) :
  snd m1 = snd m2 -> snd (try_catch m1 h) = snd (try_catch m2 h).
Proof.
  destruct m1 as [l1 [a1|e1]], m2 as [l2 [a2|e2]]; cbn; intros H;
    try discriminate; try assumption.
  injection H as ->. now destruct (h e2).
Qed.

Lemma snd_try_catch_throw {A} (m : io A) (h : JsError -> io A) (e : JsError) :
  snd m = Throw e -> snd (try_catch m h) = snd (h e).
Proof.
  destruct m as [l [a|e']]; cbn; intros H; [discriminate|].
  injection H as ->. now destruct (h e).
Qed.

(** The [catch] block of [optimizePrompt] never reaches its [return]. *)
Lemma optimize_catch_throws (p : jsstring) (e : JsError) :
  exists e',
    snd (bind (handleFetchError (Some e) None)
              (fun _ => ret (JStr p : json number)))
    = Throw e'.
Proof.
  destruct (handleFetchError_throws (Some e) None) as (l & e' & H).
  exists e'. apply snd_bind_throw. now rewrite H.
Qed.

(** Whenever the request fails, [optimizePrompt] rejects. *)
Lemma optimizePrompt_rejects (fetch : Request -> result Response)
    (p : jsstring) (settings : ApiSettings) (mode : OptimizeMode) :
  p <> [] ->
  match fetch (optimize_request p settings mode) with
  | Ok r => ok r = false
  | Throw _ => True
  end ->
  exists e, snd (optimizePrompt fetch p settings mode) = Throw e.
Proof.
  intros Hp Hfail. unfold optimizePrompt.
  destruct p as [|c p]; [congruence|]. cbn [truthy_str negb].
  destruct (fetch _) as [r|e] eqn:Hf.
  - destruct (handleFetchError_throws None (Some r)) as (l & e1 & H1).
    destruct (optimize_catch_throws (c :: p) e1) as (e2 & H2).
    exists e2. rewrite (snd_try_catch_throw _ _ e1); [exact H2|].
    cbn [lift]. erewrite snd_bind_ok by reflexivity.
    apply snd_bind_throw. rewrite Hfail. cbn [negb]. now rewrite H1.
  - destruct (optimize_catch_throws (c :: p) e) as (e2 & H2).
    exists e2. rewrite (snd_try_catch_throw _ _ e); [exact H2|].
    now apply snd_bind_throw.
Qed.

(** ** How the JSON calls end *)

Lemma handleFetchError_rejection (r : Response) :
  ok r = false ->
  snd (handleFetchError None (Some r)) = Throw (rejection_of r).
Proof.
  intros H. rewrite handleFetchError_response by assumption.
  unfold rejection_of. cbn [snd].
  destruct (status r =? 404); [reflexivity|]. now destruct (ToString _).
Qed.

Lemma catch_rethrows (e : JsError) :
  snd (bind (handleFetchError (Some e) None)
            (fun _ => throw e : io (json number)))
  = Throw (rethrown e).
Proof.
  apply snd_bind_throw. now rewrite handleFetchError_caught.
Qed.

(** The body of the [try] block shared by the JSON calls. *)
Lemma try_body_outcome (fetched : result Response) :
  snd (bind (lift fetched)
         (fun response =>
            bind (if negb (ok response)
                  then handleFetchError None (Some response)
                  else ret tt)
                 (fun _ => response_json response)))
  = match fetched with
    | Throw e => Throw e
    | Ok r => if ok r then JSON_parse (text r) else Throw (rejection_of r)
    end.
Proof.
  destruct fetched as [r|e]; [|reflexivity].
  rewrite (snd_bind_ok _ _ [] r) by reflexivity.
  destruct (ok r) eqn:Hok; cbn [negb].
  - rewrite (snd_bind_ok _ _ [] tt) by reflexivity. unfold response_json.
    now destruct (JSON_parse (text r)).
  - apply snd_bind_throw. now apply handleFetchError_rejection.
Qed.

(** The pattern shared by [createVideoTask] and [createCharacter]. *)
Lemma guarded_call (fetched : result Response) :
  snd (try_catch
         (bind (lift fetched)
            (fun response =>
               bind (if negb (ok response)
                     then handleFetchError None (Some response)
                     else ret tt)
                    (fun _ => response_json response)))
         (fun error =>
            bind (handleFetchError (Some error) None)
                 (fun _ => throw error)))
  = outcome_of fetched.
Proof.
  pose proof (try_body_outcome fetched) as Hbody. unfold outcome_of.
  destruct fetched as [r|e].
  - destruct (ok r).
    + destruct (JSON_parse (text r)) as [j|e].
      * destruct (bind _ _) as [l [j'|e']]; cbn in Hbody |- *; congruence.
      * rewrite (snd_try_catch_throw _ _ e Hbody). apply catch_rethrows.
    + rewrite (snd_try_catch_throw _ _ _ Hbody). apply catch_rethrows.
  - rewrite (snd_try_catch_throw _ _ e Hbody). apply catch_rethrows.
Qed.

(** ** Video creation *)

Lemma dataURLtoBlob_total (dataurl : jsstring) :
  exists l b, dataURLtoBlob dataurl = (l, Ok b).
Proof.
  unfold dataURLtoBlob. destruct (atob _); cbn; eauto.
Qed.

Lemma dataURLtoBlob_undecodable (dataurl : jsstring) (e : JsError) :
  atob (nth 1 (split_on 44 dataurl) (lit "undefined")) = Throw e ->
  snd (dataURLtoBlob dataurl) = Ok None.
Proof. intros H. unfold dataURLtoBlob. now rewrite H. Qed.

Lemma image_fields_undecodable (request : CreateVideoRequest)
    (image : jsstring) (others : list jsstring) :
  images request = image :: others ->
  startsWith image (lit "data:") = true ->
  snd (dataURLtoBlob image) = Ok None ->
  exists l, image_fields request = (l, Ok []).
Proof.
  intros Hi Hs Hb. unfold image_fields. rewrite Hi, Hs.
  destruct (dataURLtoBlob image) as [l [b|e]]; cbn in Hb; [|discriminate].
  injection Hb as ->. cbn. eauto.
Qed.

Lemma createVideoTask_form (fetch : Request -> result Response)
    (request : CreateVideoRequest) (settings : ApiSettings)
    (l : list LogEntry) (image : FormData) :
  image_fields request = (l, Ok image) ->
  snd (createVideoTask fetch request settings)
  = snd (try_catch
           (submit fetch settings
              (base_fields request ++ image ++ character_fields request))
           create_catch).
Proof.
  intros H. unfold createVideoTask. apply snd_try_catch.
  exact (snd_bind_ok _
           (fun image0 =>
              submit fetch settings
                (base_fields request ++ image0 ++ character_fields request))
           l image H).
Qed.

Lemma submit_accepted (fetch : Request -> result Response)
    (settings : ApiSettings) (form : FormData) (resp : Response)
    (j : json number) :
  fetch (create_request settings form) = Ok resp ->
  ok resp = true ->
  JSON_parse (text resp) = Ok j ->
  submit fetch settings form = ([], Ok j).
Proof.
  intros Hf Hok Hj. unfold submit, response_json. rewrite Hf.
  cbn [lift bind]. rewrite Hok, Hj. reflexivity.
Qed.

Lemma create_request_job (settings : ApiSettings)
    (request : CreateVideoRequest) (reference : FormData) :
  create_request settings
    (base_fields request ++ reference ++ character_fields request)
  = job_request settings (job_form request reference).
Proof.
  unfold create_request, job_request, job_form, base_fields,
    character_fields, optional_field.
  destruct (character_url request) as [[|c u]|];
    destruct (character_timestamps request) as [[|c' t]|]; reflexivity.
Qed.

Lemma createVideoTask_outcome (fetch : Request -> result Response)
    (request : CreateVideoRequest) (settings : ApiSettings)
    (l : list LogEntry) (reference : FormData) :
  image_fields request = (l, Ok reference) ->
  snd (createVideoTask fetch request settings)
  = outcome_of (fetch (job_request settings (job_form request reference))).
Proof.
  intros H. rewrite (createVideoTask_form fetch request settings l _ H).
  rewrite <- create_request_job. unfold submit, create_catch.
  apply guarded_call.
Qed.

(** C10.  When the first image of a request is a data URL that
    [dataURLtoBlob] turns into [null], [createVideoTask] makes its one
    request all the same: a POST to the video endpoint with the bearer
    token whose form holds the model, the prompt, the seconds, the size,
    the watermark flag and the character entries of the request, and no
    [input_reference]; the call ends as that request does, so it resolves
    with the parsed body when the service accepts the job, exactly as for
    the same request without images.  An image that is not a data URL is
    sent as it is under [input_reference], between the watermark flag and
    the character entries.  [dataURLtoBlob] itself never throws: a payload
    [atob] rejects makes it return [null]. *)
Theorem undecodable_image_is_left_out :
  forall (fetch : Request -> result Response) (request : CreateVideoRequest)
         (settings : ApiSettings) (image : jsstring) (others : list jsstring),
    images request = image :: others ->
    (startsWith image (lit "data:") = true ->
     snd (dataURLtoBlob image) = Ok None ->
     snd (image_fields request) = Ok []
     /\ snd (createVideoTask fetch request settings)
        = outcome_of (fetch (job_request settings (job_form request [])))
     /\ snd (createVideoTask fetch request settings)
        = snd (createVideoTask fetch (without_images request) settings)
     /\ (forall resp j,
           fetch (job_request settings (job_form request [])) = Ok resp ->
           ok resp = true ->
           JSON_parse (text resp) = Ok j ->
           snd (createVideoTask fetch request settings) = Ok j)
     /\ (forall e,
           fetch (job_request settings (job_form request [])) = Throw e ->
           snd (createVideoTask fetch request settings) = Throw (rethrown e)))
    /\ (startsWith image (lit "data:") = false ->
        createVideoTask fetch request settings
        = try_catch
            (submit fetch settings
               (base_fields request
                ++ [(lit "input_reference", FText image)]
                ++ character_fields request))
            create_catch
        /\ snd (createVideoTask fetch request settings)
           = outcome_of
               (fetch (job_request settings
                         (job_form request
                            [(lit "input_reference", FText image)]))))
    /\ (exists l b, dataURLtoBlob image = (l, Ok b))
    /\ (forall e,
          atob (nth 1 (split_on 44 image) (lit "undefined")) = Throw e ->
          snd (dataURLtoBlob image) = Ok None)
    /\ map fst (job_form request [])
       = [lit "model"; lit "prompt"; lit "seconds"; lit "size"; lit "watermark"]
         ++ map fst (character_fields request).
Proof.
  intros fetch request settings image others Hi. repeat apply conj.
  - intros Hs Hb.
    destruct (image_fields_undecodable request image others Hi Hs Hb) as [l Hl].
    pose proof (createVideoTask_outcome fetch request settings l [] Hl)
      as Hout.
    repeat apply conj.
    + now rewrite Hl.
    + exact Hout.
    + rewrite Hout. symmetry.
      exact (createVideoTask_outcome fetch (without_images request) settings
               [] [] eq_refl).
    + intros resp j Hf Hok Hj. rewrite Hout, Hf. cbn [outcome_of].
      now rewrite Hok, Hj.
    + intros e Hf. now rewrite Hout, Hf.
  - intros Hs. split.
    + unfold createVideoTask, image_fields. rewrite Hi, Hs.
      cbn [ret bind]. now destruct (submit _ _ _).
    + apply (createVideoTask_outcome fetch request settings []).
      unfold image_fields. now rewrite Hi, Hs.
  - apply dataURLtoBlob_total.
  - apply dataURLtoBlob_undecodable.
  - unfold job_form, character_fields, optional_field.
    destruct (character_url request) as [[|c u]|];
      destruct (character_timestamps request) as [[|c' t]|]; reflexivity.
Qed.

End WithHost.

(** ** Concrete runs *)

(** C1, at the failing input.  With the prompt "a cat" in single-prompt
    mode, a service that answers HTTP 500 makes [optimizePrompt] reject
    with "Request failed: 500", and a network failure makes it reject with
    the connectivity hint; in neither case is "a cat" returned. *)
Theorem optimizePrompt_rejects_instead_of_falling_back :
  optimizePrompt (host := sample_host) always_500 (lit "a cat")
    sample_settings mode_text
  = ([mkLog (lit "API Call Error:") None;
      mkLog (lit "API Call Error:") (Some (Error (lit "Request failed: 500")))],
     Throw (Error (lit "Request failed: 500")))
  /\ optimizePrompt (host := sample_host) unreachable (lit "a cat")
       sample_settings mode_text
     = ([mkLog (lit "API Call Error:") (Some failed_to_fetch)],
        Throw (Error msg_network)).
Proof. split; vm_compute; reflexivity. Qed.


Lemma undecodable_image_is_left_out_witness :
  images broken_image_request = [lit "data:image/png;base64,@@@"]
  /\ startsWith (lit "data:image/png;base64,@@@") (lit "data:") = true
  /\ snd (dataURLtoBlob (host := sample_host) (lit "data:image/png;base64,@@@"))
     = Ok None
  /\ accepts
       (mkRequest (lit "https://www.vivaapi.cn/v1/videos") (lit "POST")
          [(lit "Authorization", lit "Bearer sk-test");
           (lit "Accept", lit "application/json")]
          (FormBody [(lit "model", FText (lit "sora-2"));
                     (lit "prompt", FText (lit "a cat"));
                     (lit "seconds", FText (lit "10"));
                     (lit "size", FText (lit "9x16"));
                     (lit "watermark", FText (lit "false"))]))
     = Ok (mkResponse 200 (dq "{'id':'video_1','status':'pending'}"))
  /\ snd (createVideoTask (host := sample_host) accepts broken_image_request
            sample_settings)
     = Ok (JObj [(lit "id", JStr (lit "video_1"));
                 (lit "status", JStr (lit "pending"))]).
Proof.
  assert (H1 : images broken_image_request = [lit "data:image/png;base64,@@@"])
    by reflexivity.
  assert (H2 : startsWith (lit "data:image/png;base64,@@@") (lit "data:") = true)
    by reflexivity.
  assert (H3 : snd (dataURLtoBlob (host := sample_host)
                      (lit "data:image/png;base64,@@@")) = Ok None)
    by (vm_compute; reflexivity).
  refine (conj H1 (conj H2 (conj H3 (conj eq_refl _)))).
  exact (proj1 (proj2 (proj2 (proj2
           (proj1 (undecodable_image_is_left_out (host := sample_host) accepts
                     broken_image_request sample_settings _ [] H1) H2 H3))))
           (mkResponse 200 (dq "{'id':'video_1','status':'pending'}"))
           (JObj [(lit "id", JStr (lit "video_1"));
                  (lit "status", JStr (lit "pending"))])
           eq_refl eq_refl eq_refl).
Defined.

End ApiServiceProps.
Module ApiServiceExtra.

Import ApiService.
Import ApiServiceProps.

(** ** Joining the base URL and the endpoint *)

Lemma strip_leading_spec (s : jsstring) :
  exists m, s = repeat 47%N m ++ strip_leading_slashes s
            /\ forall e, strip_leading_slashes s <> 47%N :: e.
Proof.
  induction s as [|c s IH]; cbn [strip_leading_slashes].
  - exists O. split; [reflexivity|discriminate].
  - destruct (N.eqb_spec c 47) as [->|Hc].
    + destruct IH as (m & Hs & Hne). exists (S m). split; [|exact Hne].
      cbn [repeat app]. now rewrite <- Hs.
    + exists O. split; [reflexivity|]. intros e H. congruence.
Qed.

Lemma strip_leading_repeat (m : nat) (s : jsstring) :
  strip_leading_slashes (repeat 47%N m ++ s) = strip_leading_slashes s.
Proof. induction m; cbn; auto. Qed.

Lemma rev_repeat (c : N) (n : nat) : rev (repeat c n) = repeat c n.
Proof.
  induction n as [|n IH]; [reflexivity|].
  cbn [repeat rev]. rewrite IH. symmetry. apply repeat_cons.
Qed.

(** X1.  [buildUrl] drops every slash at the end of the base and at the
    start of the endpoint and puts exactly one between them: the result
    does not depend on how many such slashes were written. *)
Theorem buildUrl_one_slash :
  forall (base endpoint : jsstring),
    (exists b e n m,
        base = b ++ repeat 47%N n
        /\ endpoint = repeat 47%N m ++ e
        /\ buildUrl base endpoint = b ++ [47%N] ++ e
        /\ (forall b', b <> b' ++ [47%N])
        /\ (forall e', e <> 47%N :: e'))
    /\ (forall n m,
          buildUrl (base ++ repeat 47%N n) (repeat 47%N m ++ endpoint)
          = buildUrl base endpoint).
Proof.
  intros base endpoint. split.
  - destruct (strip_leading_spec endpoint) as (m & He & Hne).
    destruct (strip_leading_spec (rev base)) as (n & Hb & Hnb).
    exists (rev (strip_leading_slashes (rev base))),
           (strip_leading_slashes endpoint), n, m.
    repeat apply conj.
    + rewrite <- (rev_involutive base) at 1. rewrite Hb at 1.
      now rewrite rev_app_distr, rev_repeat.
    + exact He.
    + reflexivity.
    + intros b' H. apply (f_equal (@rev N)) in H.
      rewrite rev_involutive, rev_app_distr in H. cbn in H.
      now apply Hnb in H.
    + exact Hne.
  - intros n m. unfold buildUrl.
    rewrite rev_app_distr, rev_repeat, !strip_leading_repeat. reflexivity.
Qed.

Section WithHost.

Context {host : Host}.

(** ** Data URLs *)

Lemma split_on_absent (c : N) (s : jsstring) :
  ~ In c s -> split_on c s = [s].
Proof.
  induction s as [|x s IH]; cbn [split_on]; intros Hn; [reflexivity|].
  destruct (N.eqb_spec x c) as [->|Hx]; [exfalso; apply Hn; now left|].
  rewrite IH; [reflexivity|]. intros H. apply Hn. now right.
Qed.

Lemma split_on_once (c : N) (a b : jsstring) :
  ~ In c a -> ~ In c b -> split_on c (a ++ c :: b) = [a; b].
Proof.
  intros Ha Hb. induction a as [|x a IH]; cbn [split_on app].
  - rewrite N.eqb_refl. now rewrite split_on_absent.
  - destruct (N.eqb_spec x c) as [->|Hx]; [exfalso; apply Ha; now left|].
    rewrite IH; [reflexivity|]. intros H. apply Ha. now right.
Qed.

Lemma until_semicolon_found (g rest : jsstring) :
  Forall (fun c => c <> 59%N /\ is_line_terminator c = false) g ->
  until_semicolon (g ++ 59%N :: rest) = Some g.
Proof.
  induction 1 as [|c g [Hc Hl] Hg IH]; cbn [until_semicolon app].
  - reflexivity.
  - apply N.eqb_neq in Hc. now rewrite Hc, Hl, IH.
Qed.

Lemma match_mime_data (g rest : jsstring) :
  Forall (fun c => c <> 59%N /\ is_line_terminator c = false) g ->
  match_mime (lit "data:" ++ g ++ 59%N :: rest) = Some g.
Proof.
  intros Hg. change (lit "data:" ++ g ++ 59%N :: rest)
    with (100 :: 97 :: 116 :: 97 :: 58 :: (g ++ 59 :: rest))%N.
  cbn [match_mime N.eqb Pos.eqb]. now rewrite until_semicolon_found.
Qed.

(** X2.  A data URL "data:<mime>;base64,<payload>" whose payload [atob]
    accepts becomes a blob whose bytes are the character codes [atob]
    returned, reduced modulo 256, and nothing is written to the console.
    Its type is the declared mime type in lower case when that is made of
    the characters U+0020 to U+007E, hence the declared type itself when
    this has no capital letter either; with any other character the blob
    has no type. *)
Theorem dataURLtoBlob_decodes :
  forall (mime payload bstr : jsstring),
    Forall (fun c => c <> 59%N /\ c <> 44%N /\ is_line_terminator c = false)
           mime ->
    ~ In 44%N payload ->
    atob payload = Ok bstr ->
    exists type,
      dataURLtoBlob (lit "data:" ++ mime ++ lit ";base64," ++ payload)
      = ([], Ok (Some (mkBlob (map (fun c => (c mod 256)%N) bstr) type)))
      /\ List.length (map (fun c => (c mod 256)%N) bstr) = List.length bstr
      /\ (Forall (fun c => (32 <= c <= 126)%N) mime ->
          type = map ascii_lower mime)
      /\ (Forall (fun c => (32 <= c <= 126)%N /\ ~ (65 <= c <= 90)%N) mime ->
          type = mime)
      /\ ((exists c, In c mime /\ ~ (32 <= c <= 126)%N) -> type = []).
Proof.
  intros mime payload bstr Hmime Hpay Hatob.
  set (header := lit "data:" ++ mime ++ lit ";base64").
  assert (Hurl : lit "data:" ++ mime ++ lit ";base64," ++ payload
                 = header ++ 44%N :: payload).
  { unfold header. rewrite <- !app_assoc. reflexivity. }
  assert (Hcomma : ~ In 44%N header).
  { unfold header. rewrite !in_app_iff. intros [H|[H|H]].
    - cbn in H. intuition discriminate.
    - rewrite Forall_forall in Hmime. apply Hmime in H. tauto.
    - cbn in H. intuition discriminate. }
  assert (Hrun : dataURLtoBlob (lit "data:" ++ mime ++ lit ";base64," ++ payload)
                 = ([], Ok (Some (new_Blob (map (fun c => (c mod 256)%N) bstr)
                                    mime)))).
  { unfold dataURLtoBlob. rewrite Hurl, split_on_once by assumption.
    cbn [nth]. rewrite Hatob. unfold header.
    change (lit ";base64") with (59 :: lit "base64")%N.
    rewrite match_mime_data.
    - reflexivity.
    - eapply Forall_impl; [|exact Hmime]. cbn. tauto. }
  exists (blob_type (new_Blob (map (fun c => (c mod 256)%N) bstr) mime)).
  split; [exact Hrun|]. split; [apply length_map|].
  unfold new_Blob. cbn [blob_type].
  assert (Hall : Forall (fun c => (32 <= c <= 126)%N) mime ->
                 forallb printable mime = true).
  { intros H. apply forallb_forall. rewrite Forall_forall in H.
    intros c Hc. apply H in Hc. unfold printable.
    apply andb_true_intro. split; apply N.leb_le; lia. }
  repeat split.
  - intros H. now rewrite (Hall H).
  - intros H. rewrite Hall by (eapply Forall_impl; [|exact H]; cbn; tauto).
    clear -H. induction H as [|c mime [Hc Hup] _ IH]; [reflexivity|].
    cbn [map]. rewrite IH. f_equal. unfold ascii_lower.
    destruct (N.leb_spec 65 c), (N.leb_spec c 90); cbn [andb]; try reflexivity.
    exfalso. apply Hup. lia.
  - intros (c & Hc & Hout).
    destruct (forallb printable mime) eqn:E; [|reflexivity].
    exfalso. apply Hout. rewrite forallb_forall in E. apply E in Hc.
    unfold printable in Hc. apply andb_prop in Hc. destruct Hc as [H1 H2].
    apply N.leb_le in H1. apply N.leb_le in H2. lia.
Qed.

(** ** How the JSON calls end *)

Lemma image_fields_total (request : CreateVideoRequest) :
  exists l image, image_fields request = (l, Ok image).
Proof.
  unfold image_fields.
  destruct (images request) as [|img others]; [do 2 eexists; reflexivity|].
  destruct (startsWith img (lit "data:")); [|do 2 eexists; reflexivity].
  destruct (dataURLtoBlob_total img) as (l & b & ->).
  destruct b; do 2 eexists; reflexivity.
Qed.

Lemma rethrown_Error (msg : jsstring) : rethrown (Error msg) = Error msg.
Proof. reflexivity. Qed.

(** X3.  [createCharacter] and [createVideoTask] make one request and end
    as that request does: they resolve, with the parsed body, exactly when
    the response has a 2xx status and a body that parses; a network
    failure rejects with the connectivity hint, a 404 with the
    configuration hint, any other failed response with the error the
    translator makes of it. *)
Theorem json_calls_end_as_their_request :
  forall (fetch : Request -> result Response) (settings : ApiSettings),
    (forall request,
        snd (createCharacter fetch request settings)
        = outcome_of (fetch (character_request request settings)))
    /\ (forall request,
          exists l image,
            image_fields request = (l, Ok image)
            /\ snd (createVideoTask fetch request settings)
               = outcome_of
                   (fetch (create_request settings
                             (base_fields request ++ image
                              ++ character_fields request))))
    /\ (forall fetched j,
          outcome_of fetched = Ok j
          <-> exists r, fetched = Ok r /\ ok r = true
                        /\ JSON_parse (text r) = Ok j)
    /\ outcome_of (Throw failed_to_fetch) = Throw (Error msg_network)
    /\ (forall r, status r = 404 ->
                  outcome_of (Ok r) = Throw (Error msg_404))
    /\ (forall r s,
          ok r = false -> status r <> 404 ->
          body_message (text r) = Some (JStr s) ->
          outcome_of (Ok r) = Throw (Error s)).
Proof.
  intros fetch settings. repeat apply conj.
  - intros request. unfold createCharacter. apply guarded_call.
  - intros request. destruct (image_fields_total request) as (l & image & Hi).
    exists l, image. split; [assumption|].
    rewrite (createVideoTask_form fetch request settings l image Hi).
    unfold submit, create_catch. apply guarded_call.
  - intros fetched j. unfold outcome_of. split.
    + destruct fetched as [r|e]; [|discriminate].
      destruct (ok r) eqn:Hok; [|discriminate].
      destruct (JSON_parse (text r)) as [j'|e] eqn:Hj; [|discriminate].
      intros H. injection H as ->. eauto.
    + intros (r & -> & Hok & Hj). now rewrite Hok, Hj.
  - reflexivity.
  - intros r H. unfold outcome_of, ok, rejection_of. rewrite H. reflexivity.
  - intros r s Hok Hn Hb. unfold outcome_of, rejection_of, error_message_for.
    apply Z.eqb_neq in Hn. now rewrite Hok, Hn, Hb.
Qed.

(** X4.  [queryVideoTask] does not translate what it catches: a rejection
    of [fetch] is thrown again as it is, and written to the console unless
    its message contains "NetworkError"; a failed response is thrown as the
    translator's error; the call resolves exactly on a 2xx response whose
    body parses. *)
Theorem queryVideoTask_rethrows :
  forall (fetch : Request -> result Response) (taskId : jsstring)
         (settings : ApiSettings),
    (forall e,
        fetch (query_request taskId settings) = Throw e ->
        queryVideoTask fetch taskId settings
        = (if includes (message e) (lit "NetworkError") then []
           else [mkLog (lit "Error querying video task:") (Some e)],
           Throw e))
    /\ (forall r,
          fetch (query_request taskId settings) = Ok r ->
          ok r = false ->
          snd (queryVideoTask fetch taskId settings) = Throw (rejection_of r))
    /\ (forall j,
          snd (queryVideoTask fetch taskId settings) = Ok j
          <-> exists r, fetch (query_request taskId settings) = Ok r
                        /\ ok r = true /\ JSON_parse (text r) = Ok j).
Proof.
  intros fetch taskId settings.
  assert (Hcatch : forall e,
    snd (bind (if includes (message e) (lit "NetworkError")
               then ret tt
               else console_error (lit "Error querying video task:") (Some e))
              (fun _ => throw e : io (json number)))
    = Throw e).
  { intros e. now destruct (includes _ _). }
  repeat apply conj.
  - intros e He. unfold queryVideoTask. rewrite He.
    cbn [lift bind try_catch]. now destruct (includes _ _).
  - intros r Hr Hok. unfold queryVideoTask.
    pose proof (try_body_outcome (fetch (query_request taskId settings)))
      as Hbody.
    rewrite Hr, Hok in Hbody. rewrite Hr.
    rewrite (snd_try_catch_throw _ _ _ Hbody). apply Hcatch.
  - intros j. unfold queryVideoTask.
    pose proof (try_body_outcome (fetch (query_request taskId settings)))
      as Hbody.
    destruct (fetch (query_request taskId settings)) as [r|e] eqn:Hf.
    + destruct (ok r) eqn:Hok.
      * destruct (JSON_parse (text r)) as [j'|e] eqn:Hj.
        -- assert (Hres : snd (try_catch
                     (bind (lift (Ok r))
                        (fun response =>
                           bind (if negb (ok response)
                                 then handleFetchError None (Some response)
                                 else ret tt)
                                (fun _ => response_json response)))
                     (fun error =>
                        bind (if includes (message error) (lit "NetworkError")
                              then ret tt
                              else console_error
                                     (lit "Error querying video task:")
                                     (Some error))
                             (fun _ => throw error))) = Ok j').
           { destruct (bind _ _) as [l [j0|e0]]; cbn in Hbody |- *;
               congruence. }
           rewrite Hres. split.
           ++ intros H. injection H as ->. eauto.
           ++ intros (r' & Hr' & _ & Hj'). injection Hr' as <-. congruence.
        -- rewrite (snd_try_catch_throw _ _ e Hbody), Hcatch.
           split; [discriminate|].
           intros (r' & Hr' & _ & Hj'). injection Hr' as <-. congruence.
      * rewrite (snd_try_catch_throw _ _ _ Hbody), Hcatch.
        split; [discriminate|].
        intros (r' & Hr' & Hok' & _). injection Hr' as <-. congruence.
    + rewrite (snd_try_catch_throw _ _ e Hbody), Hcatch.
      split; [discriminate|]. intros (r' & Hr' & _). discriminate.
Qed.

(** X5.  On a 2xx response whose body parses to something other than
    [null], [optimizePrompt] resolves: to [choices[0].message.content] when
    that is truthy and to the prompt it was given otherwise.  An empty
    prompt resolves to the empty string whatever the network does. *)
Theorem optimizePrompt_resolves :
  forall (fetch : Request -> result Response) (p : jsstring)
         (settings : ApiSettings) (mode : OptimizeMode) (r : Response)
         (data : json number),
    p <> [] ->
    fetch (optimize_request p settings mode) = Ok r ->
    ok r = true ->
    JSON_parse (text r) = Ok data ->
    data <> JNull ->
    (forall c, completion_content data = Some c -> truthy (Some c) = true ->
               optimizePrompt fetch p settings mode = ([], Ok c))
    /\ (truthy (completion_content data) = false ->
        optimizePrompt fetch p settings mode = ([], Ok (JStr p)))
    /\ (forall fetch' settings' mode',
          optimizePrompt fetch' [] settings' mode' = ([], Ok (JStr []))).
Proof.
  intros fetch p settings mode r data Hp Hf Hok Hj Hnull.
  assert (Hrun : optimizePrompt fetch p settings mode
                 = ([], Ok (if truthy (completion_content data)
                            then match completion_content data with
                                 | Some c => c
                                 | None => JStr p
                                 end
                            else JStr p))).
  { unfold optimizePrompt, response_json, completion_content.
    destruct p as [|c0 p]; [congruence|]. cbn [truthy_str negb].
    rewrite Hf. cbn [lift bind]. rewrite Hok. cbn [negb ret bind app].
    rewrite Hj. rewrite (get_not_null data _ Hnull). cbn [bind app].
    destruct (truthy _) eqn:Ht.
    - destruct (truthy_some _ Ht) as [m Hm]. rewrite Hm. reflexivity.
    - reflexivity. }
  repeat apply conj.
  - intros c Hc Ht. rewrite Hrun, Hc, Ht. reflexivity.
  - intros Ht. rewrite Hrun, Ht. reflexivity.
  - reflexivity.
Qed.

End WithHost.

(** ** Concrete runs *)

Lemma dataURLtoBlob_decodes_witness :
  Forall (fun c => c <> 59%N /\ c <> 44%N /\ is_line_terminator c = false)
         (lit "IMAGE/png")
  /\ ~ In 44%N (lit "aGk=")
  /\ atob (Host := sample_host) (lit "aGk=") = Ok (lit "hi")
  /\ exists type,
       dataURLtoBlob (host := sample_host) (lit "data:IMAGE/png;base64,aGk=")
       = ([], Ok (Some (mkBlob [104; 105]%N type)))
       /\ type = lit "image/png".
Proof.
  assert (H1 : Forall (fun c => c <> 59%N /\ c <> 44%N
                                /\ is_line_terminator c = false)
                      (lit "IMAGE/png")).
  { repeat constructor; discriminate. }
  assert (H2 : ~ In 44%N (lit "aGk=")).
  { cbn. intuition discriminate. }
  assert (H3 : atob (Host := sample_host) (lit "aGk=") = Ok (lit "hi"))
    by reflexivity.
  refine (conj H1 (conj H2 (conj H3 _))).
  destruct (dataURLtoBlob_decodes (host := sample_host)
              (lit "IMAGE/png") (lit "aGk=") (lit "hi") H1 H2 H3)
    as (type & Hrun & _ & Hlower & _).
  exists type. split; [exact Hrun|].
  apply Hlower. repeat constructor; cbn; lia.
Defined.

Lemma optimizePrompt_resolves_witness :
  lit "a cat" <> []
  /\ ok (mkResponse 200 (dq "{'id':'video_1','status':'pending'}")) = true
  /\ optimizePrompt (host := sample_host) accepts (lit "a cat")
       sample_settings mode_text
     = ([], Ok (JStr (lit "a cat"))).
Proof.
  assert (H1 : lit "a cat" <> []) by discriminate.
  assert (H2 : ok (mkResponse 200 (dq "{'id':'video_1','status':'pending'}"))
               = true) by reflexivity.
  refine (conj H1 (conj H2 _)).
  refine (proj1 (proj2 (optimizePrompt_resolves (host := sample_host) accepts
                          (lit "a cat") sample_settings mode_text _ _
                          H1 eq_refl H2 eq_refl _)) _).
  - discriminate.
  - reflexivity.
Defined.

Lemma buildUrl_one_slash_witness :
  buildUrl (lit "https://www.vivaapi.cn" ++ repeat 47%N 2)
           (repeat 47%N 2 ++ lit "v1/videos")
  = lit "https://www.vivaapi.cn/v1/videos".
Proof.
  exact (proj2 (buildUrl_one_slash (lit "https://www.vivaapi.cn")
                  (lit "v1/videos")) 2%nat 2%nat).
Defined.

Lemma json_calls_end_as_their_request_witness :
  status (mkResponse 404 []) = 404
  /\ outcome_of (host := sample_host) (Ok (mkResponse 404 []))
     = Throw (Error msg_404).
Proof.
  assert (H : status (mkResponse 404 []) = 404) by reflexivity.
  refine (conj H _).
  exact (proj1 (proj2 (proj2 (proj2 (proj2
           (json_calls_end_as_their_request (host := sample_host)
              unreachable sample_settings)))))
           (mkResponse 404 []) H).
Defined.

Lemma queryVideoTask_rethrows_witness :
  unreachable (query_request (lit "video_1") sample_settings)
  = Throw failed_to_fetch
  /\ queryVideoTask (host := sample_host) unreachable (lit "video_1")
       sample_settings
     = ([mkLog (lit "Error querying video task:") (Some failed_to_fetch)],
        Throw failed_to_fetch).
Proof.
  assert (H : unreachable (query_request (lit "video_1") sample_settings)
              = Throw failed_to_fetch) by reflexivity.
  refine (conj H _).
  exact (proj1 (queryVideoTask_rethrows (host := sample_host) unreachable
                  (lit "video_1") sample_settings) failed_to_fetch H).
Defined.

End ApiServiceExtra.

(* ===================================================================== *)
(** * Facts about the string helpers                                      *)
(* ===================================================================== *)

Module JsFacts.

Lemma trimStart_prefix (s : jsstring) :
  exists a, s = a ++ trimStart s.
Proof.
  induction s as [|c s [a Ha]]; [now exists []|]. cbn [trimStart].
  destruct (is_white_space c).
  - exists (c :: a). cbn. now rewrite <- Ha.
  - now exists [].
Qed.

Lemma trimStart_head (s : jsstring) :
  trimStart s = []
  \/ exists c r, trimStart s = c :: r /\ is_white_space c = false.
Proof.
  induction s as [|c s IH]; [now left|]. cbn [trimStart].
  destruct (is_white_space c) eqn:E; [exact IH|]. right. eauto.
Qed.

Lemma trimStart_fixed (c : N) (r : jsstring) :
  is_white_space c = false -> trimStart (c :: r) = c :: r.
Proof. intros H. cbn [trimStart]. now rewrite H. Qed.

Lemma trimStart_idem (s : jsstring) : trimStart (trimStart s) = trimStart s.
Proof.
  destruct (trimStart_head s) as [->|(c & r & -> & H)]; [reflexivity|].
  now apply trimStart_fixed.
Qed.

Lemma trimStart_snoc (l : jsstring) (c : N) :
  is_white_space c = false -> trimStart (l ++ [c]) = trimStart l ++ [c].
Proof.
  intros H. induction l as [|x l IH]; cbn [app trimStart].
  - now rewrite H.
  - now destruct (is_white_space x).
Qed.

Lemma trimEnd_cons (c : N) (r : jsstring) :
  is_white_space c = false -> trimEnd (c :: r) = c :: trimEnd r.
Proof.
  intros H. unfold trimEnd. cbn [rev].
  now rewrite trimStart_snoc, rev_app_distr.
Qed.

Lemma trimEnd_idem (s : jsstring) : trimEnd (trimEnd s) = trimEnd s.
Proof. unfold trimEnd. now rewrite rev_involutive, trimStart_idem. Qed.

Lemma trimEnd_suffix (s : jsstring) : exists b, s = trimEnd s ++ b.
Proof.
  destruct (trimStart_prefix (rev s)) as [a Ha]. exists (rev a).
  unfold trimEnd. rewrite <- rev_app_distr, <- Ha. now rewrite rev_involutive.
Qed.

(** [trim] keeps nothing, or keeps the first character that is not white
    space and what follows it up to the last such character. *)
Lemma trim_cases (s : jsstring) :
  (trimStart s = [] /\ trim s = [])
  \/ exists c r, trimStart s = c :: r /\ is_white_space c = false
                 /\ trim s = c :: trimEnd r.
Proof.
  unfold trim. destruct (trimStart_head s) as [->|(c & r & -> & H)].
  - now left.
  - right. exists c, r. repeat split; [assumption|]. now apply trimEnd_cons.
Qed.

Lemma trim_head (c : N) (r : jsstring) :
  is_white_space c = false -> trim (c :: r) = c :: trimEnd r.
Proof.
  intros H. unfold trim. rewrite trimStart_fixed by assumption.
  now apply trimEnd_cons.
Qed.

Lemma trim_idem (s : jsstring) : trim (trim s) = trim s.
Proof.
  destruct (trim_cases s) as [[_ ->]|(c & r & _ & H & ->)]; [reflexivity|].
  rewrite trim_head by assumption. now rewrite trimEnd_idem.
Qed.

Lemma trimStart_nil_iff (s : jsstring) :
  trimStart s = [] <-> Forall (fun c => is_white_space c = true) s.
Proof.
  induction s as [|c s IH]; cbn [trimStart].
  - split; [constructor|reflexivity].
  - destruct (is_white_space c) eqn:E.
    + rewrite IH. split; [now constructor|]. intros H. now inversion H.
    + split; [discriminate|]. intros H. inversion H. congruence.
Qed.

(** [trim] leaves something exactly when the string has a character that
    is not white space. *)
Lemma trim_nonempty_iff (s : jsstring) :
  trim s <> [] <-> exists c, In c s /\ is_white_space c = false.
Proof.
  split.
  - intros H. destruct (trim_cases s) as [[_ E]|(c & r & Hs & Hc & _)];
      [congruence|].
    exists c. split; [|assumption].
    destruct (trimStart_prefix s) as [a Ha]. rewrite Ha, Hs.
    apply in_or_app. right. now left.
  - intros (c & Hin & Hc).
    destruct (trim_cases s) as [[E _]|(c' & r & _ & _ & ->)]; [|discriminate].
    apply trimStart_nil_iff in E. rewrite Forall_forall in E.
    apply E in Hin. congruence.
Qed.

(** What [trim] keeps is a contiguous part of the string. *)
Lemma trim_substring (s : jsstring) : exists a b, s = a ++ trim s ++ b.
Proof.
  destruct (trimStart_prefix s) as [a Ha].
  destruct (trimEnd_suffix (trimStart s)) as [b Hb].
  exists a, b. unfold trim. now rewrite <- Hb.
Qed.

Lemma startsWith_app (p b : jsstring) : startsWith (p ++ b) p = true.
Proof.
  induction p as [|x p IH]; [now destruct b|].
  cbn [app startsWith]. now rewrite N.eqb_refl.
Qed.

Lemma includes_unfold (s p : jsstring) :
  includes s p
  = startsWith s p || match s with [] => false | _ :: s' => includes s' p end.
Proof. now destruct s. Qed.

Lemma includes_app (a p b : jsstring) : includes (a ++ p ++ b) p = true.
Proof.
  induction a as [|x a IH].
  - cbn [app]. rewrite includes_unfold, startsWith_app. reflexivity.
  - cbn [app]. rewrite includes_unfold, IH. apply orb_true_r.
Qed.

(** A numeral is written with decimal digits and at most a minus sign. *)
Lemma uint_chars (u : Decimal.uint) :
  Forall (fun c => (48 <= c <= 57)%N) (lit (NilEmpty.string_of_uint u)).
Proof.
  induction u; cbn [NilEmpty.string_of_uint]; [constructor|..];
    (constructor; [cbn; lia|exact IHu]).
Qed.

Lemma num_to_string_chars (z : Z) (c : N) :
  In c (num_to_string z) -> c = 45%N \/ (48 <= c <= 57)%N.
Proof.
  unfold num_to_string.
  assert (Hu : forall u, Forall (fun c => (48 <= c <= 57)%N)
                                (lit (NilZero.string_of_uint u))).
  { intros u. destruct u; try apply uint_chars.
    repeat constructor; cbn; lia. }
  destruct (Z.to_int z) as [u|u]; cbn [NilZero.string_of_int]; intros H.
  - right. specialize (Hu u). rewrite Forall_forall in Hu. now apply Hu.
  - change (lit (String "-" (NilZero.string_of_uint u)))
      with (45%N :: lit (NilZero.string_of_uint u)) in H.
    destruct H as [<-|H]; [now left|right].
    specialize (Hu u). rewrite Forall_forall in Hu. now apply Hu.
Qed.

Lemma num_to_string_single_line (z : Z) : ~ In 10%N (num_to_string z).
Proof. intros H. apply num_to_string_chars in H. lia. Qed.

End JsFacts.

(* ===================================================================== *)
(** * Further properties of the storyboard                                *)
(* ===================================================================== *)

Module StoryboardExtra.

Import Storyboard.
Import StoryboardProps.

Local Abbreviation positive := (fun s : StoryboardSegment => 0 <? duration s).

(** ** Sums of durations *)

Lemma sum_nonneg (segs : list StoryboardSegment) :
  Forall (fun s => 0 <= duration s) segs -> 0 <= sum_durations segs.
Proof.
  induction 1 as [|s segs Hs _ IH]; [rewrite sum_nil; lia|].
  rewrite sum_cons. lia.
Qed.

Lemma sum_filter_le (f : StoryboardSegment -> bool)
    (segs : list StoryboardSegment) :
  Forall (fun s => 0 <= duration s) segs ->
  sum_durations (filter f segs) <= sum_durations segs.
Proof.
  induction 1 as [|s segs Hs _ IH]; [cbn; lia|].
  cbn [filter]. destruct (f s); rewrite ?sum_cons; lia.
Qed.

Lemma sum_of_durations (a b : list StoryboardSegment) :
  map duration a = map duration b -> sum_durations a = sum_durations b.
Proof.
  revert b. induction a as [|x a IH]; intros [|y b] H; try discriminate.
  - reflexivity.
  - cbn [map] in H. injection H as Hd Hr. rewrite !sum_cons, Hd.
    f_equal. now apply IH.
Qed.

Lemma nonneg_of_durations (a b : list StoryboardSegment) :
  map duration a = map duration b ->
  Forall (fun s => 0 <= duration s) b -> Forall (fun s => 0 <= duration s) a.
Proof.
  revert b. induction a as [|x a IH]; intros [|y b] H Hb; try discriminate.
  - constructor.
  - cbn [map] in H. injection H as Hd Hr. inversion Hb; subst.
    constructor; [lia|eauto].
Qed.

Lemma positive_nonneg (segs : list StoryboardSegment) :
  Forall (fun s => 0 < duration s) segs ->
  Forall (fun s => 0 <= duration s) segs.
Proof. apply Forall_impl. intros s. lia. Qed.

Lemma filter_positive (segs : list StoryboardSegment) :
  Forall (fun s => 0 < duration s) segs -> filter positive segs = segs.
Proof.
  induction 1 as [|s segs Hs _ IH]; [reflexivity|].
  cbn [filter]. destruct (Z.ltb_spec 0 (duration s)); [now rewrite IH|lia].
Qed.

Lemma filter_positive_all (segs : list StoryboardSegment) :
  Forall (fun s => 0 < duration s) (filter positive segs).
Proof.
  induction segs as [|s segs IH]; [constructor|].
  cbn [filter]. destruct (Z.ltb_spec 0 (duration s)); [now constructor|exact IH].
Qed.

(** ** The reconciliation on a storyboard that fits, and on one that does
    not *)

Lemma replay_spec_fits (target : Z) (segs : list StoryboardSegment) :
  forall total,
    Forall (fun s => 0 < duration s) segs ->
    total + sum_durations segs <= target ->
    replay_spec target total segs = segs.
Proof.
  induction segs as [|seg rest IH]; intros total Hpos Hle; [reflexivity|].
  inversion Hpos as [|? ? Hseg Hrest]; subst.
  pose proof (sum_nonneg rest (positive_nonneg rest Hrest)) as Hr.
  rewrite sum_cons in Hle. cbn [replay_spec].
  destruct (Z.leb_spec target total); [lia|].
  destruct (Z.ltb_spec target (total + duration seg)); [lia|].
  f_equal. apply IH; [assumption|lia].
Qed.

Lemma replay_spec_fills (target : Z) (segs : list StoryboardSegment) :
  forall total,
    Forall (fun s => 0 < duration s) segs ->
    total <= target <= total + sum_durations segs ->
    total + sum_durations (replay_spec target total segs) = target.
Proof.
  induction segs as [|seg rest IH]; intros total Hpos Hle.
  - cbn [replay_spec]. rewrite sum_nil in *. lia.
  - inversion Hpos as [|? ? Hseg Hrest]; subst.
    rewrite sum_cons in Hle. cbn [replay_spec].
    destruct (Z.leb_spec target total); [rewrite sum_nil; lia|].
    destruct (Z.ltb_spec target (total + duration seg)).
    + rewrite sum_cons, replay_spec_reached, sum_nil by lia.
      cbn [duration]. lia.
    + rewrite sum_cons.
      specialize (IH (total + duration seg) Hrest). lia.
Qed.

Lemma replay_spec_positive (target : Z) (segs : list StoryboardSegment) :
  forall total,
    Forall (fun s => 0 < duration s) segs ->
    Forall (fun s => 0 < duration s) (replay_spec target total segs).
Proof.
  induction segs as [|seg rest IH]; intros total Hpos; [constructor|].
  inversion Hpos as [|? ? Hseg Hrest]; subst. cbn [replay_spec].
  destruct (Z.leb_spec target total); [constructor|].
  destruct (Z.ltb_spec target (total + duration seg));
    constructor; auto. cbn [duration]. lia.
Qed.

Lemma clampSegments_positive (target now : Z) (prev : list StoryboardSegment) :
  0 < target ->
  Forall (fun s => 0 < duration s) (clampSegments target now prev).
Proof.
  intros Ht. rewrite clampSegments_spec. unfold reconcile_spec.
  pose proof (replay_spec_positive target _ 0 (filter_positive_all prev)) as H.
  destruct (replay_spec target 0 _); [|exact H].
  repeat constructor. exact Ht.
Qed.

Lemma clampSegments_fits (target now : Z) (prev : list StoryboardSegment) :
  Forall (fun s => 0 < duration s) prev ->
  prev <> [] ->
  sum_durations prev <= target ->
  clampSegments target now prev = prev.
Proof.
  intros Hpos Hne Hle. rewrite clampSegments_spec. unfold reconcile_spec.
  rewrite filter_positive, replay_spec_fits by (assumption || lia).
  now destruct prev.
Qed.

(** X6.  The reconciliation leaves a storyboard alone when it has a
    segment, every duration is positive and the sum is within the target;
    and, for a positive target, what it produces is such a storyboard, so
    running it again changes nothing. *)
Theorem clamp_keeps_fitting_segments :
  forall (target now now' : Z) (prev : list StoryboardSegment),
    0 < target ->
    (Forall (fun s => 0 < duration s) prev ->
     prev <> [] ->
     sum_durations prev <= target ->
     clampSegments target now prev = prev)
    /\ clampSegments target now' (clampSegments target now prev)
       = clampSegments target now prev.
Proof.
  intros target now now' prev Ht. split; [apply clampSegments_fits|].
  apply clampSegments_fits.
  - now apply clampSegments_positive.
  - apply clampSegments_nonempty.
  - apply clampSegments_sum.
Qed.

(** X7.  When the positive durations add up to the target or more, the
    reconciled storyboard lasts exactly the target: what does not fit is
    cut, nothing is left unused. *)
Theorem clamp_fills_target :
  forall (target now : Z) (prev : list StoryboardSegment),
    0 < target ->
    target <= sum_durations (filter (fun s => 0 <? duration s) prev) ->
    sum_durations (clampSegments target now prev) = target.
Proof.
  intros target now prev Ht Hle. rewrite clampSegments_spec.
  unfold reconcile_spec.
  pose proof (replay_spec_fills target _ 0 (filter_positive_all prev)) as H.
  destruct (replay_spec target 0 _) as [|s r].
  - rewrite sum_nil in H. lia.
  - lia.
Qed.

(** ** Removing a segment *)

Lemma others_absent (i : jsstring) (segs : list StoryboardSegment) :
  ~ In i (ids segs) ->
  filter (fun s => negb (str_eqb (id s) i)) segs = segs.
Proof.
  induction segs as [|s segs IH]; intros Hn; [reflexivity|].
  cbn [filter]. destruct (str_eqb (id s) i) eqn:E.
  - apply str_eqb_eq in E. exfalso. apply Hn. now left.
  - cbn [negb]. rewrite IH; [reflexivity|]. intros H. apply Hn. now right.
Qed.

Lemma others_unique (i : jsstring) (segs : list StoryboardSegment) :
  NoDup (ids segs) ->
  In i (ids segs) ->
  exists before s after,
    segs = before ++ s :: after /\ id s = i
    /\ filter (fun s => negb (str_eqb (id s) i)) segs = before ++ after.
Proof.
  induction segs as [|s segs IH]; intros Hnd Hin; [contradiction|].
  inversion Hnd as [|? ? Hnotin Hnd']; subst. cbn [filter].
  destruct (str_eqb (id s) i) eqn:E.
  - apply str_eqb_eq in E. exists [], s, segs. subst i.
    repeat split. cbn [negb app]. now apply others_absent.
  - apply str_eqb_neq in E. destruct Hin as [Hin|Hin]; [contradiction|].
    destruct (IH Hnd' Hin) as (before & s0 & after & -> & Hid & Hf).
    exists (s :: before), s0, after. cbn [negb app]. now rewrite Hf.
Qed.

(** X8.  With distinct identifiers and more than one segment,
    [removeSegment] takes out exactly the segment carrying the identifier
    and keeps the others in their order; an identifier that is not in use
    removes nothing, and the last remaining segment cannot be removed. *)
Theorem removeSegment_removes_one :
  forall (i : jsstring) (st : State),
    NoDup (ids (storyboardSegments st)) ->
    (In i (ids (storyboardSegments st)) ->
     (1 < List.length (storyboardSegments st))%nat ->
     exists before s after,
       storyboardSegments st = before ++ s :: after
       /\ id s = i
       /\ storyboardSegments (removeSegment i st) = before ++ after)
    /\ (~ In i (ids (storyboardSegments st)) ->
        storyboardSegments (removeSegment i st) = storyboardSegments st)
    /\ ((List.length (storyboardSegments st) <= 1)%nat ->
        removeSegment i st = st).
Proof.
  intros i st Hnd. unfold removeSegment. repeat split.
  - intros Hin Hlen.
    destruct (Nat.ltb_spec 1 (List.length (storyboardSegments st))); [|lia].
    cbn [storyboardSegments set_segments]. now apply others_unique.
  - intros Hn. destruct (_ <? _)%nat; [|reflexivity].
    cbn [storyboardSegments set_segments]. now apply others_absent.
  - intros Hlen.
    destruct (Nat.ltb_spec 1 (List.length (storyboardSegments st)));
      [lia|reflexivity].
Qed.

(** ** Taking over optimised descriptions *)

Lemma applyOptimizedParts_durations (segs : list StoryboardSegment) :
  forall parts,
    map duration (applyOptimizedParts parts segs) = map duration segs.
Proof.
  induction segs as [|seg rest IH]; intros parts; cbn; [reflexivity|].
  f_equal. apply IH.
Qed.

Lemma applyOptimizedParts_described (segs : list StoryboardSegment) :
  forall parts,
    Forall described segs -> Forall described (applyOptimizedParts parts segs).
Proof.
  induction segs as [|seg rest IH]; intros parts Hd; [constructor|].
  inversion Hd as [|? ? Hseg Hrest]; subst.
  cbn [applyOptimizedParts]. constructor; [|now apply IH].
  unfold described in *. cbn [description].
  destruct parts as [|p parts]; [assumption|].
  destruct (truthy_str (trim p)) eqn:E; [|assumption].
  rewrite JsFacts.trim_idem. now apply truthy_str_nonempty.
Qed.

Lemma applyOptimizedParts_nil (segs : list StoryboardSegment) :
  applyOptimizedParts [] segs = segs.
Proof.
  induction segs as [|seg rest IH]; [reflexivity|].
  cbn [applyOptimizedParts tl]. now rewrite IH, segment_eta.
Qed.

(** X9.  Taking over the optimiser's parts changes descriptions only: the
    identifiers and durations stay as they were, a described segment stays
    described, and a part that is missing or blank leaves its segment's
    description as it was. *)
Theorem optimized_parts_change_descriptions_only :
  forall (parts : list jsstring) (segs : list StoryboardSegment),
    ids (applyOptimizedParts parts segs) = ids segs
    /\ map duration (applyOptimizedParts parts segs) = map duration segs
    /\ (Forall described segs ->
        Forall described (applyOptimizedParts parts segs))
    /\ (forall k seg,
          nth_error segs k = Some seg ->
          trim (nth k parts []) = [] ->
          nth_error (applyOptimizedParts parts segs) k = Some seg).
Proof.
  intros parts segs. repeat split.
  - apply applyOptimizedParts_ids.
  - apply applyOptimizedParts_durations.
  - apply applyOptimizedParts_described.
  - revert parts. induction segs as [|s rest IH]; intros parts k seg Hk Hp.
    + now destruct k.
    + destruct k as [|k]; cbn [nth_error applyOptimizedParts] in *.
      * injection Hk as ->. f_equal.
        destruct parts as [|p parts]; [apply segment_eta|].
        cbn [nth] in Hp. rewrite Hp. cbn [truthy_str]. apply segment_eta.
      * apply IH; [assumption|].
        destruct parts as [|p parts]; [now destruct k|exact Hp].
Qed.

(** ** The storyboard while the mode is on *)

Section Invariant.

Variable parseInt : jsstring -> option Z.

Lemma clampEffect_inv (now : Z) (st : State) :
  NoDup (ids (storyboardSegments st)) ->
  0 < targetDuration st ->
  storyboard_inv (clampEffect now st).
Proof.
  intros Hnd Ht. unfold clampEffect, storyboard_inv.
  destruct (isStoryboardMode st) eqn:Hm.
  - unfold totalSegmentDuration.
    cbn [storyboardSegments set_segments targetDuration isStoryboardMode].
    repeat split.
    + now apply clampSegments_NoDup.
    + assumption.
    + apply clampSegments_sum.
    + apply positive_nonneg. now apply clampSegments_positive.
  - rewrite Hm. repeat split; try assumption; discriminate.
Qed.

Lemma edit_nonneg (i : jsstring) (v : Z) (segs : list StoryboardSegment) :
  0 <= v ->
  Forall (fun s => 0 <= duration s) segs ->
  Forall (fun s => 0 <= duration s)
    (map (fun s => if str_eqb (id s) i
                   then mkSegment (id s) v (description s) else s) segs).
Proof.
  intros Hv. induction 1 as [|s segs Hs _ IH]; [constructor|].
  cbn [map]. constructor; [|exact IH]. now destruct (str_eqb (id s) i).
Qed.

Lemma step_inv (st : State) (e : Event) :
  storyboard_inv st ->
  match e with
  | EvAddSegment newId => ~ In newId (ids (storyboardSegments st))
  | EvSetDuration d _ => 0 < d
  | _ => True
  end ->
  storyboard_inv (step parseInt st e).
Proof.
  intros (Hnd & Ht & Hmode) He. destruct e; cbn [step].
  - (* addSegment *)
    repeat split.
    + now apply addSegment_ids.
    + now rewrite addSegment_target.
    + rewrite addSegment_target. apply addSegment_bound.
      apply Hmode. revert H. unfold addSegment. now destruct (_ >=? _).
    + assert (Hm : isStoryboardMode st = true).
      { revert H. unfold addSegment. now destruct (_ >=? _). }
      destruct (Hmode Hm) as [Hle Hpos]. unfold addSegment, Math_min, Math_max.
      destruct (_ >=? _); [exact Hpos|]. cbn [storyboardSegments set_segments].
      apply Forall_app. split; [exact Hpos|].
      repeat constructor. cbn [duration]. lia.
  - (* removeSegment *)
    unfold removeSegment.
    destruct (_ <? _)%nat; [|exact (conj Hnd (conj Ht Hmode))].
    unfold storyboard_inv, totalSegmentDuration.
    cbn [storyboardSegments set_segments targetDuration isStoryboardMode].
    repeat split.
    + now apply NoDup_ids_filter.
    + assumption.
    + destruct (Hmode H) as [Hle Hpos].
      pose proof (sum_filter_le (fun s => negb (str_eqb (id s) i)) _ Hpos).
      unfold totalSegmentDuration in Hle. lia.
    + destruct (Hmode H) as [_ Hpos]. rewrite Forall_forall in *.
      intros s Hs. apply filter_In in Hs. now apply Hpos.
  - (* updateSegment, duration *)
    repeat split.
    + rewrite updateSegment_ids; [assumption|discriminate].
    + now rewrite updateSegment_target.
    + rewrite updateSegment_target.
      apply updateSegment_duration_bound; [assumption|]. now apply Hmode.
    + destruct (Hmode H) as [Hle Hpos].
      cbn [updateSegment storyboardSegments set_segments].
      apply edit_nonneg; [|assumption].
      pose proof (sum_filter_le (fun s => negb (str_eqb (id s) i)) _ Hpos).
      unfold totalSegmentDuration in Hle. unfold Math_min, Math_max. lia.
  - (* updateSegment, description *)
    assert (Hd : map duration
                   (storyboardSegments
                      (updateSegment parseInt i F_description value st))
                 = map duration (storyboardSegments st)).
    { cbn. rewrite map_map. apply map_ext. intros s.
      now destruct (str_eqb (id s) i). }
    repeat split.
    + rewrite updateSegment_ids; [assumption|discriminate].
    + assumption.
    + unfold totalSegmentDuration. rewrite (sum_of_durations _ _ Hd).
      now apply Hmode.
    + apply (nonneg_of_durations _ _ Hd). now apply Hmode.
  - (* setDuration *)
    unfold setDuration.
    destruct (d =? targetDuration st); [exact (conj Hnd (conj Ht Hmode))|].
    now apply clampEffect_inv.
  - (* toggleStoryboardMode *)
    unfold toggleStoryboardMode. apply clampEffect_inv.
    + unfold viewResetEffect. now destruct (isStoryboardMode _).
    + unfold viewResetEffect. now destruct (isStoryboardMode _).
  - (* optimised parts *)
    pose proof (applyOptimizedParts_durations (storyboardSegments st)
                  optimizedParts) as Hd.
    unfold storyboard_inv, totalSegmentDuration.
    cbn [storyboardSegments set_segments targetDuration isStoryboardMode].
    repeat split.
    + now rewrite applyOptimizedParts_ids.
    + assumption.
    + rewrite (sum_of_durations _ _ Hd). now apply Hmode.
    + apply (nonneg_of_durations _ _ Hd). now apply Hmode.
  - (* preview *)
    assert (Hsame : isStoryboardMode (handlePreviewAndOptimize st)
                    = isStoryboardMode st
                    /\ targetDuration (handlePreviewAndOptimize st)
                       = targetDuration st).
    { unfold handlePreviewAndOptimize.
      destruct (negb _); [now split|]. now destruct (existsb _ _). }
    destruct Hsame as [Hm Htg].
    unfold storyboard_inv, totalSegmentDuration.
    rewrite handlePreviewAndOptimize_segments, Hm, Htg.
    exact (conj Hnd (conj Ht Hmode)).
Qed.

Lemma run_inv (events : list Event) :
  forall st,
    storyboard_inv st ->
    fresh_adds parseInt st events ->
    positive_targets events ->
    storyboard_inv (run parseInt st events).
Proof.
  induction events as [|e events IH]; intros st Hinv Hfresh Hpos; [assumption|].
  cbn [run fold_left]. destruct Hfresh as [Hf Hrest].
  inversion Hpos as [|? ? He Hpos']; subst.
  apply IH; try assumption. apply step_inv; [assumption|].
  destruct e; auto.
Qed.

End Invariant.

Lemma initial_inv : storyboard_inv initial_state.
Proof.
  split; [repeat constructor; intros []|].
  split; [reflexivity|discriminate].
Qed.

(** X10.  Whatever the user does from the initial state (adding, removing
    and editing segments, taking over optimised parts, previewing,
    choosing another video length, switching the mode off and on), as long
    as new identifiers are unused ones: whenever storyboard mode is on, no
    duration is negative and the durations sum to at most the video
    length. *)
Theorem storyboard_mode_keeps_sum_within_target :
  forall (parseInt : jsstring -> option Z) (events : list Event),
    fresh_adds parseInt initial_state events ->
    positive_targets events ->
    let st := run parseInt initial_state events in
    NoDup (ids (storyboardSegments st))
    /\ (isStoryboardMode st = true ->
        totalSegmentDuration st <= targetDuration st
        /\ Forall (fun s => 0 <= duration s) (storyboardSegments st)).
Proof.
  intros parseInt events Hfresh Hpos st.
  destruct (run_inv parseInt events initial_state initial_inv Hfresh Hpos)
    as (Hnd & _ & Hmode).
  now split.
Qed.

(** ** Concrete runs *)

Lemma clamp_keeps_fitting_segments_witness :
  0 < 10
  /\ clampSegments 10 2
       (clampSegments 10 1
          [mkSegment (lit "1") 7 []; mkSegment (lit "2") 0 [];
           mkSegment (lit "3") 7 []])
     = [mkSegment (lit "1") 7 []; mkSegment (lit "3") 3 []].
Proof.
  assert (H : 0 < 10) by lia.
  refine (conj H _).
  exact (proj2 (clamp_keeps_fitting_segments 10 1 2
                  [mkSegment (lit "1") 7 []; mkSegment (lit "2") 0 [];
                   mkSegment (lit "3") 7 []] H)).
Defined.

Lemma clamp_fills_target_witness :
  0 < 10
  /\ 10 <= sum_durations
             (filter (fun s => 0 <? duration s)
                [mkSegment (lit "1") 7 []; mkSegment (lit "2") 7 []])
  /\ sum_durations
       (clampSegments 10 1
          [mkSegment (lit "1") 7 []; mkSegment (lit "2") 7 []]) = 10.
Proof.
  assert (H1 : 0 < 10) by lia.
  assert (H2 : 10 <= sum_durations
                       (filter (fun s => 0 <? duration s)
                          [mkSegment (lit "1") 7 []; mkSegment (lit "2") 7 []]))
    by (vm_compute; discriminate).
  refine (conj H1 (conj H2 _)).
  exact (clamp_fills_target 10 1 _ H1 H2).
Defined.

Lemma removeSegment_removes_one_witness :
  NoDup (ids (storyboardSegments two_scene_state))
  /\ In (lit "1") (ids (storyboardSegments two_scene_state))
  /\ (1 < List.length (storyboardSegments two_scene_state))%nat
  /\ exists before s after,
       storyboardSegments two_scene_state = before ++ s :: after
       /\ id s = lit "1"
       /\ storyboardSegments (removeSegment (lit "1") two_scene_state)
          = before ++ after.
Proof.
  assert (H1 : NoDup (ids (storyboardSegments two_scene_state))).
  { repeat constructor; cbn; intuition discriminate. }
  assert (H2 : In (lit "1") (ids (storyboardSegments two_scene_state)))
    by now left.
  assert (H3 : (1 < List.length (storyboardSegments two_scene_state))%nat)
    by (cbn; lia).
  refine (conj H1 (conj H2 (conj H3 _))).
  exact (proj1 (removeSegment_removes_one (lit "1") two_scene_state H1) H2 H3).
Defined.

Lemma storyboard_mode_keeps_sum_within_target_witness :
  fresh_adds parseInt_decimal initial_state sample_session
  /\ positive_targets sample_session
  /\ isStoryboardMode (run parseInt_decimal initial_state sample_session)
     = true
  /\ totalSegmentDuration (run parseInt_decimal initial_state sample_session)
     <= targetDuration (run parseInt_decimal initial_state sample_session).
Proof.
  assert (H1 : fresh_adds parseInt_decimal initial_state sample_session).
  { cbn. repeat split. intuition discriminate. }
  assert (H2 : positive_targets sample_session).
  { repeat constructor. }
  assert (H3 : isStoryboardMode
                 (run parseInt_decimal initial_state sample_session) = true)
    by reflexivity.
  refine (conj H1 (conj H2 (conj H3 _))).
  exact (proj1 (proj2 (storyboard_mode_keeps_sum_within_target
                         parseInt_decimal sample_session H1 H2) H3)).
Defined.

Lemma optimized_parts_change_descriptions_only_witness :
  nth_error (storyboardSegments two_scene_state) 0
  = Some (mkSegment (lit "1") 4 (lit "A"))
  /\ trim (nth 0 [lit " "; lit "A wide shot"] []) = []
  /\ applyOptimizedParts [lit " "; lit "A wide shot"]
       (storyboardSegments two_scene_state)
     = [mkSegment (lit "1") 4 (lit "A");
        mkSegment (lit "2") 6 (lit "A wide shot")]
  /\ nth_error
       (applyOptimizedParts [lit " "; lit "A wide shot"]
          (storyboardSegments two_scene_state)) 0
     = Some (mkSegment (lit "1") 4 (lit "A")).
Proof.
  assert (H1 : nth_error (storyboardSegments two_scene_state) 0
               = Some (mkSegment (lit "1") 4 (lit "A"))) by reflexivity.
  assert (H2 : trim (nth 0 [lit " "; lit "A wide shot"] []) = [])
    by reflexivity.
  refine (conj H1 (conj H2 (conj eq_refl _))).
  exact (proj2 (proj2 (proj2
           (optimized_parts_change_descriptions_only
              [lit " "; lit "A wide shot"]
              (storyboardSegments two_scene_state))))
           0%nat _ H1 H2).
Defined.

End StoryboardExtra.

(* ===================================================================== *)
(** * Further properties of the task store and the gallery                *)
(* ===================================================================== *)

Module GalleryExtra.

Import Gallery.
Import App.
Import GalleryProps.

(** ** Identifiers in the store *)

Lemma ids_include_In (ids : list jsstring) (x : jsstring) :
  ids_include ids x = true <-> In x ids.
Proof.
  unfold ids_include. rewrite existsb_exists. split.
  - intros (i & Hi & E). apply str_eqb_true in E. now subst.
  - intros H. exists x. split; [assumption|apply StoryboardProps.str_eqb_refl].
Qed.

Lemma handleDeleteTasks_In (ids : list jsstring) (tasks : list VideoTask)
    (t : VideoTask) :
  In t (handleDeleteTasks ids tasks) <-> In t tasks /\ ~ In (id t) ids.
Proof.
  unfold handleDeleteTasks. rewrite filter_In, negb_true_iff.
  rewrite <- ids_include_In. now destruct (ids_include ids (id t)).
Qed.

Lemma deleted_ids_absent (ids : list jsstring) (tasks : list VideoTask)
    (x : jsstring) :
  In x (map id (handleDeleteTasks ids tasks)) -> ~ In x ids.
Proof.
  rewrite in_map_iff. intros (t & <- & Ht). now apply handleDeleteTasks_In in Ht.
Qed.

(** X11.  [handleDeleteTasks] removes exactly the tasks whose identifier is
    listed, and they stay removed: neither the result of a query that was
    still under way when they were deleted, nor any later polling tick,
    brings one of them back.  Deleting twice is deleting once. *)
Theorem deleted_tasks_stay_deleted :
  forall (ids : list jsstring) (tasks : list VideoTask),
    (forall t, In t (handleDeleteTasks ids tasks)
               <-> In t tasks /\ ~ In (id t) ids)
    /\ (forall late t,
          In t (handleUpdateTask late (handleDeleteTasks ids tasks)) ->
          ~ In (id t) ids)
    /\ (forall envs t,
          In t (store_after_ticks envs (handleDeleteTasks ids tasks)) ->
          ~ In (id t) ids)
    /\ handleDeleteTasks ids (handleDeleteTasks ids tasks)
       = handleDeleteTasks ids tasks.
Proof.
  intros ids tasks. repeat apply conj.
  - intros t. apply handleDeleteTasks_In.
  - intros late t Ht. apply (deleted_ids_absent ids tasks).
    rewrite <- (handleUpdateTask_ids late). now apply in_map.
  - intros envs t Ht. apply (deleted_ids_absent ids tasks).
    rewrite <- (store_after_ticks_ids envs). now apply in_map.
  - unfold handleDeleteTasks. induction tasks as [|t tasks IH]; [reflexivity|].
    cbn [filter]. destruct (ids_include ids (id t)) eqn:E; cbn [negb filter].
    + exact IH.
    + rewrite E. cbn [negb]. now rewrite IH.
Qed.

(** ** What polling leaves of a record *)

Lemma observe_kept (t : VideoTask) (input : result QueryVideoResponse * Z) :
  kept t (observe t input).
Proof.
  unfold kept, observe. destruct (is_pending t) eqn:Hp.
  - destruct (fst input) as [res|e]; [|repeat split; discriminate].
    destruct (merge t res (snd input)) as [u|] eqn:Hm;
      [|repeat split; discriminate].
    unfold merge in Hm. destruct (_ || _); [|discriminate].
    injection Hm as <-. repeat split. discriminate.
  - repeat split.
Qed.

Lemma kept_refl (t : VideoTask) : kept t t.
Proof. repeat split. Qed.

Lemma observe_each_kept (env : Env) (tasks : list VideoTask) :
  forall k, Forall2 kept tasks (observe_each env k tasks).
Proof.
  induction tasks as [|t rest IH]; intros k; cbn [observe_each];
    [constructor|].
  destruct (is_pending t); constructor; auto using observe_kept, kept_refl.
Qed.

Lemma merge_same_request (task u : VideoTask) (res : QueryVideoResponse)
    (now : Z) :
  merge task res now = Some u -> same_request task u.
Proof.
  unfold merge. destruct (_ || _); [|discriminate].
  intros H. injection H as <-. repeat split.
Qed.

Lemma same_request_refl (t : VideoTask) : same_request t t.
Proof. repeat split. Qed.

Lemma same_request_trans (a b c : VideoTask) :
  same_request a b -> same_request b c -> same_request a c.
Proof.
  unfold same_request. intros (A1 & A2 & A3 & A4 & A5) (B1 & B2 & B3 & B4 & B5).
  repeat split; congruence.
Qed.

Lemma distinct_ids (tasks : list VideoTask) (a b : VideoTask) :
  NoDup (map id tasks) -> In a tasks -> In b tasks -> id a = id b -> a = b.
Proof.
  induction tasks as [|t tasks IH]; intros Hnd Ha Hb E; [contradiction|].
  cbn [map] in Hnd. inversion Hnd as [|? ? Hnot Hnd']; subst.
  destruct Ha as [<-|Ha], Hb as [<-|Hb]; auto.
  - exfalso. apply Hnot. rewrite E. now apply in_map.
  - exfalso. apply Hnot. rewrite <- E. now apply in_map.
Qed.

Lemma Forall2_In_r {A B} (R : A -> B -> Prop) (l : list A) (l' : list B)
    (y : B) :
  Forall2 R l l' -> In y l' -> exists x, In x l /\ R x y.
Proof.
  induction 1 as [|x y0 l l' Hxy _ IH]; intros Hy; [contradiction|].
  destruct Hy as [<-|Hy].
  - exists x. split; [now left|assumption].
  - destruct (IH Hy) as (x' & Hx' & HR). exists x'. split; [now right|assumption].
Qed.

Lemma Forall2_update {A B} (R : A -> B -> Prop) (f : B -> B) (l : list A)
    (l' : list B) :
  Forall2 R l l' ->
  (forall x y, In x l -> R x y -> R x (f y)) ->
  Forall2 R l (map f l').
Proof.
  induction 1 as [|x y l l' Hxy _ IH]; intros Hf; cbn [map]; constructor.
  - apply Hf; [now left|assumption].
  - apply IH. intros x' y' Hx'. apply Hf. now right.
Qed.

Lemma poll_store_same_request (env : Env) (k : nat) (task : VideoTask)
    (tasks s : list VideoTask) :
  NoDup (map id tasks) ->
  Forall2 same_request tasks s ->
  (exists s0, In s0 tasks /\ same_request s0 task) ->
  Forall2 same_request tasks (poll_store env k task s).
Proof.
  intros Hnd Hs (s0 & Hs0 & Hreq). unfold poll_store.
  destruct (answer env k (id task)) as [res|e]; [|assumption].
  destruct (merge task res (clock env k)) as [u|] eqn:Hm; [|assumption].
  pose proof (merge_same_request _ _ _ _ Hm) as Hu.
  unfold handleUpdateTask. apply Forall2_update; [assumption|].
  intros x y Hx Hxy. destruct (str_eqb (id y) (id u)) eqn:E; [|assumption].
  apply str_eqb_true in E.
  assert (Hsame : x = s0).
  { apply (distinct_ids tasks); try assumption.
    destruct Hxy as [Hy _], Hu as [Hu' _], Hreq as [Hr _]. congruence. }
  subst x. exact (same_request_trans _ _ _ Hreq Hu).
Qed.

(** The store and the records the callbacks captured are the records
    polling started on, as far as the request goes. *)
Local Abbreviation in_step tasks w :=
  (Forall2 same_request tasks (w_store w)
   /\ forall cb c, In cb (w_inflight w) -> In c (cb_todo cb) ->
                   exists s0, In s0 tasks /\ same_request s0 c).

Lemma poll_step_same_request (tasks : list VideoTask) (w : World)
    (e : PollEvent) :
  NoDup (map id tasks) -> in_step tasks w -> in_step tasks (poll_step w e).
Proof.
  intros Hnd [Hs Hc]. destruct e as [env|n]; cbn [poll_step].
  - destruct (fire_cases env w) as [->|(task & rest & Hp & ->)];
      [now split|].
    cbn [w_store w_inflight]. split; [assumption|].
    intros cb c Hcb Hin. apply in_app_or in Hcb.
    destruct Hcb as [Hcb|[<-|[]]]; [eauto|].
    cbn [cb_todo] in Hin. rewrite <- Hp in Hin. apply filter_In in Hin.
    eapply Forall2_In_r; [exact Hs|tauto].
  - destruct (arrive_cases n w)
      as [->|(cb & task & rest & c0 & Hcb & Htodo & ->)]; [now split|].
    cbn [w_store w_inflight]. split.
    + apply poll_store_same_request; try assumption.
      apply (Hc cb task Hcb). rewrite Htodo. now left.
    + intros cb' c Hcb' Hin. apply put_callback_In in Hcb'.
      destruct Hcb' as [Hcb'|Hcb']; [|eauto].
      destruct rest as [|next rest]; [contradiction|].
      destruct Hcb' as [<-|[]]. cbn [cb_todo] in Hin.
      apply (Hc cb c Hcb). rewrite Htodo. now right.
Qed.

Lemma poll_run_same_request (tasks : list VideoTask)
    (events : list PollEvent) :
  forall w,
    NoDup (map id tasks) -> in_step tasks w ->
    in_step tasks (poll_run w events).
Proof.
  induction events as [|e events IH]; intros w Hnd Hw; [assumption|].
  cbn [poll_run fold_left]. change (fold_left poll_step events ?x)
    with (poll_run x events).
  apply IH; [assumption|]. now apply poll_step_same_request.
Qed.

(** X12.  However polling callbacks overlap, the store keeps its tasks,
    in number and in order, with their identifiers; and when identifiers
    are distinct every record keeps its identifier, prompt, model,
    orientation and creation time.  A tick that runs alone leaves, in
    addition, every record in a terminal status as it is. *)
Theorem polling_keeps_the_records :
  forall (events : list PollEvent) (tasks : list VideoTask),
    map id (w_store (poll_run (world_of tasks) events)) = map id tasks
    /\ (NoDup (map id tasks) ->
        Forall2 same_request tasks
          (w_store (poll_run (world_of tasks) events)))
    /\ (forall env,
          NoDup (map id tasks) -> Forall2 kept tasks (store_after env tasks)).
Proof.
  intros events tasks. repeat apply conj.
  - apply (poll_run_ids events (world_of tasks)).
  - intros Hnd.
    apply (poll_run_same_request tasks events (world_of tasks) Hnd).
    split; [|intros cb c []].
    cbn [world_of w_store]. clear. induction tasks; constructor;
      auto using same_request_refl.
  - intros env Hnd. rewrite store_after_each by assumption.
    apply observe_each_kept.
Qed.

(** X13.  Tasks handed over by the create panel are put in front of the
    list, pending and without completion time, and the next tick queries
    each of them, before the tasks that were pending already. *)
Theorem created_tasks_are_polled :
  forall (env : Env) (newIds : list jsstring) (p : jsstring) (m : VideoModel)
         (o : VideoOrientation) (now : Z) (tasks : list VideoTask),
    queries_of env (handleTasksCreated newIds p m o now tasks)
    = newIds ++ queries_of env tasks
    /\ map id (handleTasksCreated newIds p m o now tasks)
       = newIds ++ map id tasks
    /\ (forall t, In t (handleTasksCreated newIds p m o now tasks) ->
                  In t tasks
                  \/ (In (id t) newIds /\ status t = pending
                      /\ completedAt t = None)).
Proof.
  intros env newIds p m o now tasks. unfold handleTasksCreated.
  repeat apply conj.
  - rewrite !queries_of_pending, filter_app, map_app. f_equal.
    induction newIds as [|i newIds IH]; [reflexivity|].
    cbn [map filter is_pending new_task status]. cbn [map id]. now rewrite IH.
  - rewrite map_app, map_map. cbn [new_task id]. now rewrite map_id.
  - intros t Ht. apply in_app_or in Ht. destruct Ht as [Ht|Ht]; [|now left].
    right. apply in_map_iff in Ht. destruct Ht as (i & <- & Hi).
    now repeat split.
Qed.

(** ** Saved characters *)

Lemma saved_In (char : Character) (prev : list Character) :
  existsb (fun c => str_eqb (character_id c) (character_id char)) prev = true
  <-> In (character_id char) (map character_id prev).
Proof.
  rewrite existsb_exists, in_map_iff. split.
  - intros (c & Hc & E). apply str_eqb_true in E. eauto.
  - intros (c & E & Hc). exists c. split; [assumption|].
    rewrite E. apply StoryboardProps.str_eqb_refl.
Qed.

(** X15.  [handleSaveCharacter] keeps the saved characters' identifiers
    distinct: a character whose identifier is saved already is not saved
    again, and the record saved first is the one that stays; any other
    character is put in front.  Saving the same character twice is saving
    it once. *)
Theorem saved_characters_stay_distinct :
  forall (char : Character) (prev : list Character),
    (NoDup (map character_id prev) ->
     NoDup (map character_id (handleSaveCharacter char prev)))
    /\ (In (character_id char) (map character_id prev) ->
        handleSaveCharacter char prev = prev)
    /\ (~ In (character_id char) (map character_id prev) ->
        handleSaveCharacter char prev = char :: prev)
    /\ handleSaveCharacter char (handleSaveCharacter char prev)
       = handleSaveCharacter char prev.
Proof.
  intros char prev. unfold handleSaveCharacter.
  pose proof (saved_In char prev) as Hs.
  destruct (existsb _ prev) eqn:E.
  - repeat apply conj; auto.
    + intros Hn. exfalso. apply Hn. now apply Hs.
    + now rewrite E.
  - assert (Hn : ~ In (character_id char) (map character_id prev)).
    { intros H. apply Hs in H. discriminate. }
    repeat apply conj; auto.
    + intros Hnd. cbn [map]. now constructor.
    + intros H. contradiction.
    + cbn [existsb]. now rewrite StoryboardProps.str_eqb_refl.
Qed.

(** ** The generation time shown on a card *)

(** X16.  The generation time shown on a card is never negative; it is the
    number of whole seconds between creation and completion, and zero when
    the completion time lies before the creation time.  Nothing is shown
    exactly when the task has no completion time or one of the two times
    is zero. *)
Theorem generationDuration_whole_seconds :
  forall (task : VideoTask),
    (forall d, generationDuration task = Some d ->
               0 <= d
               /\ exists c,
                    completedAt task = Some c /\ c <> 0 /\ createdAt task <> 0
                    /\ (createdAt task <= c ->
                        1000 * d <= c - createdAt task < 1000 * d + 1000)
                    /\ (c < createdAt task -> d = 0))
    /\ (generationDuration task = None
        <-> completedAt task = None \/ completedAt task = Some 0
            \/ createdAt task = 0).
Proof.
  intros task. unfold generationDuration, truthy_num, Math_max. split.
  - intros d. destruct (completedAt task) as [c|]; [|discriminate].
    destruct (Z.eqb_spec c 0) as [|Hc]; [discriminate|].
    destruct (Z.eqb_spec (createdAt task) 0) as [|Ha]; [discriminate|].
    cbn [negb andb]. intros H. injection H as <-. split; [lia|].
    exists c. repeat split; try assumption.
    + Z.to_euclidean_division_equations. lia.
    + Z.to_euclidean_division_equations. lia.
    + Z.to_euclidean_division_equations. lia.
  - destruct (completedAt task) as [c|]; [|now split; auto].
    destruct (Z.eqb_spec c 0) as [->|Hc];
      [cbn; split; auto|].
    destruct (Z.eqb_spec (createdAt task) 0) as [Ha|Ha]; cbn [negb andb].
    + split; auto.
    + split; [discriminate|]. intros [H|[H|H]]; congruence.
Qed.

(** ** The selection *)

Lemma set_has_In (s : StringSet) (x : jsstring) :
  set_has s x = true <-> In x s.
Proof. apply ids_include_In. Qed.

Lemma set_add_In (s : StringSet) (x y : jsstring) :
  In y (set_add s x) <-> In y s \/ y = x.
Proof.
  unfold set_add. destruct (set_has s x) eqn:E.
  - apply set_has_In in E. split; [auto|]. intros [H| ->]; assumption.
  - rewrite in_app_iff. cbn. intuition.
Qed.

Lemma set_delete_In (s : StringSet) (x y : jsstring) :
  In y (set_delete s x) <-> In y s /\ y <> x.
Proof.
  unfold set_delete. rewrite filter_In, negb_true_iff.
  now rewrite StoryboardProps.str_eqb_neq.
Qed.

Lemma set_add_NoDup (s : StringSet) (x : jsstring) :
  NoDup s -> NoDup (set_add s x).
Proof.
  intros H. unfold set_add. destruct (set_has s x) eqn:E; [assumption|].
  apply StoryboardProps.NoDup_snoc; [assumption|].
  intros Hin. apply set_has_In in Hin. congruence.
Qed.

Lemma set_delete_NoDup (s : StringSet) (x : jsstring) :
  NoDup s -> NoDup (set_delete s x).
Proof. apply NoDup_filter. Qed.

Lemma set_from_In (xs : list jsstring) :
  forall acc y, In y (fold_left set_add xs acc) <-> In y acc \/ In y xs.
Proof.
  induction xs as [|x xs IH]; intros acc y; cbn [fold_left].
  - cbn. tauto.
  - rewrite IH, set_add_In. cbn. intuition.
Qed.

Lemma set_from_NoDup (xs : list jsstring) :
  forall acc, NoDup acc -> NoDup (fold_left set_add xs acc).
Proof.
  induction xs as [|x xs IH]; intros acc H; cbn [fold_left]; [assumption|].
  apply IH. now apply set_add_NoDup.
Qed.

Lemma set_of_In (xs : list jsstring) (y : jsstring) :
  In y (set_of xs) <-> In y xs.
Proof. unfold set_of. rewrite set_from_In. cbn. tauto. Qed.

Lemma set_of_NoDup (xs : list jsstring) : NoDup (set_of xs).
Proof. apply set_from_NoDup. constructor. Qed.

Lemma gallery_step_shown (g : GalleryState) (e : GalleryEvent) :
  selection_shown g ->
  match e with
  | EvToggle i | EvDeleteSingle i => In i (map id (tasks g))
  | _ => True
  end ->
  selection_shown (gallery_step g e).
Proof.
  intros [Hsub Hnd] He. destruct e; cbn [gallery_step].
  - (* toggle *)
    unfold handleToggleSelect, selection_shown. cbn [selectedIds tasks].
    destruct (set_has (selectedIds g) i).
    + split; [|now apply set_delete_NoDup].
      intros x Hx. apply set_delete_In in Hx. now apply Hsub.
    + split; [|now apply set_add_NoDup].
      intros x Hx. apply set_add_In in Hx. destruct Hx as [Hx| ->]; auto.
  - (* select all *)
    unfold handleSelectAll. destruct (_ =? _)%nat; split; cbn [selectedIds tasks].
    + intros x [].
    + constructor.
    + intros x Hx. exact (proj1 (set_of_In _ _) Hx).
    + apply set_of_NoDup.
  - (* delete the selection *)
    split; cbn; [intros x []|constructor].
  - (* delete one card *)
    unfold handleDeleteSingle, selection_shown. cbn [selectedIds tasks].
    assert (Hkeep : forall x, In x (selectedIds g) -> x <> i ->
                              In x (map id (handleDeleteTasks [i] (tasks g)))).
    { intros x Hx Hne. apply Hsub in Hx. apply in_map_iff in Hx.
      destruct Hx as (t & <- & Ht). apply in_map.
      apply handleDeleteTasks_In. split; [assumption|].
      intros [E|[]]. now apply Hne. }
    destruct (set_has (selectedIds g) i) eqn:E.
    + split; [|now apply set_delete_NoDup].
      intros x Hx. apply set_delete_In in Hx. now apply Hkeep.
    + split; [|assumption]. intros x Hx. apply Hkeep; [assumption|].
      intros ->. apply set_has_In in Hx. congruence.
  - (* new tasks *)
    split; cbn [selectedIds tasks]; [|assumption].
    intros x Hx. unfold handleTasksCreated. rewrite map_app.
    apply in_or_app. right. now apply Hsub.
  - (* a polling tick *)
    split; cbn [selectedIds tasks]; [|assumption].
    intros x Hx. rewrite store_after_ids. now apply Hsub.
Qed.

Lemma gallery_run_shown (events : list GalleryEvent) :
  forall g,
    selection_shown g ->
    clicks_on_cards g events ->
    selection_shown (gallery_run g events).
Proof.
  induction events as [|e events IH]; intros g Hg Hc; [assumption|].
  cbn [gallery_run fold_left]. destruct Hc as [He Hrest].
  apply IH; [|assumption]. now apply gallery_step_shown.
Qed.

(** X17.  Whatever happens in the gallery (cards toggled, everything
    selected, the selection or a single card deleted, new tasks arriving,
    polling ticks), the selection only ever holds identifiers of tasks that
    are on show, each once: deleting a task takes it out of the selection,
    and deleting the selection deletes nothing that is not on show. *)
Theorem selection_stays_within_the_tasks :
  forall (events : list GalleryEvent),
    clicks_on_cards empty_gallery events ->
    let g := gallery_run empty_gallery events in
    (forall x, In x (selectedIds g) -> In x (map id (tasks g)))
    /\ NoDup (selectedIds g)
    /\ (forall t, In t (tasks (handleDeleteSelected g)) <->
                  In t (tasks g) /\ ~ In (id t) (selectedIds g)).
Proof.
  intros events Hc g.
  assert (Hg : selection_shown g).
  { apply gallery_run_shown; [|assumption]. split; [intros x []|constructor]. }
  destruct Hg as [Hsub Hnd]. split; [assumption|]. split; [assumption|].
  intros t. apply handleDeleteTasks_In.
Qed.

(** X18.  After a card is toggled, selection mode is on exactly when
    something is selected; the toggled card has changed sides and no other
    card has.  With distinct task identifiers and a selection within the
    tasks, "select all" clears the selection exactly when every task was
    selected, and otherwise selects every task. *)
Theorem toggling_and_selecting_all :
  forall (g : GalleryState),
    (forall i,
        isSelectionMode (handleToggleSelect i g)
        = negb (List.length (selectedIds (handleToggleSelect i g)) =? 0)%nat
        /\ set_has (selectedIds (handleToggleSelect i g)) i
           = negb (set_has (selectedIds g) i)
        /\ (forall x, x <> i ->
                      (In x (selectedIds (handleToggleSelect i g))
                       <-> In x (selectedIds g))))
    /\ (NoDup (map id (tasks g)) ->
        selection_shown g ->
        (selectedIds (handleSelectAll g) = []
         <-> tasks g = []
             \/ (forall x, In x (map id (tasks g)) -> In x (selectedIds g)))
        /\ (selectedIds (handleSelectAll g) <> [] ->
            forall x, In x (map id (tasks g))
                      <-> In x (selectedIds (handleSelectAll g)))).
Proof.
  intros g. split.
  - intros i. unfold handleToggleSelect. cbn [isSelectionMode selectedIds].
    repeat apply conj.
    + destruct (if set_has (selectedIds g) i then _ else _) as [|x s];
        cbn; [reflexivity|]. now destruct (isSelectionMode g).
    + destruct (set_has (selectedIds g) i) eqn:E; cbn [negb].
      * apply not_true_is_false. intros H. apply set_has_In in H.
        apply set_delete_In in H. now destruct H.
      * apply set_has_In. apply set_add_In. now right.
    + intros x Hx. destruct (set_has (selectedIds g) i).
      * rewrite set_delete_In. tauto.
      * rewrite set_add_In. tauto.
  - intros Hnd [Hsub Hsel]. unfold handleSelectAll.
    destruct (Nat.eqb_spec (List.length (selectedIds g))
                           (List.length (tasks g))) as [Hlen|Hlen];
      cbn [selectedIds].
    + split; [|congruence]. split; [|reflexivity]. intros _. right.
      apply (NoDup_length_incl Hsel); [|exact Hsub].
      rewrite length_map. lia.
    + split.
      * split.
        -- intros E. left. destruct (tasks g) as [|t ts]; [reflexivity|].
           exfalso. assert (Hin : In (id t) (set_of (map id (t :: ts)))).
           { apply set_of_In. now left. }
           rewrite E in Hin. contradiction.
        -- intros [E|Hall].
           ++ now rewrite E.
           ++ exfalso. apply Hlen. apply Nat.le_antisymm.
              ** rewrite <- (length_map id (tasks g)).
                 now apply NoDup_incl_length.
              ** rewrite <- (length_map id (tasks g)).
                 now apply NoDup_incl_length.
      * intros _ x. now rewrite set_of_In.
Qed.

(** ** Concrete runs *)

Lemma deleted_tasks_stay_deleted_witness :
  In finished_task
     (store_after_ticks [busy; offline]
        (handleDeleteTasks [lit "video_2"] two_tasks))
  /\ ~ In (id finished_task) [lit "video_2"].
Proof.
  assert (H : In finished_task
                 (store_after_ticks [busy; offline]
                    (handleDeleteTasks [lit "video_2"] two_tasks)))
    by now left.
  refine (conj H _).
  exact (proj1 (proj2 (proj2
           (deleted_tasks_stay_deleted [lit "video_2"] two_tasks)))
           [busy; offline] finished_task H).
Defined.

Lemma polling_keeps_the_records_witness :
  NoDup (map id two_pending)
  /\ Forall2 same_request two_pending
       (w_store (poll_run (world_of two_pending)
                   (overtaken_tick completed_unstamped))).
Proof.
  assert (H : NoDup (map id two_pending)).
  { repeat constructor; cbn; intuition discriminate. }
  refine (conj H _).
  exact (proj1 (proj2 (polling_keeps_the_records
                         (overtaken_tick completed_unstamped) two_pending))
           H).
Defined.

Lemma created_tasks_are_polled_witness :
  queries_of busy two_tasks = [lit "video_2"].
Proof.
  exact (proj1 (created_tasks_are_polled busy [lit "video_2"] (lit "a dog")
                  SORA_2 landscape 1700000300000 [finished_task])).
Defined.

Lemma saved_characters_stay_distinct_witness :
  In (character_id renamed_character) (map character_id [sample_character])
  /\ handleSaveCharacter renamed_character [sample_character]
     = [sample_character].
Proof.
  assert (H : In (character_id renamed_character)
                 (map character_id [sample_character])) by now left.
  refine (conj H _).
  exact (proj1 (proj2 (saved_characters_stay_distinct renamed_character
                         [sample_character])) H).
Defined.

Lemma generationDuration_whole_seconds_witness :
  generationDuration finished_task = Some 42 /\ 0 <= 42.
Proof.
  assert (H : generationDuration finished_task = Some 42) by reflexivity.
  refine (conj H _).
  exact (proj1 (proj1 (generationDuration_whole_seconds finished_task) 42 H)).
Defined.

Lemma selection_stays_within_the_tasks_witness :
  clicks_on_cards empty_gallery sample_gallery_session
  /\ NoDup (selectedIds (gallery_run empty_gallery sample_gallery_session)).
Proof.
  assert (H : clicks_on_cards empty_gallery sample_gallery_session).
  { vm_compute. repeat split; auto. }
  refine (conj H _).
  exact (proj1 (proj2 (selection_stays_within_the_tasks
                         sample_gallery_session H))).
Defined.

Lemma toggling_and_selecting_all_witness :
  NoDup (map id (tasks (mkGallery two_tasks [lit "video_1"] true)))
  /\ selection_shown (mkGallery two_tasks [lit "video_1"] true)
  /\ selectedIds (handleSelectAll (mkGallery two_tasks [lit "video_1"] true))
     <> []
  /\ forall x,
       In x (map id (tasks (mkGallery two_tasks [lit "video_1"] true)))
       <-> In x (selectedIds
                   (handleSelectAll
                      (mkGallery two_tasks [lit "video_1"] true))).
Proof.
  assert (H1 : NoDup (map id (tasks (mkGallery two_tasks [lit "video_1"] true)))).
  { repeat constructor; cbn; intuition discriminate. }
  assert (H2 : selection_shown (mkGallery two_tasks [lit "video_1"] true)).
  { split.
    - intros x [<-|[]]. right. now left.
    - repeat constructor. intros []. }
  assert (H3 : selectedIds
                 (handleSelectAll (mkGallery two_tasks [lit "video_1"] true))
               <> []) by discriminate.
  refine (conj H1 (conj H2 (conj H3 _))).
  exact (proj2 (proj2 (toggling_and_selecting_all
                         (mkGallery two_tasks [lit "video_1"] true)) H1 H2)
           H3).
Defined.

End GalleryExtra.

(* ===================================================================== *)
(** * Further properties of the create panel                              *)
(* ===================================================================== *)

Module CreatePanelExtra.

Import Storyboard.
Import CreatePanel.
Import StoryboardProps.

(** ** Model, duration and size *)

(** The constraints effect has nothing left to do. *)
Local Abbreviation settled p :=
  ((p_duration p = 10 \/ p_duration p = 15 \/ p_duration p = 25)
   /\ modelConstraintsEffect p = p).

Lemma settleConstraints_settled (m : VideoModel) (d : Z) (s : VideoSize) :
  d = 10 \/ d = 15 \/ d = 25 ->
  settled (settleConstraints (mkParams m d s)).
Proof.
  intros [->|[->| ->]]; destruct m, s; vm_compute; auto.
Qed.

Lemma settled_selectable (p : Params) :
  settled p ->
  selectable p
  /\ (p_size p = large <-> p_model p = SORA_2_PRO /\ p_duration p = 15).
Proof.
  destruct p as [m d s]. cbn [p_duration p_model p_size].
  intros [[->|[->| ->]] H]; destruct m, s; vm_compute in H; try discriminate;
    (split; [repeat split; auto|]);
    (split; [intros E|intros [E1 E2]]; try discriminate; auto).
Qed.

Lemma param_step_settled (p : Params) (e : ParamEvent) :
  settled p -> clickable p e -> settled (param_step p e).
Proof.
  intros Hp He. destruct e as [m|d|s]; cbn [param_step].
  - destruct (model_eqb m (p_model p)); [assumption|].
    apply settleConstraints_settled. apply Hp.
  - destruct (d =? p_duration p); [assumption|].
    apply settleConstraints_settled. apply He.
  - destruct He as [Hs Hm]. destruct p as [m d s0].
    cbn [p_duration p_model p_size] in *.
    destruct Hp as [[->|[->| ->]] H]; destruct m, s0, s;
      vm_compute in H, Hs |- *; try discriminate; try congruence; auto.
Qed.

Lemma param_run_settled (events : list ParamEvent) :
  forall p, settled p -> clickable_all p events ->
            settled (param_run p events).
Proof.
  induction events as [|e events IH]; intros p Hp Hc; [assumption|].
  destruct Hc as [He Hrest]. cbn [param_run fold_left].
  apply IH; [|assumption]. now apply param_step_settled.
Qed.

(** X19.  Whatever models, durations and sizes the user clicks among the
    buttons that are enabled, the parameters never show a disabled option
    as selected, and the constraints effect has come to rest.  The size is
    then fixed by the other two: it is large exactly for the pro model at
    15 seconds. *)
Theorem parameters_stay_selectable :
  forall (events : list ParamEvent),
    clickable_all initial_params events ->
    let p := param_run initial_params events in
    selectable p
    /\ modelConstraintsEffect p = p
    /\ (p_size p = large <-> p_model p = SORA_2_PRO /\ p_duration p = 15).
Proof.
  intros events Hc p.
  assert (Hp : settled p).
  { apply param_run_settled; [|assumption]. vm_compute. auto. }
  destruct (settled_selectable p Hp) as [Hsel Hsize].
  exact (conj Hsel (conj (proj2 Hp) Hsize)).
Qed.

(** ** The clip of a character video *)

Lemma clip_step_ok (c : Clip) (e : ClipEvent) :
  clip_ok c -> offered c e -> clip_ok (clip_step c e).
Proof.
  unfold clip_ok. intros Hc He. destruct e as [s|e]; cbn [clip_step offered] in *.
  - destruct (Z.eqb_spec s (startTime c)); [assumption|].
    unfold endTimeEffect. cbn [startTime endTime].
    destruct (Z.leb_spec (endTime c) s), (Z.gtb_spec (endTime c) (s + 3));
      cbn [orb startTime endTime]; lia.
  - cbn [startTime endTime]. lia.
Qed.

Lemma clip_run_ok (events : list ClipEvent) :
  forall c, clip_ok c -> offered_all c events -> clip_ok (clip_run c events).
Proof.
  induction events as [|e events IH]; intros c Hc Ho; [assumption|].
  destruct Ho as [He Hrest]. cbn [clip_run fold_left].
  apply IH; [now apply clip_step_ok|assumption].
Qed.

(** X20.  Whatever the user picks in the two menus, the clip sent for a
    character starts within the first eight seconds and lasts one, two or
    three seconds: moving the start past the end, or more than three
    seconds before it, resets the end to one second after the start. *)
Theorem clip_stays_one_to_three_seconds :
  forall (events : list ClipEvent),
    offered_all initial_clip events ->
    clip_ok (clip_run initial_clip events)
    /\ (forall c s, clip_ok c -> 0 <= s <= 7 ->
                    (endTime c <= s \/ s + 3 < endTime c) ->
                    clip_step c (SelectStart s) = mkClip s (s + 1)).
Proof.
  intros events Hoff. split.
  - apply clip_run_ok; [|assumption]. unfold clip_ok. cbn. lia.
  - intros c s Hc Hs Hout. unfold clip_ok in Hc. cbn [clip_step].
    destruct (Z.eqb_spec s (startTime c)); [lia|].
    unfold endTimeEffect. cbn [startTime endTime].
    destruct (Z.leb_spec (endTime c) s), (Z.gtb_spec (endTime c) (s + 3));
      cbn [orb]; try reflexivity; lia.
Qed.

(** ** Mentioning a saved character *)

Lemma appendMention_includes (username prev : jsstring) :
  includes (appendMention username prev) (trim (mention username)) = true.
Proof.
  unfold appendMention.
  destruct (includes prev (trim (mention username))) eqn:E; cbn [negb];
    [assumption|].
  destruct (JsFacts.trim_substring (mention username)) as (a & b & Hs).
  rewrite Hs at 1. rewrite app_assoc. apply JsFacts.includes_app.
Qed.

Lemma appendMention_twice (username prev : jsstring) :
  appendMention username (appendMention username prev)
  = appendMention username prev.
Proof.
  unfold appendMention at 1. now rewrite appendMention_includes.
Qed.

(** X21.  Outside storyboard mode, using a saved character leaves the
    model on one that generates videos and the mention in the prompt, and
    using the same character again changes nothing: the mention is not
    added a second time.  The handler fails only in the edit view of a
    storyboard without segments. *)
Theorem using_a_character_twice_mentions_it_once :
  forall (parseInt : jsstring -> option Z) (username : jsstring) (p : Panel),
    (isStoryboardMode (storyboard p) = false ->
     exists p1,
       handleUseCharacter parseInt username p = Some p1
       /\ model p1 <> SORA_2_CHARACTERS
       /\ includes (prompt p1) (trim (mention username)) = true
       /\ handleUseCharacter parseInt username p1 = Some p1)
    /\ (handleUseCharacter parseInt username p = None ->
        isStoryboardMode (storyboard p) = true
        /\ storyboardView (storyboard p) = edit
        /\ storyboardSegments (storyboard p) = []).
Proof.
  intros parseInt username p. split.
  - intros Hm. unfold handleUseCharacter at 1. cbv zeta.
    set (p0 := match model p with
               | SORA_2_CHARACTERS => with_model SORA_2 p
               | _ => p
               end).
    assert (Hst : storyboard p0 = storyboard p).
    { unfold p0. now destruct (model p). }
    assert (Hmodel : model p0 <> SORA_2_CHARACTERS).
    { unfold p0. destruct (model p) eqn:E; cbn; congruence. }
    rewrite Hst, Hm.
    set (p1 := with_prompt (appendMention username (prompt p0)) p0).
    exists p1. split; [reflexivity|]. split; [exact Hmodel|]. split.
    + exact (appendMention_includes username (prompt p0)).
    + unfold handleUseCharacter. cbv zeta.
      replace (match model p1 with
               | SORA_2_CHARACTERS => with_model SORA_2 p1
               | _ => p1
               end) with p1
        by (change (model p1) with (model p0); destruct (model p0);
            congruence).
      change (storyboard p1) with (storyboard p0). rewrite Hst, Hm.
      change (prompt p1) with (appendMention username (prompt p0)).
      rewrite appendMention_twice. reflexivity.
  - unfold handleUseCharacter. cbv zeta.
    set (p0 := match model p with
               | SORA_2_CHARACTERS => with_model SORA_2 p
               | _ => p
               end).
    assert (Hst : storyboard p0 = storyboard p).
    { unfold p0. now destruct (model p). }
    rewrite Hst. destruct (isStoryboardMode (storyboard p)); [|discriminate].
    destruct (storyboardView (storyboard p)); [|discriminate].
    destruct (storyboardSegments (storyboard p)) as [|s segs] eqn:E.
    + intros _. now repeat split.
    + assert (Hlast : nth_error (s :: segs)
                        (List.length (s :: segs) - 1) <> None).
      { apply nth_error_Some. cbn [List.length]. lia. }
      destruct (nth_error (s :: segs) _); [discriminate|congruence].
Qed.

(** ** From the preview to the prompt *)

Lemma replace_blank_lines_eq (c1 c2 : N) (r : jsstring) :
  replace_blank_lines (c1 :: c2 :: r)
  = if ((c1 =? 10) && (c2 =? 10))%N
    then lit "; " ++ replace_blank_lines r
    else c1 :: replace_blank_lines (c2 :: r).
Proof. reflexivity. Qed.

Lemma replace_blank_lines_single (a : jsstring) :
  single_line a -> replace_blank_lines a = a.
Proof.
  unfold single_line. induction a as [|c a IH]; intros Hn; [reflexivity|].
  destruct a as [|c' a']; [reflexivity|].
  rewrite replace_blank_lines_eq.
  destruct (N.eqb_spec c 10) as [->|_]; [exfalso; apply Hn; now left|].
  cbn [andb]. f_equal. apply IH. intros H. apply Hn. now right.
Qed.

Lemma replace_blank_lines_prefix (a t : jsstring) :
  single_line a ->
  replace_blank_lines (a ++ 10%N :: 10%N :: t)
  = a ++ lit "; " ++ replace_blank_lines t.
Proof.
  unfold single_line. induction a as [|c a IH]; intros Hn; [reflexivity|].
  assert (Hc : (c =? 10)%N = false).
  { apply N.eqb_neq. intros ->. apply Hn. now left. }
  assert (Ha : ~ In 10%N a) by (intros H; apply Hn; now right).
  specialize (IH Ha). rewrite <- !app_comm_cons. rewrite <- IH.
  destruct a as [|c' a']; cbn [app]; rewrite (replace_blank_lines_eq c), Hc;
    reflexivity.
Qed.

Lemma replace_blank_lines_join (parts : list jsstring) :
  Forall single_line parts ->
  replace_blank_lines (join [10; 10]%N parts) = join (lit "; ") parts.
Proof.
  induction 1 as [|p parts Hp Hparts IH]; [reflexivity|].
  destruct parts as [|q rest]; [now apply replace_blank_lines_single|].
  change (join [10; 10]%N (p :: q :: rest))
    with (p ++ 10%N :: 10%N :: join [10; 10]%N (q :: rest)).
  rewrite replace_blank_lines_prefix by assumption. now rewrite IH.
Qed.

Lemma replace_newlines_single (a : jsstring) :
  single_line a -> replace_newlines a = a.
Proof.
  unfold single_line, replace_newlines.
  induction a as [|c a IH]; intros Hn; [reflexivity|]. cbn [map].
  destruct (N.eqb_spec c 10) as [->|_]; [exfalso; apply Hn; now left|].
  f_equal. apply IH. intros H. apply Hn. now right.
Qed.

Lemma join_single_line (sep : jsstring) (parts : list jsstring) :
  single_line sep -> Forall single_line parts -> single_line (join sep parts).
Proof.
  unfold single_line. intros Hsep. induction 1 as [|p parts Hp Hparts IH];
    [intros []|].
  destruct parts as [|q rest]; [exact Hp|].
  change (join sep (p :: q :: rest)) with (p ++ sep ++ join sep (q :: rest)).
  rewrite !in_app_iff. tauto.
Qed.

Lemma scriptParts_single_line (segs : list StoryboardSegment) :
  forall cur,
    Forall (fun s => single_line (description s)) segs ->
    Forall single_line (scriptParts cur segs).
Proof.
  induction segs as [|seg rest IH]; intros cur Hd; [constructor|].
  inversion Hd as [|? ? Hseg Hrest]; subst. cbn [scriptParts].
  constructor; [|now apply IH].
  unfold single_line. rewrite !in_app_iff.
  intros [H|[H|[H|[H|[H|H]]]]].
  - cbn in H. intuition discriminate.
  - now apply JsFacts.num_to_string_single_line in H.
  - cbn in H. intuition discriminate.
  - now apply JsFacts.num_to_string_single_line in H.
  - cbn in H. intuition discriminate.
  - now apply Hseg.
Qed.

Lemma join_starts (sep : jsstring) (c : N) (r : jsstring)
    (rest : list jsstring) :
  exists r', join sep ((c :: r) :: rest) = c :: r'.
Proof. destruct rest; cbn [join app]; eauto. Qed.

Lemma scriptParts_starts (segs : list StoryboardSegment) (cur : Z) :
  segs <> [] ->
  exists r rest, scriptParts cur segs = (91%N :: r) :: rest.
Proof. destruct segs as [|seg rest]; [congruence|]. intros _. cbn. eauto. Qed.

(** X22.  When the preview is built from described segments whose
    descriptions hold no line feed, and the text is left as it is, the
    prompt of the request is the preview's lines joined by "; ": every blank
    line between two scenes has become a semicolon and no line feed is
    left. *)
Theorem preview_becomes_one_line :
  forall (isAuto : bool) (p : Panel) (st : State),
    isStoryboardMode st = true ->
    totalSegmentDuration st = targetDuration st ->
    storyboardSegments st <> [] ->
    Forall described (storyboardSegments st) ->
    Forall (fun s => single_line (description s)) (storyboardSegments st) ->
    videoPrompt isAuto (with_storyboard (handlePreviewAndOptimize st) p)
    = inr (join (lit "; ") (scriptParts 0 (storyboardSegments st)))
    /\ single_line (join (lit "; ") (scriptParts 0 (storyboardSegments st))).
Proof.
  intros isAuto p st Hm Htot Hne Hdesc Hline.
  pose proof (scriptParts_single_line _ 0 Hline) as Hparts.
  assert (Hjoin : single_line
                    (join (lit "; ") (scriptParts 0 (storyboardSegments st)))).
  { apply join_single_line; [|assumption].
    unfold single_line. cbn. intuition discriminate. }
  split; [|exact Hjoin].
  rewrite preview_success by assumption.
  unfold videoPrompt.
  cbn [storyboard with_storyboard isStoryboardMode set_view set_error
       set_preview storyboardView previewPrompt].
  rewrite Hm.
  destruct (scriptParts_starts _ 0 Hne) as (r & rest & Hs).
  destruct (join_starts [10; 10]%N 91 r rest) as [r' Hr'].
  rewrite Hs in *. rewrite Hr'.
  rewrite JsFacts.trim_head by reflexivity. cbn [truthy_str negb].
  rewrite <- Hr', replace_blank_lines_join by assumption.
  now rewrite replace_newlines_single.
Qed.

(** ** What is submitted *)

Lemma replace_blank_lines_In (c : N) :
  c <> 10%N ->
  forall n s, (List.length s <= n)%nat -> In c s ->
              In c (replace_blank_lines s).
Proof.
  intros Hc. induction n as [|n IH]; intros s Hlen Hin.
  - destruct s; [contradiction|cbn in Hlen; lia].
  - destruct s as [|c1 [|c2 r]]; try assumption.
    rewrite replace_blank_lines_eq. cbn [List.length] in Hlen.
    destruct (N.eqb_spec c1 10) as [->|H1]; cbn [andb].
    + destruct (N.eqb_spec c2 10) as [->|H2].
      * apply in_or_app. right. apply IH; [lia|].
        destruct Hin as [E|[E|Hin]]; congruence.
      * destruct Hin as [E|Hin]; [congruence|]. right.
        apply IH; [cbn [List.length]; lia|assumption].
    + destruct Hin as [E|Hin]; [now left|right].
      apply IH; [cbn [List.length]; lia|assumption].
Qed.

Lemma flattened_not_blank (s : jsstring) :
  trim s <> [] -> trim (replace_newlines (replace_blank_lines s)) <> [].
Proof.
  rewrite !JsFacts.trim_nonempty_iff. intros (c & Hin & Hc).
  assert (Hn : c <> 10%N) by (intros ->; discriminate).
  exists c. split; [|assumption]. unfold replace_newlines.
  apply in_map_iff. exists c. split.
  - apply N.eqb_neq in Hn. now rewrite Hn.
  - now apply (replace_blank_lines_In c Hn (List.length s)).
Qed.

Lemma promptParts_not_blank (segs : list StoryboardSegment) :
  segs <> [] -> trim (join (lit "; ") (promptParts 0 segs)) <> [].
Proof.
  destruct segs as [|seg rest]; [congruence|]. intros _.
  cbn [promptParts].
  destruct (join_starts (lit "; ") 91
              (num_to_string 0 ++ lit "s-" ++ num_to_string (0 + duration seg)
               ++ lit "s]: " ++ description seg)
              (promptParts (0 + duration seg) rest)) as [r' Hr'].
  change (lit "[" ++ ?x) with (91%N :: x). rewrite Hr'.
  now rewrite JsFacts.trim_head.
Qed.

(** X23.  Whenever [handleGenerate] goes on to submit video requests, an
    API key is set, no generation is running, and the request carries the
    model, duration, size and orientation chosen, at most one image (the
    uploaded one, in image mode only) and a prompt that is not empty and
    has no white space around it. *)
Theorem submitted_request_is_well_formed :
  forall (isAuto : bool) (p : Panel) (request : ApiService.CreateVideoRequest)
         (currentPrompt : jsstring),
    storyboardSegments (storyboard p) <> [] ->
    decide isAuto p = SubmitVideos request currentPrompt ->
    apiKey (settings p) <> []
    /\ isGenerating p = false
    /\ model p <> SORA_2_CHARACTERS
    /\ ApiService.model request = model_name (model p)
    /\ ApiService.duration request = targetDuration (storyboard p)
    /\ ApiService.size request = size p
    /\ ApiService.orientation request = orientation p
    /\ ApiService.images request
       = match mode p with gen_image => [imageUrl p] | gen_text => [] end
    /\ (mode p = gen_image -> imageUrl p <> [])
    /\ ApiService.prompt request = trim currentPrompt
    /\ ApiService.prompt request <> []
    /\ trim (ApiService.prompt request) = ApiService.prompt request.
Proof.
  intros isAuto p request currentPrompt Hsegs. unfold decide.
  destruct (apiKey (settings p)) as [|k ks] eqn:Hkey; [discriminate|].
  cbn [truthy_str negb].
  destruct (isGenerating p) eqn:Hgen; [discriminate|].
  destruct (model p) eqn:Hmodel; cbn [is_characters];
    try (destruct (negb _); discriminate).
  all: destruct (videoPrompt isAuto p) as [msg|cp] eqn:Hvp; [discriminate|].
  all: assert (Hcp : trim cp <> []).
  1, 3: unfold videoPrompt in Hvp;
    destruct (isStoryboardMode (storyboard p));
    [destruct (storyboardView (storyboard p));
     [destruct (negb (_ =? _)); [discriminate|];
      destruct (existsb _ _); [discriminate|];
      injection Hvp as <-; now apply promptParts_not_blank
     |destruct (truthy_str (trim (previewPrompt (storyboard p)))) eqn:E;
      [|discriminate]; injection Hvp as <-;
      apply flattened_not_blank; now apply truthy_str_nonempty]
    |destruct (truthy_str (trim (startingPrompt isAuto p))) eqn:E;
     [|discriminate]; injection Hvp as <-; now apply truthy_str_nonempty].
  all: destruct (mode p) eqn:Hmode; cbn [is_image andb];
    [|destruct (imageUrl p) as [|u us] eqn:Himg; cbn [truthy_str negb];
      [discriminate|]];
    intros H; injection H as <- <-;
    cbn [ApiService.model ApiService.duration ApiService.size
         ApiService.orientation ApiService.images ApiService.prompt];
    repeat split; try discriminate; try assumption;
    apply JsFacts.trim_idem.
Qed.

(** ** The batch *)

Section Batch.

Context {host : ApiService.Host}.

Variable fetch : nat -> ApiService.Request -> result ApiService.Response.

Lemma snd_bind_inv {A B} (m : io A) (k : A -> io B) (b : B) :
  snd (bind m k) = Ok b ->
  exists l a, m = (l, Ok a) /\ snd (k a) = Ok b.
Proof.
  destruct m as [l [a|e]]; cbn [bind]; [|discriminate].
  destruct (k a) as [l' r] eqn:E. cbn [snd]. intros ->.
  exists l, a. split; [reflexivity|]. now rewrite E.
Qed.

Lemma submit_batch_resolved (request : ApiService.CreateVideoRequest)
    (s : ApiSettings) (remaining : nat) :
  forall i acc ids,
    snd (submit_batch fetch request s i remaining acc) = Ok ids ->
    exists new,
      ids = acc ++ new
      /\ List.length new = remaining
      /\ forall j v,
           nth_error new j = Some v ->
           exists res,
             snd (ApiService.createVideoTask (fetch (i + j)) request s) = Ok res
             /\ ApiService.get res (lit "id") = Ok v.
Proof.
  induction remaining as [|n IH]; intros i acc ids; cbn [submit_batch].
  - intros H. injection H as <-. exists []. rewrite app_nil_r.
    repeat split. intros [|j] v; discriminate.
  - intros H. apply snd_bind_inv in H. destruct H as (l & res & Hres & H).
    apply snd_bind_inv in H. destruct H as (l' & v0 & Hv0 & H).
    apply IH in H. destruct H as (new & -> & Hlen & Hall).
    exists (v0 :: new). rewrite <- app_assoc. repeat split.
    + cbn [List.length]. now rewrite Hlen.
    + intros [|j] v Hj.
      * injection Hj as <-. exists res. rewrite Nat.add_0_r, Hres.
        split; [reflexivity|]. unfold lift in Hv0. now injection Hv0.
      * cbn [nth_error] in Hj. destruct (Hall j v Hj) as (res' & H1 & H2).
        exists res'. now rewrite Nat.add_succ_r.
Qed.

Lemma handleGenerate_videos (isAuto : bool) (p : Panel)
    (request : ApiService.CreateVideoRequest) (currentPrompt : jsstring) :
  decide isAuto p = SubmitVideos request currentPrompt ->
  match snd (submit_batch fetch request (settings p) 0
               (Z.to_nat (batchCount p)) []) with
  | Ok ids =>
    snd (handleGenerate fetch isAuto p)
    = Ok (TasksCreated ids currentPrompt (model p) (orientation p))
  | Throw e =>
    snd (handleGenerate fetch isAuto p)
    = Ok (ErrorSet (error_text e (lit "生成视频失败")))
  end.
Proof.
  intros Hd. unfold handleGenerate. rewrite Hd.
  destruct (submit_batch fetch request (settings p) 0
              (Z.to_nat (batchCount p)) []) as [l [ids|e]]; reflexivity.
Qed.

(** X24.  A batch is all or nothing for the gallery: tasks are handed
    over only when every one of the submissions resolved, and then there
    are as many identifiers as the batch count, in the order of
    submission, each read from the answer to its own request.  As soon as
    one submission is rejected the action ends with an error message and
    hands over no task, although the requests before it were accepted.
    The action itself never rejects. *)
Theorem batch_is_all_or_nothing :
  forall (isAuto : bool) (p : Panel) (request : ApiService.CreateVideoRequest)
         (currentPrompt : jsstring),
    decide isAuto p = SubmitVideos request currentPrompt ->
    (forall ids pr m o,
        snd (handleGenerate fetch isAuto p) = Ok (TasksCreated ids pr m o) ->
        List.length ids = Z.to_nat (batchCount p)
        /\ pr = currentPrompt
        /\ forall j v,
             nth_error ids j = Some v ->
             exists res,
               snd (ApiService.createVideoTask (fetch j) request (settings p))
               = Ok res
               /\ ApiService.get res (lit "id") = Ok v)
    /\ (forall k e,
          (k < Z.to_nat (batchCount p))%nat ->
          snd (ApiService.createVideoTask (fetch k) request (settings p))
          = Throw e ->
          exists msg, snd (handleGenerate fetch isAuto p) = Ok (ErrorSet msg))
    /\ (exists outcome, snd (handleGenerate fetch isAuto p) = Ok outcome).
Proof.
  intros isAuto p request currentPrompt Hd.
  pose proof (handleGenerate_videos isAuto p request currentPrompt Hd) as Hrun.
  destruct (snd (submit_batch fetch request (settings p) 0
                   (Z.to_nat (batchCount p)) [])) as [ids0|e0] eqn:Hb.
  - apply submit_batch_resolved in Hb.
    destruct Hb as (new & Hids & Hlen & Hall). cbn [app] in Hids. subst new.
    repeat apply conj.
    + intros ids pr m o H. rewrite Hrun in H. injection H as <- <- _ _.
      repeat split; [assumption|]. intros j v Hj. exact (Hall j v Hj).
    + intros k e Hk He. exfalso.
      destruct (nth_error ids0 k) as [v|] eqn:Hv.
      * destruct (Hall k v Hv) as (res & Hres & _). cbn [Nat.add] in Hres.
        congruence.
      * apply nth_error_None in Hv. lia.
    + eauto.
  - repeat apply conj.
    + intros ids pr m o H. rewrite Hrun in H. discriminate.
    + intros k e _ _. eauto.
    + eauto.
Qed.

End Batch.

(** ** Concrete runs *)

Lemma parameters_stay_selectable_witness :
  clickable_all initial_params sample_param_events
  /\ param_run initial_params sample_param_events = mkParams SORA_2 15 small
  /\ selectable (param_run initial_params sample_param_events).
Proof.
  assert (H : clickable_all initial_params sample_param_events).
  { vm_compute. repeat split; auto; discriminate. }
  refine (conj H (conj eq_refl _)).
  exact (proj1 (parameters_stay_selectable sample_param_events H)).
Defined.

Lemma clip_stays_one_to_three_seconds_witness :
  offered_all initial_clip sample_clip_events
  /\ clip_run initial_clip sample_clip_events = mkClip 0 1
  /\ clip_ok (clip_run initial_clip sample_clip_events).
Proof.
  assert (H : offered_all initial_clip sample_clip_events).
  { cbn. repeat split; auto; lia. }
  refine (conj H (conj eq_refl _)).
  exact (proj1 (clip_stays_one_to_three_seconds sample_clip_events H)).
Defined.

Lemma preview_becomes_one_line_witness :
  isStoryboardMode two_scene_state = true
  /\ totalSegmentDuration two_scene_state = targetDuration two_scene_state
  /\ storyboardSegments two_scene_state <> []
  /\ Forall described (storyboardSegments two_scene_state)
  /\ Forall (fun s => single_line (description s))
            (storyboardSegments two_scene_state)
  /\ videoPrompt false
       (with_storyboard (handlePreviewAndOptimize two_scene_state) sample_panel)
     = inr (lit "[0s-4s] A; [4s-10s] B").
Proof.
  assert (H1 : isStoryboardMode two_scene_state = true) by reflexivity.
  assert (H2 : totalSegmentDuration two_scene_state
               = targetDuration two_scene_state) by reflexivity.
  assert (H3 : storyboardSegments two_scene_state <> []) by discriminate.
  assert (H4 : Forall described (storyboardSegments two_scene_state)).
  { repeat constructor; discriminate. }
  assert (H5 : Forall (fun s => single_line (description s))
                      (storyboardSegments two_scene_state)).
  { repeat constructor; unfold single_line; cbn; intuition discriminate. }
  refine (conj H1 (conj H2 (conj H3 (conj H4 (conj H5 _))))).
  exact (proj1 (preview_becomes_one_line false sample_panel two_scene_state
                  H1 H2 H3 H4 H5)).
Defined.

Lemma submitted_request_is_well_formed_witness :
  storyboardSegments (storyboard sample_panel) <> []
  /\ decide false sample_panel
     = SubmitVideos
         (ApiService.mkCreateVideoRequest (lit "sora-2") (lit "a cat") []
            portrait 10 small None None)
         (lit "a cat")
  /\ ApiService.prompt
       (ApiService.mkCreateVideoRequest (lit "sora-2") (lit "a cat") []
          portrait 10 small None None) <> [].
Proof.
  assert (H1 : storyboardSegments (storyboard sample_panel) <> [])
    by discriminate.
  assert (H2 : decide false sample_panel
               = SubmitVideos
                   (ApiService.mkCreateVideoRequest (lit "sora-2")
                      (lit "a cat") [] portrait 10 small None None)
                   (lit "a cat")) by reflexivity.
  refine (conj H1 (conj H2 _)).
  pose proof (submitted_request_is_well_formed false sample_panel _ _ H1 H2)
    as H.
  exact (proj1 (proj2 (proj2 (proj2 (proj2 (proj2 (proj2 (proj2 (proj2
           (proj2 (proj2 H))))))))))).
Defined.

Lemma batch_is_all_or_nothing_witness :
  decide false sample_panel
  = SubmitVideos
      (ApiService.mkCreateVideoRequest (lit "sora-2") (lit "a cat") []
         portrait 10 small None None)
      (lit "a cat")
  /\ (1 < Z.to_nat (batchCount sample_panel))%nat
  /\ snd (ApiService.createVideoTask (host := ApiService.sample_host)
            (second_fails 1)
            (ApiService.mkCreateVideoRequest (lit "sora-2") (lit "a cat") []
               portrait 10 small None None)
            (settings sample_panel))
     = Throw (Error (lit "Request failed: 500"))
  /\ exists msg,
       snd (handleGenerate (host := ApiService.sample_host) second_fails
              false sample_panel)
       = Ok (ErrorSet msg).
Proof.
  assert (H1 : decide false sample_panel
               = SubmitVideos
                   (ApiService.mkCreateVideoRequest (lit "sora-2")
                      (lit "a cat") [] portrait 10 small None None)
                   (lit "a cat")) by reflexivity.
  assert (H2 : (1 < Z.to_nat (batchCount sample_panel))%nat) by (cbn; lia).
  assert (H3 : snd (ApiService.createVideoTask
                      (host := ApiService.sample_host) (second_fails 1)
                      (ApiService.mkCreateVideoRequest (lit "sora-2")
                         (lit "a cat") [] portrait 10 small None None)
                      (settings sample_panel))
               = Throw (Error (lit "Request failed: 500"))) by reflexivity.
  refine (conj H1 (conj H2 (conj H3 _))).
  exact (proj1 (proj2 (batch_is_all_or_nothing
                         (host := ApiService.sample_host) second_fails
                         false sample_panel _ _ H1))
           1%nat _ H2 H3).
Defined.

Lemma using_a_character_twice_mentions_it_once_witness :
  isStoryboardMode (storyboard sample_panel) = false
  /\ exists p1,
       handleUseCharacter parseInt_decimal (lit "tabby") sample_panel
       = Some p1
       /\ model p1 <> SORA_2_CHARACTERS
       /\ includes (prompt p1) (trim (mention (lit "tabby"))) = true
       /\ handleUseCharacter parseInt_decimal (lit "tabby") p1 = Some p1.
Proof.
  assert (H : isStoryboardMode (storyboard sample_panel) = false)
    by reflexivity.
  refine (conj H _).
  exact (proj1 (using_a_character_twice_mentions_it_once parseInt_decimal
                  (lit "tabby") sample_panel) H).
Defined.

End CreatePanelExtra.

